(** * node-tar: listing filter, append scan and entry stream

    A shallow embedding of [src/list.ts]: the path filter of [tar -t]
    ([filesFilter]) and the reading of the archive to list
    ([listFileSync]), the append scan of [tar -r] ([replaceSync] and the
    [getPos] callback chain of [replaceAsync]) with the opening and
    closing of the archive around it and the adding of the files
    ([addFilesSync], [addFilesAsync]), the options check of [replace],
    and the [Entry] pass-through stream with its metadata merge
    ([_setProps]).

    The file has two parts.  The first holds the model, one module per
    part of the source ([Path], [Filter], [Header], [Replace], [Js],
    [Entry], [Listing], [Append]), a header codec and sample data to run
    it on ([Ustar], [Samples], [EntrySamples], [Backward]), and the
    invariants and the views of the model the proofs use ([Blocks],
    [Delivery]).  The second holds the facts proved about it.

    Conventions.
    - JavaScript numbers that hold byte counts and file offsets are
      exact integers ([Z]); [NaN] is kept where the stream's arithmetic
      can produce it.
    - A JavaScript object used as a dictionary, and the [Map] of the
      filter and of the mtime cache, are [gmap string _]; a key that is
      absent and a key bound to [undefined] are the same thing for this
      code, which only ever tests [typeof v !== "undefined"].
    - Loops and recursions that the source does not bound take fuel;
      [None] is fuel exhaustion, and the facts below show the fuel that
      is enough.
    - Listeners of the stream's events only observe: they do not call
      back into the stream.
    - Paths follow the POSIX flavour of Node's [path] module. *)

From Stdlib Require Import ZArith Lia Bool List Ascii String.
From stdpp Require Import base option list gmap strings.

Local Open Scope Z_scope.

(** ** Paths: the parts of Node's [path] (POSIX) the filter calls *)

Module Path.

Definition is_slash (c : option ascii) : bool :=
  match c with
  | Some c => Ascii.eqb c "/"%char
  | None => false
  end.

Definition charAt (s : string) (i : nat) : option ascii := String.get i s.

(** The backwards loop of [posix.dirname]:
    [for (let i = path.length - 1; i >= 1; --i)], looking for the last
    separator that is followed by a non-separator. *)
Fixpoint dirname_end (path : string) (i : nat) (matchedSlash : bool)
  : option nat :=
  match i with
  | O => None
  | S i' =>
      if is_slash (charAt path i) then
        if matchedSlash then dirname_end path i' true else Some i
      else dirname_end path i' false
  end.

Definition dirname (path : string) : string :=
  match String.length path with
  | O => "."%string
  | S n =>
      let hasRoot := is_slash (charAt path 0) in
      match dirname_end path n true with
      | None => if hasRoot then "/"%string else "."%string
      | Some e =>
          if hasRoot && Nat.eqb e 1 then "//"%string
          else String.substring 0 e path
      end
  end.

(** [path.parse(p).root]: ["/"] for an absolute path, [""] otherwise. *)
Definition parse_root (path : string) : string :=
  if is_slash (charAt path 0) then "/"%string else ""%string.

End Path.

(** ** The listing filter ([filesFilter], list.ts) *)

Module Filter.

(** Modelled from the spec: [stripTrailingSlashes]
    (strip-trailing-slashes.js is not among the sources); the requested
    paths and every probed path have their trailing separators
    stripped.  [strip_end str i] is the number of leading characters
    kept when the scan from the end has reached index [i]. *)
Fixpoint strip_end (str : string) (i : nat) : nat :=
  match i with
  | O => O
  | S i' => if Path.is_slash (Path.charAt str i') then strip_end str i' else i
  end.

Definition stripTrailingSlashes (str : string) : string :=
  String.substring 0 (strip_end str (String.length str)) str.

(** JavaScript's [a || b] on strings: the empty string is falsy. *)
Definition or_else (a b : string) : string :=
  if String.eqb a "" then b else a.

(** [parse(file).root || '.'] *)
Definition root_of (file : string) : string :=
  or_else (Path.parse_root file) ".".

(** [new Map(files.map(f => [stripTrailingSlashes(f), true]))] *)
Definition initial_map (files : list string) : gmap string bool :=
  foldl (fun m f => <[stripTrailingSlashes f := true]> m) ∅ files.

(** [mapHas(file, r = '')].  The recursion goes through [dirname], so it
    is driven by [fuel]; [None] is fuel exhaustion.  The map is the
    closure's mutable [Map], threaded through the call. *)
Fixpoint mapHas (fuel : nat) (map : gmap string bool) (file r : string)
  : option (gmap string bool * bool) :=
  let root := or_else r (root_of file) in
  res ← (if String.eqb file root then Some (map, false)
         else
           match map !! file with
           | Some m => Some (map, m)
           | None =>
               match fuel with
               | O => None
               | S fuel' => mapHas fuel' map (Path.dirname file) root
               end
           end);
  Some (<[file := res.2]> res.1, res.2).

(** A top-level call [mapHas(file)]: the walk visits at most
    [length file + 1] paths. *)
Definition included (map : gmap string bool) (file : string)
  : option (gmap string bool * bool) :=
  mapHas (S (String.length file)) map file "".

(** The predicate installed in [opt.filter]; [user] is the caller's own
    filter when there was one ([&&] does not evaluate [mapHas] when the
    caller's filter rejects). *)
Definition filter (user : option (string -> bool)) (map : gmap string bool)
  (file : string) : option (gmap string bool * bool) :=
  match user with
  | Some f =>
      if f file then included map (stripTrailingSlashes file)
      else Some (map, false)
  | None => included map (stripTrailingSlashes file)
  end.

(** A sequence of probes against one filter instance: the memo map
    built by one probe is the map the next one sees. *)
Fixpoint probes (map : gmap string bool) (paths : list string)
  : option (list bool) :=
  match paths with
  | [] => Some []
  | p :: rest =>
      r ← included map p;
      bs ← probes r.1 rest;
      Some (r.2 :: bs)
  end.

(** *** The inclusion rule

    [ancestors root path] is the path followed by its parent
    directories, nearest first, up to but excluding the root, where the
    walk resolves to [false]. *)
Fixpoint ancestors (fuel : nat) (root path : string) : list string :=
  if String.eqb path root then []
  else path ::
       match fuel with
       | O => []
       | S fuel' => ancestors fuel' root (Path.dirname path)
       end.

Definition included_spec (requested : list string) (path : string) : bool :=
  existsb (fun a => bool_decide (a ∈ requested))
    (ancestors (S (String.length path)) (root_of path) path).

(** *** The inclusion rule as the specification words it

    The specification walks "upward to (and including) the filesystem
    root": [ancestors_to_root root path] is the path followed by its
    parent directories, nearest first, up to and including the root,
    and [included_to_root] looks all of them up in the requested set. *)
Fixpoint ancestors_to_root (fuel : nat) (root path : string) : list string :=
  path ::
  if String.eqb path root then []
  else
    match fuel with
    | O => []
    | S fuel' => ancestors_to_root fuel' root (Path.dirname path)
    end.

Definition included_to_root (requested : list string) (path : string)
  : bool :=
  existsb (fun a => bool_decide (a ∈ requested))
    (ancestors_to_root (S (String.length path)) (root_of path) path).

End Filter.

(** ** Appending in place ([replaceSync] and [replaceAsync], list.ts) *)

Module Header.

(** What the scan reads of [new Header(headBuf)].  The decoder itself
    (header.ts) is not among the sources: the scans below take it as a
    parameter.  [mtime] is the [Date] as a number. *)
Record t := mk {
  cksumValid : bool;
  size : option Z;
  mtime : option Z;
  path : option string
}.

End Header.

Module Replace.

(** A [Buffer] is its list of bytes. *)
Abbreviation Buffer := (list Z) (only parsing).

(** [Buffer.alloc(n)]: zero-filled. *)
Definition alloc (n : nat) : Buffer := replicate n 0.

(** [buf[i] === v]; an index past the end reads [undefined]. *)
Definition byte_is (buf : Buffer) (i : nat) (v : Z) : bool :=
  match buf !! i with
  | Some b => b =? v
  | None => false
  end.

(** The bytes a read obtained, stored into the buffer at [offset]. *)
Definition blit (buf : Buffer) (offset : nat) (data : list Z) : Buffer :=
  take offset buf ++ data ++ drop (offset + length data) buf.

(** [headBuf[0] === 0x1f && headBuf[1] === 0x8b] *)
Definition gzip_magic (headBuf : Buffer) : bool :=
  byte_is headBuf 0 31 && byte_is headBuf 1 139.

Definition compressed_error : string := "cannot append to compressed archives".

(** What one read at a position delivers: an error, or some bytes
    (possibly fewer than asked for, none at the end of the file). *)
Inductive read_result :=
| ReadError (er : string)
| ReadData (data : list Z).

(** How a scan ends: the offset handed to the write stream, or a
    failure. *)
Inductive outcome :=
| Position (position : Z)
| Threw (er : string).

(** Two scans agree when both fail or both give the same offset. *)
Definition same_outcome (a b : outcome) : Prop :=
  match a, b with
  | Position x, Position y => x = y
  | Threw _, Threw _ => True
  | _, _ => False
  end.

(** What the scan changes besides its result: [opt.mtimeCache] (when the
    caller supplied one) and the reads issued on the descriptor, oldest
    first, each with its file position and the number of bytes asked
    for. *)
Record effects := mk_effects {
  mtimeCache : option (gmap string Z);
  reads : list (Z * nat)
}.

Definition log_read (e : effects) (position : Z) (len : nat) : effects :=
  mk_effects (mtimeCache e) (reads e ++ [(position, len)]).

(** [if (opt.mtimeCache && h.mtime) opt.mtimeCache.set(String(h.path), h.mtime)] *)
Definition record_mtime (e : effects) (h : Header.t) : effects :=
  match mtimeCache e, Header.mtime h with
  | Some cache, Some t =>
      mk_effects (Some (<[default "undefined"%string (Header.path h) := t]> cache))
        (reads e)
  | _, _ => e
  end.

(** The effects with the mtime of one more entry recorded, when there
    is one. *)
Definition recorded (last : option Header.t) (e : effects) : effects :=
  match last with
  | Some h => record_mtime e h
  | None => e
  end.

(** [Math.ceil(n / 512)] on an integer. *)
Definition ceil512 (n : Z) : Z := - ((- n) / 512).

(** [512 * Math.ceil((h.size || 0) / 512)], as [replaceSync] has it:
    [||] also replaces a zero. *)
Definition entryBlockSize_sync (h : Header.t) : Z :=
  512 * ceil512 (match Header.size h with
                 | Some n => if n =? 0 then 0 else n
                 | None => 0
                 end).

(** [512 * Math.ceil((h.size ?? 0) / 512)], as [getPos] has it. *)
Definition entryBlockSize_async (h : Header.t) : Z :=
  512 * ceil512 (match Header.size h with
                 | Some n => n
                 | None => 0
                 end).

(** The sizes a decoder declares are byte counts. *)
Definition sizes_nonneg (decode : Buffer -> Header.t) : Prop :=
  forall buf n, Header.size (decode buf) = Some n -> 0 <= n.

Section Scan.

(** [st.size], the reads of the open descriptor, and the header decoder. *)
Variable st_size : N.
Variable pread : Z -> nat -> read_result.
Variable decode : Buffer -> Header.t.

(** [fs.readSync(fd, buffer, offset, length, position)] and the
    completion of [fs.read] with the same arguments: at most [length]
    bytes are stored at [offset]; the count is returned. *)
Definition fs_read (buffer : Buffer) (offset len : nat) (position : Z)
  : string + (Buffer * nat) :=
  match pread position len with
  | ReadError er => inl er
  | ReadData data =>
      let got := take len data in
      inr (blit buffer offset got, length got)
  end.

(** *** Blocking mode *)

(** How the inner loop of [replaceSync] is left. *)
Inductive fill_exit :=
| FillThrew (er : string)
| FillBreak
| FillFull.

(** [for (let bufPos = 0, bytes = 0; bufPos < 512; bufPos += bytes)];
    every turn that does not leave the loop adds at least one byte, so
    512 turns are enough ([None] is fuel exhaustion). *)
Fixpoint fill_sync (fuel : nat) (position : Z) (headBuf : Buffer)
  (bufPos : nat) (e : effects) : option (fill_exit * Buffer * effects) :=
  if (bufPos <? 512)%nat then
    match fuel with
    | O => None
    | S fuel' =>
        let e := log_read e (position + Z.of_nat bufPos) (512 - bufPos) in
        match fs_read headBuf bufPos (512 - bufPos)
                (position + Z.of_nat bufPos) with
        | inl er => Some (FillThrew er, headBuf, e)
        | inr (headBuf, bytes) =>
            if (position =? 0) && gzip_magic headBuf then
              Some (FillThrew compressed_error, headBuf, e)
            else if (bytes =? 0)%nat then Some (FillBreak, headBuf, e)
            else fill_sync fuel' position headBuf (bufPos + bytes) e
        end
    end
  else Some (FillFull, headBuf, e).

(** The [POSITION] loop of [replaceSync]:
    [for (position = 0; position < st.size; position += 512)]. *)
Fixpoint scan_sync (fuel : nat) (position : Z) (headBuf : Buffer)
  (e : effects) : option (outcome * effects) :=
  if position <? Z.of_N st_size then
    match fuel with
    | O => None
    | S fuel' =>
        match fill_sync 512 position headBuf 0 e with
        | None => None
        | Some (FillThrew er, _, e) => Some (Threw er, e)
        | Some (FillBreak, _, e) => Some (Position position, e)
        | Some (FillFull, headBuf, e) =>
            let h := decode headBuf in
            if negb (Header.cksumValid h) then Some (Position position, e)
            else
              let entryBlockSize := entryBlockSize_sync h in
              if position + entryBlockSize + 512 >? Z.of_N st_size then
                Some (Position position, e)
              else
                let position := position + entryBlockSize in
                let e := record_mtime e h in
                scan_sync fuel' (position + 512) headBuf e
        end
    end
  else Some (Position position, e).

(** The scan of [replaceSync] from [position = 0] with a fresh
    [headBuf]; the result is the [position] given to [streamSync]. *)
Definition replaceSync_scan (fuel : nat) (cache : option (gmap string Z))
  : option (outcome * effects) :=
  scan_sync fuel 0 (alloc 512) (mk_effects cache []).

(** *** Cooperative mode *)

(** The variables [getPos] closes over. *)
Record closure := mk_closure {
  position : Z;
  bufPos : nat;
  headBuf : Buffer
}.

(** What a call of [onread] ends with: the callback [cb], or one more
    [fs.read(fd, headBuf, offset, length, position, onread)]. *)
Inductive next :=
| Cb (result : outcome)
| Read (offset len : nat) (position : Z).

(** [onread(er, bytes)] when the read succeeded; [headBuf] already holds
    the bytes. *)
Definition onread (c : closure) (e : effects) (bytes : nat)
  : next * closure * effects :=
  let bufPos := (bufPos c + bytes)%nat in
  let c := mk_closure (position c) bufPos (headBuf c) in
  if (bufPos <? 512)%nat && negb (bytes =? 0)%nat then
    (Read bufPos (512 - bufPos) (position c + Z.of_nat bufPos), c, e)
  else if (position c =? 0) && gzip_magic (headBuf c) then
    (Cb (Threw compressed_error), c, e)
  else if (bufPos <? 512)%nat then (Cb (Position (position c)), c, e)
  else
    let h := decode (headBuf c) in
    if negb (Header.cksumValid h) then (Cb (Position (position c)), c, e)
    else
      let entryBlockSize := entryBlockSize_async h in
      if position c + entryBlockSize + 512 >? Z.of_N st_size then
        (Cb (Position (position c)), c, e)
      else
        let position := position c + entryBlockSize + 512 in
        let c := mk_closure position bufPos (headBuf c) in
        if position >=? Z.of_N st_size then (Cb (Position position), c, e)
        else
          let e := record_mtime e h in
          let c := mk_closure position 0 (headBuf c) in
          (Read 0 512 position, c, e).

(** The event loop serving the reads of [getPos]: one unit of fuel per
    [fs.read].  A failed read reaches [onread] as [er], which hands it
    to [cb]. *)
Fixpoint getPos_loop (fuel : nat) (c : closure) (e : effects)
  (offset len : nat) (pos : Z) : option (outcome * effects) :=
  match fuel with
  | O => None
  | S fuel' =>
      let e := log_read e pos len in
      match fs_read (headBuf c) offset len pos with
      | inl er => Some (Threw er, e)
      | inr (buf, bytes) =>
          match onread (mk_closure (position c) (bufPos c) buf) e bytes with
          | (Cb r, _, e) => Some (r, e)
          | (Read offset len pos, c, e) => getPos_loop fuel' c e offset len pos
          end
      end
  end.

(** [getPos(fd, size, cb_)] *)
Definition getPos (fuel : nat) (cache : option (gmap string Z))
  : option (outcome * effects) :=
  if (st_size =? 0)%N then Some (Position 0, mk_effects cache [])
  else getPos_loop fuel (mk_closure 0 0 (alloc 512)) (mk_effects cache [])
         0 512 0.

End Scan.

(** A regular file with the given bytes, read at most [chunk] bytes at
    a time ([chunk >= 512] never cuts a read short). *)
Definition file_read (content : list Z) (chunk : nat) (position : Z)
  (len : nat) : read_result :=
  if position <? 0 then ReadError "EINVAL"
  else ReadData (take (Nat.min len chunk) (drop (Z.to_nat position) content)).

(** [pread] reads a regular file holding [content]: a read at a
    position returns bytes of the file from there on, possibly fewer
    than asked for, and at least one unless the position is at or past
    the end or nothing was asked for. *)
Definition reads_file (content : list Z)
  (pread : Z -> nat -> read_result) : Prop :=
  forall (pos : Z) (len : nat), 0 <= pos ->
    exists n : nat,
      pread pos len = ReadData (take n (drop (Z.to_nat pos) content))
      /\ ((0 < len)%nat -> (Z.to_nat pos < length content)%nat -> (0 < n)%nat).

(** [pread] never cuts a read short: it returns all the bytes asked
    for, up to the end of the file. *)
Definition reads_fully (content : list Z)
  (pread : Z -> nat -> read_result) : Prop :=
  forall (pos : Z) (len : nat), 0 <= pos ->
    pread pos len = ReadData (take len (drop (Z.to_nat pos) content)).

(** Only the first read of the scan, 512 bytes asked for at position 0,
    obtains any byte: every later read starts at or past the end of the
    file. *)
Definition only_first_read_gets_bytes (content : list Z)
  (trace : list (Z * nat)) : Prop :=
  exists later,
    trace = (0, 512%nat) :: later
    /\ Forall (fun r : Z * nat => Z.of_nat (length content) <= r.1) later.

(** A read that stays inside the first 512-byte block of the file. *)
Definition in_first_block (r : Z * nat) : Prop :=
  0 <= r.1 /\ r.1 + Z.of_nat r.2 <= 512.

(** The cache entry a finished scan left for [path], if any. *)
Definition cached (r : option (outcome * effects)) (path : string)
  : option Z :=
  match r with
  | Some (_, e) =>
      match mtimeCache e with
      | Some cache => cache !! path
      | None => None
      end
  | None => None
  end.

(** The outcome of a finished scan. *)
Definition outcome_of (r : option (outcome * effects)) : option outcome :=
  fst <$> r.

(** *** The options check of [replace] *)

Record TarOptions := mk_options {
  file : option string;
  sync : bool;
  gzip : bool;
  brotli : bool
}.

(** [str.endsWith(suffix)] *)
Definition endsWith (str suffix : string) : bool :=
  (String.length suffix <=? String.length str)%nat &&
  String.eqb
    (String.substring (String.length str - String.length suffix)
       (String.length suffix) str)
    suffix.

(** Modelled from the spec: [isFile] (options.js is not among the
    sources): the destination path is configured. *)
Definition isFile (opt : TarOptions) : bool :=
  match file opt with
  | Some f => negb (String.eqb f "")
  | None => false
  end.

(** The validator passed to [makeCommand]; [Some msg] is
    [throw new TypeError(msg)]. *)
Definition validate (opt : TarOptions) (entries : list string)
  : option string :=
  if negb (isFile opt) then Some "file is required"%string
  else if gzip opt || brotli opt
          || endsWith (default ""%string (file opt)) ".br"
          || endsWith (default ""%string (file opt)) ".tbr"
  then Some compressed_error
  else if (length entries =? 0)%nat
  then Some "no paths specified to add/replace"%string
  else None.

(** A file-system call made on behalf of the command. *)
Inductive fs_call :=
| FsOpen (path flags : string)
| FsFstat
| FsRead (position : Z) (len : nat)
| FsWrite (position : Z)
| FsClose.

(** Modelled from the spec: [makeCommand] (make-command.js is not among
    the sources) validates eagerly, before any I/O, then runs the
    blocking or the cooperative implementation.  The result is the
    error thrown, if any, and the file-system calls made. *)
Definition makeCommand
  (syncFile asyncFile : TarOptions -> list string -> list fs_call)
  (validate : TarOptions -> list string -> option string)
  (opt : TarOptions) (entries : list string)
  : option string * list fs_call :=
  match validate opt entries with
  | Some er => (Some er, [])
  | None =>
      (None, if sync opt then syncFile opt entries else asyncFile opt entries)
  end.

Definition replace
  (replaceSync replaceAsync : TarOptions -> list string -> list fs_call)
  : TarOptions -> list string -> option string * list fs_call :=
  makeCommand replaceSync replaceAsync validate.

End Replace.

(** ** A header codec for concrete archives *)

Module Ustar.

(** Modelled from the spec: the header codec (header.ts is not among the
    sources).  Numeric fields are octal ASCII ended by a NUL or a space;
    the checksum is the sum of the 512 bytes with the checksum field
    read as eight spaces.  The field offsets are those of the POSIX
    ustar layout: path at 0, size at 124, mtime at 136, checksum at
    148. *)
Definition field (buf : list Z) (off len : nat) : list Z :=
  take len (drop off buf).

Fixpoint until_nul (bs : list Z) : list Z :=
  match bs with
  | [] => []
  | b :: rest => if b =? 0 then [] else b :: until_nul rest
  end.

Fixpoint skip_spaces (bs : list Z) : list Z :=
  match bs with
  | [] => []
  | b :: rest => if b =? 32 then skip_spaces rest else bs
  end.

Fixpoint octal_digits (acc : option Z) (bs : list Z) : option Z :=
  match bs with
  | [] => acc
  | b :: rest =>
      if (48 <=? b) && (b <=? 55)
      then octal_digits (Some (8 * default 0 acc + (b - 48))) rest
      else acc
  end.

Definition decNumber (buf : list Z) (off len : nat) : option Z :=
  octal_digits None (skip_spaces (until_nul (field buf off len))).

Definition decString (buf : list Z) (off len : nat) : string :=
  string_of_list_ascii
    (List.map (fun b => ascii_of_nat (Z.to_nat b)) (until_nul (field buf off len))).

Definition sum_bytes (bs : list Z) : Z := foldr Z.add 0 bs.

Definition checksumOf (buf : list Z) : Z :=
  sum_bytes (field buf 0 148) + 8 * 32 + sum_bytes (field buf 156 356).

Definition decode (buf : list Z) : Header.t :=
  Header.mk
    (match decNumber buf 148 8 with
     | Some sum => sum =? checksumOf buf
     | None => false
     end)
    (decNumber buf 124 12)
    ((fun seconds => 1000 * seconds) <$> decNumber buf 136 12)
    (Some (decString buf 0 100)).

(** Encoding, for building archives to run the scans on. *)
Fixpoint octal (width : nat) (n : Z) : list Z :=
  match width with
  | O => []
  | S w => octal w (n / 8) ++ [48 + n mod 8]
  end.

Definition bytes_of_string (s : string) : list Z :=
  List.map (fun c => Z.of_nat (nat_of_ascii c)) (list_ascii_of_string s).

Definition pad (len : nat) (bs : list Z) : list Z :=
  take len (bs ++ replicate len 0).

Definition encode_with_cksum (path : string) (size mtime : Z)
  (cksum : list Z) : list Z :=
  pad 100 (bytes_of_string path) ++ replicate 24 0
  ++ octal 11 size ++ [0] ++ octal 11 mtime ++ [0]
  ++ cksum ++ replicate 356 0.

Definition encode (path : string) (size mtime : Z) : list Z :=
  let blank := encode_with_cksum path size mtime (replicate 8 32) in
  encode_with_cksum path size mtime (octal 6 (checksumOf blank) ++ [0; 32]).

End Ustar.

(** ** Sample archives *)

Module Samples.

(** One entry, ["a.txt"] with five bytes of data in one block, then the
    two zero blocks that end an archive. *)
Definition archive : list Z :=
  Ustar.encode "a.txt" 5 1 ++ replicate 512 7 ++ replicate 1024 0.

(** One entry of size zero and nothing after its header: the file ends
    where the entry ends. *)
Definition bare_entry : list Z := Ustar.encode "a.txt" 0 1.

(** The first bytes of a gzip stream. *)
Definition gzipped : list Z := 31 :: 139 :: replicate 598 8.

End Samples.

(** ** Entries ([Entry], list.ts) *)

(** The JavaScript values an entry's properties hold.  Numbers are
    exact integers or [NaN]. *)
Module Js.

Inductive number :=
| Num (z : Z)
| NaN.

Inductive value :=
| VNumber (x : number)
| VString (s : string)
| VDate (time : number).

(** [x * k], [x - k] and [a > x] for integers [k] and [a]. *)
Definition mul (x : number) (k : Z) : number :=
  match x with
  | Num z => Num (z * k)
  | NaN => NaN
  end.

Definition sub (x : number) (k : Z) : number :=
  match x with
  | Num z => Num (z - k)
  | NaN => NaN
  end.

Definition gt (a : Z) (x : number) : bool :=
  match x with
  | Num z => a >? z
  | NaN => false
  end.

End Js.

Module Entry.

(** An object used as a dictionary; an absent key reads [undefined]. *)
Abbreviation object := (gmap string Js.value) (only parsing).

Abbreviation chunk := (list Z) (only parsing).

(** What the stream emits to its listeners.  The chunk of a [data]
    event is [this._queue[this._index]], [undefined] past the end of
    the array. *)
Inductive event :=
| EmitError (msg : string)
| EmitPause
| EmitResume
| EmitData (c : option chunk)
| EmitDrain
| EmitEnd.

(** The fields of an [Entry]; [emitted] lists the events emitted so far,
    oldest first. *)
Record t := mk {
  _needDrain : bool;
  _paused : bool;
  _reading : bool;
  _ending : bool;
  _ended : bool;
  _remaining : option Js.value;
  _queue : list chunk;
  _index : nat;
  _queueLen : nat;
  props : object;
  _header : object;
  _extended : object;
  _global : object;
  type : option string;
  path : option Js.value;
  emitted : list event
}.

Definition set_needDrain (b : bool) (e : t) : t :=
  mk b (_paused e) (_reading e) (_ending e) (_ended e) (_remaining e)
    (_queue e) (_index e) (_queueLen e) (props e) (_header e) (_extended e)
    (_global e) (type e) (path e) (emitted e).

Definition set_paused (b : bool) (e : t) : t :=
  mk (_needDrain e) b (_reading e) (_ending e) (_ended e) (_remaining e)
    (_queue e) (_index e) (_queueLen e) (props e) (_header e) (_extended e)
    (_global e) (type e) (path e) (emitted e).

Definition set_reading (b : bool) (e : t) : t :=
  mk (_needDrain e) (_paused e) b (_ending e) (_ended e) (_remaining e)
    (_queue e) (_index e) (_queueLen e) (props e) (_header e) (_extended e)
    (_global e) (type e) (path e) (emitted e).

Definition set_ending (b : bool) (e : t) : t :=
  mk (_needDrain e) (_paused e) (_reading e) b (_ended e) (_remaining e)
    (_queue e) (_index e) (_queueLen e) (props e) (_header e) (_extended e)
    (_global e) (type e) (path e) (emitted e).

Definition set_ended (b : bool) (e : t) : t :=
  mk (_needDrain e) (_paused e) (_reading e) (_ending e) b (_remaining e)
    (_queue e) (_index e) (_queueLen e) (props e) (_header e) (_extended e)
    (_global e) (type e) (path e) (emitted e).

Definition set_remaining (r : option Js.value) (e : t) : t :=
  mk (_needDrain e) (_paused e) (_reading e) (_ending e) (_ended e) r
    (_queue e) (_index e) (_queueLen e) (props e) (_header e) (_extended e)
    (_global e) (type e) (path e) (emitted e).

Definition set_queue (q : list chunk) (index queueLen : nat) (e : t) : t :=
  mk (_needDrain e) (_paused e) (_reading e) (_ending e) (_ended e)
    (_remaining e) q index queueLen (props e) (_header e) (_extended e)
    (_global e) (type e) (path e) (emitted e).

Definition set_props (p : object) (ty : option string)
  (pa : option Js.value) (e : t) : t :=
  mk (_needDrain e) (_paused e) (_reading e) (_ending e) (_ended e)
    (_remaining e) (_queue e) (_index e) (_queueLen e) p (_header e)
    (_extended e) (_global e) ty pa (emitted e).

(** [this.emit(name, ...)] with listeners that only observe. *)
Definition emit (ev : event) (e : t) : t :=
  mk (_needDrain e) (_paused e) (_reading e) (_ending e) (_ended e)
    (_remaining e) (_queue e) (_index e) (_queueLen e) (props e) (_header e)
    (_extended e) (_global e) (type e) (path e) (emitted e ++ [ev]).

(** How a call ends: it returns, or it throws. *)
Inductive completion (A : Type) :=
| Normal (a : A) (e : t)
| Throw (msg : string) (e : t).

Arguments Normal {A} a e.
Arguments Throw {A} msg e.

Definition state_of {A : Type} (c : completion A) : t :=
  match c with
  | Normal _ e => e
  | Throw _ e => e
  end.

(** The switch of [_setProps] on the name [tar.types[props.type]]. *)
Definition classify (name : option string) : string :=
  match name with
  | None => "Unknown"
  | Some name =>
      if String.eqb name "OldFile" || String.eqb name "ContiguousFile"
      then "File"
      else if String.eqb name "GNUDumpDir" then "Directory"
      else if String.eqb name "Link" || String.eqb name "SymbolicLink"
              || String.eqb name "CharacterDevice"
              || String.eqb name "BlockDevice"
              || String.eqb name "Directory" || String.eqb name "FIFO"
      then name
      else (* default: *) name
  end%string.

(** The type names the switch lists with a [case] of their own. *)
Definition listed_cases : list string :=
  ["OldFile"; "ContiguousFile"; "GNUDumpDir"; "Link"; "SymbolicLink";
   "CharacterDevice"; "BlockDevice"; "Directory"; "FIFO"]%string.

Section Entry.

(** [tar.fields] up to its [null] terminator, the lookup
    [tar.types[key]] (tar.js is not among the sources), the number a
    string converts to, [this._maxQueueLen] (set nowhere in the source:
    [None] is [undefined]) and whether an ['error'] listener is
    attached (without one, emitting ['error'] throws). *)
Variable fields : list string.
Variable types : option Js.value -> option string.
Variable ToNumber_string : string -> Js.number.
Variable _maxQueueLen : option nat.
Variable error_listener : bool.

Definition ToNumber (v : option Js.value) : Js.number :=
  match v with
  | None => Js.NaN
  | Some (Js.VNumber x) => x
  | Some (Js.VString s) => ToNumber_string s
  | Some (Js.VDate time) => time
  end.

(** [v === 0] *)
Definition is_zero (v : option Js.value) : bool :=
  match v with
  | Some (Js.VNumber (Js.Num z)) => z =? 0
  | _ => false
  end.

(** [c.slice(0, end)] *)
Definition slice0 (c : chunk) (stop : Js.number) : chunk :=
  match stop with
  | Js.Num z =>
      if z <? 0 then take (Z.to_nat (Z.of_nat (length c) + z)) c
      else take (Z.to_nat z) c
  | Js.NaN => []
  end.

(** [_read()], in the three steps its comments name.

    "have any data to emit?" *)
Definition emit_one (e : t) : t :=
  if (_index e <? _queueLen e)%nat then
    emit (EmitData (_queue e !! _index e))
      (set_queue (_queue e) (S (_index e)) (_queueLen e) e)
  else e.

(** "check if we're drained" *)
Definition check_drained (e : t) : t :=
  if (_queueLen e <=? _index e)%nat then
    let e := set_queue [] 0 0 e in
    let e :=
      if _needDrain e then emit EmitDrain (set_needDrain false e) else e in
    if _ending e then emit EmitEnd (set_ended true e) else e
  else e.

(** "if the queue gets too big, then pluck off whatever we can" *)
Definition pluck (e : t) : t :=
  match _maxQueueLen with
  | Some mql =>
      if (mql <? _queueLen e)%nat && (0 <? _index e)%nat then
        let mql := Nat.min (_index e) mql in
        set_queue (drop mql (_queue e)) (_index e - mql) (_queueLen e - mql) e
      else e
  | None => e
  end.

Definition _read (e : t) : t :=
  if _paused e || _reading e || _ended e then e
  else set_reading false (pluck (check_drained (emit_one (set_reading true e)))).

(** [write(c)] *)
Definition write (e : t) (c : chunk) : completion bool :=
  if _ending e then Throw "write() after end()" e
  else if is_zero (_remaining e) && negb error_listener then
    Throw "invalid bytes past eof" e
  else
    let e :=
      if is_zero (_remaining e)
      then emit (EmitError "invalid bytes past eof") e else e in
    let c :=
      if Js.gt (Z.of_nat (length c)) (ToNumber (_remaining e))
      then slice0 c (ToNumber (_remaining e)) else c in
    let e :=
      set_remaining
        (Some (Js.VNumber (Js.sub (ToNumber (_remaining e)) (Z.of_nat (length c)))))
        e in
    let ql := _queueLen e in
    let e := set_queue (_queue e ++ [c]) (_index e) (S (_queueLen e)) e in
    let e := _read e in
    if _paused e || (0 <? ql)%nat then Normal false (set_needDrain true e)
    else Normal true e.

(** [end(c)]; a chunk that is given is a [Buffer], which is truthy. *)
Definition end_ (e : t) (c : option chunk) : completion unit :=
  match
    match c with
    | Some c => write e c
    | None => Normal true e
    end
  with
  | Throw msg e => Throw msg e
  | Normal _ e => Normal tt (_read (set_ending true e))
  end.

(** [pause()] *)
Definition pause (e : t) : t := emit EmitPause (set_paused true e).

(** [resume()] *)
Definition resume (e : t) : bool * t :=
  let e := emit EmitResume e in
  let e := set_paused false e in
  let e := _read e in
  (Z.of_nat (_queueLen e) - Z.of_nat (_index e) >? 1, e).

(** The first loop of [_setProps]: the fields of the header. *)
Definition from_header (header props : object) : object :=
  foldl
    (fun props field =>
       match header !! field with
       | Some val => <[field := val]> props
       | None => props
       end)
    props fields.

(** [Object.keys(p).forEach(f => ... props[f] = p[f])] *)
Definition overlay (p props : object) : object :=
  map_fold (fun f val props => <[f := val]> props) props p.

(** The value of field [f] at a layer: the layer's own when it is
    defined, the one from below otherwise. *)
Definition inherit (layer : object) (f : string) (below : option Js.value)
  : option Js.value :=
  match layer !! f with
  | Some val => Some val
  | None => below
  end.

(** [new Date(val * 1000)] *)
Definition date_of (val : Js.value) : Js.value :=
  Js.VDate (Js.mul (ToNumber (Some val)) 1000).

Definition date_fields : list string := ["mtime"; "ctime"; "atime"]%string.

(** [props[p] = new Date(props[p] * 1000)] for the date fields present. *)
Definition to_dates (props : object) : object :=
  foldl
    (fun props p =>
       match props !! p with
       | Some val => <[p := date_of val]> props
       | None => props
       end)
    props date_fields.

(** The three layers merged into [props], before the dates are
    converted. *)
Definition merged (e : t) : object :=
  foldl (fun props p => overlay p props) (from_header (_header e) (props e))
    [_global e; _extended e].

(** [_setProps()] *)
Definition _setProps (e : t) : t :=
  let props := to_dates (merged e) in
  let ty := classify (types (props !! "type"%string)) in
  set_remaining (props !! "size"%string)
    (set_props props (Some ty) (props !! "path"%string) e).

(** [new Entry(header, extended, global)].  The callback that copies
    [global] is a plain function: its [this] is not the entry, and
    [this._global] is [undefined] there, so the copy of a [global] with
    at least one key throws a [TypeError]; the entry's own [_global]
    stays empty.  [fresh] is the entry as the constructor has set it up
    when it calls [_setProps]. *)
Definition fresh (header : object) (extended : option object) : t :=
  mk false false false false false (Some (Js.VNumber (Js.Num 0))) [] 0 0
    ∅ header (default ∅ extended) ∅ None None [].

Definition Entry (header : object) (extended global : option object)
  : string + t :=
  if bool_decide (default ∅ global = ∅)
  then inr (_setProps (fresh header extended))
  else inl "TypeError: Cannot set properties of undefined"%string.

(** *** Calls made on an entry *)

Inductive call :=
| CallWrite (c : chunk)
| CallEnd (c : option chunk)
| CallPause
| CallResume.

(** The entry after one call, whether the call returned or threw. *)
Definition after (e : t) (op : call) : t :=
  match op with
  | CallWrite c => state_of (write e c)
  | CallEnd c => state_of (end_ e c)
  | CallPause => pause e
  | CallResume => (resume e).2
  end.

Definition run (e : t) (ops : list call) : t := foldl after e ops.

End Entry.

(** The counter a construction leaves, or the error it threw. *)
Definition remaining_after (r : string + t) : string + option Js.value :=
  match r with
  | inl msg => inl msg
  | inr e => inr (_remaining e)
  end.

(** The bytes of the chunks delivered in [data] events. *)
Fixpoint delivered (evs : list event) : nat :=
  match evs with
  | [] => 0
  | EmitData (Some c) :: rest => length c + delivered rest
  | _ :: rest => delivered rest
  end.

(** The chunks queued and not yet delivered, and their bytes. *)
Definition undelivered (e : t) : list chunk := drop (_index e) (_queue e).

(** The queue is in order: [_queueLen] is the length of [_queue] and
    [_index] is inside it. *)
Definition queue_ok (e : t) : Prop :=
  _queueLen e = length (_queue e) /\ (_index e <= _queueLen e)%nat.

Definition pending (e : t) : nat := foldr (fun c n => (length c + n)%nat) 0%nat (undelivered e).

End Entry.

(** ** A sample entry *)

Module EntrySamples.

(** The names of the ustar header fields, as [tar.fields] lists them. *)
Definition fields : list string :=
  ["path"; "mode"; "uid"; "gid"; "size"; "mtime"; "cksum"; "type";
   "linkpath"; "ustar"; "ustarver"; "uname"; "gname"; "devmaj"; "devmin";
   "prefix"; "fill"]%string.

(** A few rows of [tar.types]. *)
Definition types (key : option Js.value) : option string :=
  match key with
  | Some (Js.VString "0") => Some "File"
  | Some (Js.VString "5") => Some "Directory"
  | Some (Js.VString "7") => Some "ContiguousFile"
  | Some (Js.VString "x") => Some "ExtendedHeader"
  | _ => None
  end%string.

(** No string of the samples is a numeral. *)
Definition ToNumber_string (s : string) : Js.number := Js.NaN.

Definition header : gmap string Js.value :=
  {[ "path"%string := Js.VString "a.txt";
     "size"%string := Js.VNumber (Js.Num 4);
     "mtime"%string := Js.VNumber (Js.Num 1);
     "type"%string := Js.VString "0" ]}.

(** A header that declares no size. *)
Definition header_without_size : gmap string Js.value :=
  {[ "path"%string := Js.VString "a.txt"; "type"%string := Js.VString "0" ]}.

(** A pax global header that sets the size. *)
Definition global_size : gmap string Js.value :=
  {[ "size"%string := Js.VNumber (Js.Num 7) ]}.

Definition new_Entry (header : gmap string Js.value)
  (extended global : option (gmap string Js.value)) : string + Entry.t :=
  Entry.Entry fields types ToNumber_string header extended global.

(** The entry [new Entry(header)] gives. *)
Definition entry : Entry.t :=
  Entry._setProps fields types ToNumber_string (Entry.fresh header None).

(** The sample entry paused and written two chunks of one byte each. *)
Definition paused_with_two_chunks : Entry.t :=
  Entry.run ToNumber_string None true entry
    [Entry.CallPause; Entry.CallWrite [1]; Entry.CallWrite [2]].

(** Calls that offer the sample entry, which declares four bytes, seven
    bytes and then end it. *)
Definition calls : list Entry.call :=
  [Entry.CallWrite [1; 2; 3]; Entry.CallPause; Entry.CallWrite [4; 5; 6];
   Entry.CallWrite [7]; Entry.CallResume; Entry.CallEnd None].

End EntrySamples.

(** ** Invariants of the scans, the filter and the stream *)

(** [buf] is still zero from [b] on: nothing was stored there since
    [Buffer.alloc]. *)
Definition zeros_from (b : nat) (buf : list Z) : Prop :=
  forall i, (b <= i < length buf)%nat -> buf !! i = Some 0.

(** From this request on, [getPos] ends with [r] whenever it is given at
    least [n] reads. *)
Definition async_yields (st_size : N) (pread : Z -> nat -> Replace.read_result)
  (decode : list Z -> Header.t) (n : nat) (c : Replace.closure)
  (e : Replace.effects) (offset len : nat) (pos : Z)
  (r : Replace.outcome * Replace.effects) : Prop :=
  forall fuel, (n <= fuel)%nat ->
    Replace.getPos_loop st_size pread decode fuel c e offset len pos = Some r.

(** What [getPos] does once [headBuf] holds the whole block at
    [position]. *)
Definition block_yields (st_size : N) (pread : Z -> nat -> Replace.read_result)
  (decode : list Z -> Header.t) (n : nat) (position : Z) (buf : list Z)
  (e : Replace.effects) (r : Replace.outcome * Replace.effects) : Prop :=
  match Replace.onread st_size decode (Replace.mk_closure position 512 buf) e 0 with
  | (Replace.Cb o, _, e') => r = (o, e')
  | (Replace.Read offset len pos, c, e') =>
      async_yields st_size pread decode n c e' offset len pos r
  end.

(** The first [b] bytes of the buffer are those of the file. *)
Definition holds_prefix (content buf : list Z) (b : nat) : Prop :=
  forall i, (i < b)%nat -> buf !! i = content !! i.

(** The memo map is sound: it binds every requested path, and what it
    binds below the root is what the specification says. *)
Definition memo_ok (requested : list string) (m : gmap string bool) : Prop :=
  (forall p, p ∈ requested -> is_Some (m !! p))
  /\ (forall p b, m !! p = Some b -> p <> Filter.root_of p ->
      b = Filter.included_spec requested p).

(** The bytes that entered the queue: delivered, or still waiting. *)
Definition flow (e : Entry.t) : nat :=
  (Entry.delivered (Entry.emitted e) + Entry.pending e)%nat.

(** What a step of the stream leaves as it was. *)
Definition keeps (e e' : Entry.t) : Prop :=
  Entry.queue_ok e'
  /\ flow e' = flow e
  /\ Entry._remaining e' = Entry._remaining e
  /\ Entry._paused e' = Entry._paused e
  /\ Entry._ending e' = Entry._ending e.

(** The bound on the stream: the counter is a number that is not negative, and
    it went down by exactly the bytes that entered the queue. *)
Definition within (n : Z) (e : Entry.t) : Prop :=
  Entry.queue_ok e
  /\ exists r,
      Entry._remaining e = Some (Js.VNumber (Js.Num r))
      /\ 0 <= r
      /\ r + Z.of_nat (flow e) = n.

(** ** Listing an archive ([filesFilter], [listFileSync], list.ts) *)

Module Listing.

(** Successive calls of the predicate [filesFilter] leaves in
    [opt.filter], on one filter instance: the caller's own filter (when
    there was one) is asked first, and the memo map a call leaves is the
    one the next call sees.  The result is the final map and the
    answers. *)
Fixpoint filtered (user : option (string -> bool)) (map : gmap string bool)
  (paths : list string) : option (gmap string bool * list bool) :=
  match paths with
  | [] => Some (map, [])
  | p :: rest =>
      r ← Filter.filter user map p;
      rs ← filtered user r.1 rest;
      Some (rs.1, r.2 :: rs.2)
  end.

(** What the caller's filter says; without one, nothing is held back. *)
Definition admits (user : option (string -> bool)) (file : string) : bool :=
  match user with
  | Some f => f file
  | None => true
  end.

(** What [listFileSync] hands to the parser ([p.write(chunk)],
    [p.end(chunk)], [p.end()]), and the calls it makes on [fs]. *)
Inductive parser_call :=
| ParserWrite (chunk : list Z)
| ParserEnd (chunk : option (list Z)).

Inductive fs_call :=
| StatSync
| ReadFileSync
| OpenSync (ok : bool)
| ReadSync (position : Z) (len : N)
| CloseSync.

(** A finished [listFileSync]: the error it threw, if any, the calls
    made on the parser and the calls made on [fs], oldest first. *)
Record result := mk_result {
  thrown : option string;
  parser : list parser_call;
  fs : list fs_call
}.

Definition parse (c : parser_call) (r : result) : result :=
  mk_result (thrown r) (parser r ++ [c]) (fs r).

Definition log (c : fs_call) (r : result) : result :=
  mk_result (thrown r) (parser r) (fs r ++ [c]).

Definition throw (er : string) (r : result) : result :=
  mk_result (Some er) (parser r) (fs r).

(** The bytes handed to the parser, in the order of the calls. *)
Definition chunk_of (c : parser_call) : list Z :=
  match c with
  | ParserWrite chunk => chunk
  | ParserEnd (Some chunk) => chunk
  | ParserEnd None => []
  end.

Definition fed (calls : list parser_call) : list Z :=
  concat (chunk_of <$> calls).

Definition is_read (c : fs_call) : Prop :=
  match c with
  | ReadSync _ _ => True
  | _ => False
  end.

Definition is_write (c : parser_call) : Prop :=
  match c with
  | ParserWrite _ => True
  | ParserEnd _ => False
  end.

(** A [p.write] of at least one byte and at most [n]. *)
Definition writes_upto (n : N) (c : parser_call) : Prop :=
  match c with
  | ParserWrite chunk => (0 < length chunk <= N.to_nat n)%nat
  | ParserEnd _ => False
  end.

Section ListFileSync.

(** What [fs] answers for the archive: [statSync(file).size] or the
    error thrown, the bytes [readFileSync(file)] returns, whether
    [openSync(file, 'r')] succeeds, and the bytes a
    [readSync(fd, buf, 0, length, position)] obtains.  [maxReadSize] is
    [opt.maxReadSize].  The parser consumes a chunk when it is written
    ([buf.subarray(0, bytesRead)] is a view of the buffer the next read
    overwrites), and its calls return. *)
Variable statSync : string + N.
Variable readFileSync : string + list Z.
Variable openSync : string + unit.
Variable readSync : Z -> N -> Replace.read_result.
Variable maxReadSize : option N.

(** [opt.maxReadSize || 16 * 1024 * 1024] *)
Definition readSize : N :=
  match maxReadSize with
  | Some n => if (n =? 0)%N then 16777216%N else n
  | None => 16777216%N
  end.

(** [finally { if (typeof fd === 'number') fs.closeSync(fd) }] once the
    descriptor is open; an error of [closeSync] is swallowed. *)
Definition finally (r : result) : result := log CloseSync r.

(** [while (pos < stat.size) { ... }] and the [p.end()] after it.  The
    source does not bound the loop: [None] is fuel exhaustion. *)
Fixpoint read_loop (fuel : nat) (size : N) (pos : Z) (r : result)
  : option result :=
  if pos <? Z.of_N size then
    match fuel with
    | O => None
    | S fuel' =>
        let r := log (ReadSync pos readSize) r in
        match readSync pos readSize with
        | Replace.ReadError er => Some (finally (throw er r))
        | Replace.ReadData data =>
            let got := take (N.to_nat readSize) data in
            read_loop fuel' size (pos + Z.of_nat (length got))
              (parse (ParserWrite got) r)
        end
    end
  else Some (finally (parse (ParserEnd None) r)).

(** [listFileSync(opt)] *)
Definition listFileSync (fuel : nat) : option result :=
  match statSync with
  | inl er => Some (mk_result (Some er) [] [StatSync])
  | inr size =>
      if (size <? readSize)%N then
        match readFileSync with
        | inl er => Some (mk_result (Some er) [] [StatSync; ReadFileSync])
        | inr data =>
            Some (mk_result None [ParserEnd (Some data)]
                    [StatSync; ReadFileSync])
        end
      else
        match openSync with
        | inl er => Some (mk_result (Some er) [] [StatSync; OpenSync false])
        | inr _ =>
            read_loop fuel size 0 (mk_result None [] [StatSync; OpenSync true])
        end
  end.

End ListFileSync.

(** A regular file holding [content], read with [readSync]: a read
    returns bytes of the file from the position on, possibly fewer than
    asked for, and at least one unless the position is at or past the
    end or nothing was asked for. *)
Definition reads_file (content : list Z)
  (readSync : Z -> N -> Replace.read_result) : Prop :=
  forall (pos : Z) (len : N), 0 <= pos ->
    exists n : nat,
      readSync pos len
      = Replace.ReadData (take n (drop (Z.to_nat pos) content))
      /\ ((0 < len)%N -> (Z.to_nat pos < length content)%nat -> (0 < n)%nat).

(** Such a file, each read cut to [chunk] bytes. *)
Definition file_read (content : list Z) (chunk : nat) (position : Z)
  (len : N) : Replace.read_result :=
  if position <? 0 then Replace.ReadError "EINVAL"
  else Replace.ReadData
         (take (Nat.min (N.to_nat len) chunk)
            (drop (Z.to_nat position) content)).

End Listing.

(** ** The append command around the scan ([replaceSync], [replaceAsync],
    [addFilesSync], [addFilesAsync], list.ts) *)

Module Append.

(** The calls made on [fs] around the scan, oldest first.  A descriptor
    is a number; [Close None] is [fs.closeSync(undefined)].  The reads
    of the scan, made between [Fstat] and what follows it, are listed in
    the scan's effects. *)
Inductive fs_call :=
| Open (flags : string)
| Fstat (fd : nat)
| Close (fd : option nat).

(** How the command leaves the scan phase: it fails ([throw er] in
    blocking mode, [reject(er)] in cooperative mode, where [er] can be
    missing), or it creates the write stream on the descriptor at the
    offset the scan gave and goes on to add the files. *)
Inductive ending :=
| Failed (er : option string)
| Streaming (fd : nat) (start : Z).

(** Two runs end alike when both fail, or both stream to the same
    descriptor from the same offset. *)
Definition same_ending (a b : ending) : Prop :=
  match a, b with
  | Failed _, Failed _ => True
  | Streaming fd start, Streaming fd' start' => fd = fd' /\ start = start'
  | _, _ => False
  end.

Definition run : Type := ending * list fs_call * Replace.effects.

Section Replace.

(** What [fs] answers: opening [opt.file] with the given flags gives a
    descriptor or fails with an error code; [fstat] gives the size or
    fails; the reads on a descriptor are as in the scan.  An error of
    [close] is ignored by both modes. *)
Variable open : string -> string + nat.
Variable fstat : nat -> string + N.
Variable pread : nat -> Z -> nat -> Replace.read_result.
Variable decode : Replace.Buffer -> Header.t.

(** The inner [try] of [replaceSync]: ['r+'] first, ['w+'] when that
    failed with [ENOENT]. *)
Definition openSync : (string + nat) * list fs_call :=
  match open "r+" with
  | inr fd => (inr fd, [Open "r+"])
  | inl code =>
      if String.eqb code "ENOENT" then (open "w+", [Open "r+"; Open "w+"])
      else (inl code, [Open "r+"])
  end.

(** [replaceSync(opt, files)] up to the call of [streamSync]; the
    [finally] closes the descriptor when [threw] is still set. *)
Definition replaceSync (fuel : nat) (cache : option (gmap string Z))
  : option run :=
  match openSync with
  | (inl er, calls) =>
      Some (Failed (Some er), calls ++ [Close None],
            Replace.mk_effects cache [])
  | (inr fd, calls) =>
      match fstat fd with
      | inl er =>
          Some (Failed (Some er), calls ++ [Fstat fd; Close (Some fd)],
                Replace.mk_effects cache [])
      | inr size =>
          match Replace.replaceSync_scan size (pread fd) decode fuel cache with
          | None => None
          | Some (Replace.Threw er, e) =>
              Some (Failed (Some er), calls ++ [Fstat fd; Close (Some fd)], e)
          | Some (Replace.Position position, e) =>
              Some (Streaming fd position, calls ++ [Fstat fd], e)
          end
      end
  end.

(** The two calls of [onopen] at most: the retry with ['w+'] happens
    when the first [fs.open] failed with [ENOENT]. *)
Definition onopen : (string + nat) * list fs_call :=
  match open "r+" with
  | inl code =>
      if String.eqb code "ENOENT" then (open "w+", [Open "r+"; Open "w+"])
      else (inl code, [Open "r+"])
  | inr fd => (inr fd, [Open "r+"])
  end.

(** [replaceAsync(opt, files)] up to the creation of the write stream.
    [if (er || !fd) return reject(er)]: a descriptor 0 is rejected as
    well, with no error.  [getPos] closes the descriptor before it
    hands an error on. *)
Definition replaceAsync (fuel : nat) (cache : option (gmap string Z))
  : option run :=
  match onopen with
  | (inl er, calls) => Some (Failed (Some er), calls, Replace.mk_effects cache [])
  | (inr fd, calls) =>
      if (fd =? 0)%nat then
        Some (Failed None, calls, Replace.mk_effects cache [])
      else
        match fstat fd with
        | inl er =>
            Some (Failed (Some er), calls ++ [Fstat fd; Close (Some fd)],
                  Replace.mk_effects cache [])
        | inr size =>
            match Replace.getPos size (pread fd) decode fuel cache with
            | None => None
            | Some (Replace.Threw er, e) =>
                Some (Failed (Some er), calls ++ [Fstat fd; Close (Some fd)], e)
            | Some (Replace.Position position, e) =>
                Some (Streaming fd position, calls ++ [Fstat fd], e)
            end
        end
  end.

End Replace.

(** The descriptors a run closed, and those it obtained from [open]. *)
Definition closed (calls : list fs_call) : list nat :=
  omap (fun c => match c with Close fd => fd | _ => None end) calls.

Definition opened (open : string -> string + nat) (calls : list fs_call)
  : list nat :=
  omap (fun c =>
          match c with
          | Open flags =>
              match open flags with
              | inr fd => Some fd
              | inl _ => None
              end
          | _ => None
          end) calls.

(** Whether the run went on to the write stream. *)
Definition streams (r : ending) : bool :=
  match r with
  | Streaming _ _ => true
  | Failed _ => false
  end.

(** *** Adding the files *)

(** The calls made on the pack stream: [p.add(file)], [p.add(entry)]
    from the listing of a nested archive, [p.end()]. *)
Inductive pack_call (E : Type) :=
| Add (file : string)
| AddEntry (entry : E)
| End.

Arguments Add {E} file.
Arguments AddEntry {E} entry.
Arguments End {E}.

(** [file.charAt(0) === '@'] and [file.slice(1)] *)
Definition is_reference (file : string) : bool :=
  match file with
  | String c _ => Ascii.eqb c "@"
  | EmptyString => false
  end.

Definition slice1 (file : string) : string :=
  match file with
  | String _ rest => rest
  | EmptyString => EmptyString
  end.

Section AddFiles.

(** The entries of a nested archive are of type [E].  [resolve] is
    [path.resolve(p.cwd, _)]; [list_entries] is [list] on the archive at a
    path with [onentry: entry => p.add(entry)]: the entries handed to
    [onentry], in order, and the error the listing failed with after
    them, if any. *)
Variable E : Type.
Variable resolve : string -> string.
Variable list_entries : string -> list E * option string.

(** One turn of either loop: the calls it adds and the error that
    leaves the loop. *)
Definition add_one (file : string) (calls : list (pack_call E))
  : option string * list (pack_call E) :=
  if is_reference file then
    let r := list_entries (resolve (slice1 file)) in
    (r.2, calls ++ (AddEntry <$> r.1))
  else (None, calls ++ [Add file]).

(** [files.forEach(file => ...)]: an exception leaves the loop. *)
Fixpoint forEach (files : list string) (calls : list (pack_call E))
  : option string * list (pack_call E) :=
  match files with
  | [] => (None, calls)
  | file :: rest =>
      match add_one file calls with
      | (Some er, calls) => (Some er, calls)
      | (None, calls) => forEach rest calls
      end
  end.

(** [addFilesSync(p, files)] *)
Definition addFilesSync (files : list string)
  : option string * list (pack_call E) :=
  match forEach files [] with
  | (Some er, calls) => (Some er, calls)
  | (None, calls) => (None, calls ++ [End])
  end.

(** [for (let i = 0; i < files.length; i++)] of [addFilesAsync], one
    unit of fuel per turn; [String(files[i])] of an index past the end
    would be ["undefined"]. *)
Fixpoint for_loop (fuel : nat) (files : list string) (i : nat)
  (calls : list (pack_call E)) : option (option string * list (pack_call E)) :=
  if (i <? length files)%nat then
    match fuel with
    | O => None
    | S fuel' =>
        match add_one (default "undefined"%string (files !! i)) calls with
        | (Some er, calls) => Some (Some er, calls)
        | (None, calls) => for_loop fuel' files (S i) calls
        end
    end
  else Some (None, calls ++ [End]).

(** [addFilesAsync(p, files)] *)
Definition addFilesAsync (fuel : nat) (files : list string)
  : option (option string * list (pack_call E)) :=
  for_loop fuel files 0 [].

(** What one file contributes to the pack stream. *)
Definition contribution (file : string) : list (pack_call E) :=
  if is_reference file then AddEntry <$> (list_entries (resolve (slice1 file))).1
  else [Add file].

End AddFiles.

End Append.

(** ** The scan on whole blocks

    The decisions of the scan when every block is read in one piece:
    [block_at content position] is what a 512-byte read at [position]
    of a file holding [content] obtains.  The result is the outcome and
    the headers of the entries advanced past, first to last. *)

Module Blocks.

Definition block_at (content : list Z) (position : Z) : list Z :=
  take 512 (drop (Z.to_nat position) content).

Fixpoint locate (decode : list Z -> Header.t) (content : list Z)
  (fuel : nat) (position : Z) : option (Replace.outcome * list Header.t) :=
  if position <? Z.of_nat (length content) then
    match fuel with
    | O => None
    | S fuel' =>
        let block := block_at content position in
        if (position =? 0) && Replace.gzip_magic block then
          Some (Replace.Threw Replace.compressed_error, [])
        else if (length block <? 512)%nat then
          Some (Replace.Position position, [])
        else
          let h := decode block in
          if negb (Header.cksumValid h) then
            Some (Replace.Position position, [])
          else
            let entryBlockSize := Replace.entryBlockSize_sync h in
            if position + entryBlockSize + 512 >? Z.of_nat (length content)
            then Some (Replace.Position position, [])
            else
              r ← locate decode content fuel' (position + entryBlockSize + 512);
              Some (r.1, h :: r.2)
    end
  else Some (Replace.Position position, []).

(** The cache with the mtimes of these entries recorded, in order. *)
Definition cached (cache : option (gmap string Z)) (passed : list Header.t)
  : option (gmap string Z) :=
  Replace.mtimeCache
    (foldl Replace.record_mtime (Replace.mk_effects cache []) passed).

(** A read that stays inside one 512-byte block that starts on a block
    boundary inside the file (a header block or any other). *)
Definition block_read (st_size : N) (r : Z * nat) : Prop :=
  exists p : Z,
    0 <= p < Z.of_N st_size /\ (512 | p)
    /\ p <= r.1 /\ r.1 + Z.of_nat r.2 <= p + 512.

(** The first [b] bytes of the buffer are those of the block at
    [position]. *)
Definition holds_block (content : list Z) (position : Z) (buf : list Z)
  (b : nat) : Prop :=
  forall i, (i < b)%nat -> buf !! i = content !! (Z.to_nat position + i)%nat.

End Blocks.

(** ** What a stream delivered *)

Module Delivery.

(** The chunks of the [data] events, oldest first. *)
Fixpoint data (evs : list Entry.event) : list (option (list Z)) :=
  match evs with
  | [] => []
  | Entry.EmitData c :: rest => c :: data rest
  | _ :: rest => data rest
  end.

(** Every chunk that entered the queue, in order: those delivered, then
    those still waiting. *)
Definition history (e : Entry.t) : list (option (list Z)) :=
  data (Entry.emitted e) ++ (Some <$> Entry.undelivered e).

(** A delivery attempt does nothing: [_paused || _reading || _ended]. *)
Definition stalled (e : Entry.t) : bool :=
  Entry._paused e || Entry._reading e || Entry._ended e.

(** The chunks the calls offered with [write(c)]. *)
Definition written (ops : list Entry.call) : list (list Z) :=
  omap (fun op => match op with Entry.CallWrite c => Some c | _ => None end)
    ops.

(** A call other than [end]. *)
Definition not_end (op : Entry.call) : bool :=
  match op with
  | Entry.CallEnd _ => false
  | _ => true
  end.

(** A call other than [resume]. *)
Definition not_resume (op : Entry.call) : bool :=
  match op with
  | Entry.CallResume => false
  | _ => true
  end.

(** An event that only reports [pause()] or [resume()]. *)
Definition quiet (ev : Entry.event) : bool :=
  match ev with
  | Entry.EmitPause | Entry.EmitResume => true
  | _ => false
  end.

(** The stream between two calls: the queue is in order, no delivery is
    under way, and a stream that has ended was asked to end and holds
    nothing. *)
Definition settled (e : Entry.t) : Prop :=
  Entry.queue_ok e
  /\ Entry._reading e = false
  /\ (Entry._ended e = true ->
      Entry._ending e = true /\ Entry._queue e = [] /\ Entry._queueLen e = 0%nat).

(** The events of a stream that has not ended hold no [end]; those of
    one that has hold exactly one, after every [data], [drain] and
    [error]. *)
Definition ends_once (e : Entry.t) : Prop :=
  if Entry._ended e then
    exists before after,
      Entry.emitted e = before ++ Entry.EmitEnd :: after
      /\ (Entry.EmitEnd ∉ before)
      /\ forallb quiet after = true
  else Entry.EmitEnd ∉ Entry.emitted e.

End Delivery.

(** Unfolds the setters and the fields of an entry. *)
Ltac entry_simpl :=
  cbv [Entry.set_needDrain Entry.set_paused Entry.set_reading
       Entry.set_ending Entry.set_ended Entry.set_remaining Entry.set_queue
       Entry.set_props Entry.emit Entry.undelivered Entry.queue_ok
       Entry._needDrain Entry._paused Entry._reading Entry._ending
       Entry._ended Entry._remaining Entry._queue Entry._index
       Entry._queueLen Entry.props Entry._header Entry._extended
       Entry._global Entry.type Entry.path Entry.emitted] in *.

(** ** A header that declares a negative size

    The scans add [512 * ceil(size / 512) + 512] to their position
    whatever the sign of the size the header declares.  A negative size
    can take them back to a position already visited. *)

Module Backward.

(** A file of four blocks: the first starts with the bytes [1f 00], the
    last with [1f 8b]; every other byte is zero. *)
Definition content : list Z :=
  31 :: replicate 1535 0 ++ 31 :: 139 :: replicate 510 0.

(** A decoder that finds every block valid and reads the size off the
    second byte: [-2048] after [8b], [1024] otherwise. *)
Definition decode (buf : list Z) : Header.t :=
  Header.mk true
    (Some (if Replace.byte_is buf 1 139 then -2048 else 1024)) None None.

(** The reads of the file: a read at position 0 obtains one byte, every
    other read all the bytes asked for. *)
Definition pread (position : Z) (len : nat) : Replace.read_result :=
  Replace.file_read content (if position =? 0 then 1 else 512) position len.

End Backward.

Example dirname_nested : Path.dirname "a/b/c/d" = "a/b/c"%string.
Proof. reflexivity. Qed.

Example dirname_plain : Path.dirname "a" = "."%string.
Proof. reflexivity. Qed.

Example dirname_top : Path.dirname "/a" = "/"%string.
Proof. reflexivity. Qed.

Example dirname_double : Path.dirname "a//b" = "a/"%string.
Proof. reflexivity. Qed.

Example dirname_trailing : Path.dirname "a/b/" = "a"%string.
Proof. reflexivity. Qed.

Example dirname_slashes : Path.dirname "//a" = "//"%string.
Proof. reflexivity. Qed.

Example probe_demo :
  Filter.probes (Filter.initial_map ["a/b/"%string])
    ["a/b/c/d"; "a/x"; "a"; "a/b/c"; "."]%string
  = Some [true; false; false; true; false].
Proof. vm_compute. reflexivity. Qed.

(** ** Facts about paths *)

Section PathFacts.

Lemma length_substring0 (s : string) (e : nat) :
  (e <= String.length s)%nat -> String.length (String.substring 0 e s) = e.
Proof.
  revert e. induction s as [|c s IH]; intros [|e] He; simpl in *;
    try lia; try reflexivity.
  rewrite IH; lia.
Qed.

Lemma get0_substring (s : string) (e : nat) :
  (1 <= e)%nat -> String.get 0 (String.substring 0 e s) = String.get 0 s.
Proof. destruct s, e; simpl; intros; try lia; reflexivity. Qed.

Lemma dirname_end_bound (p : string) (i : nat) (m : bool) (e : nat) :
  Path.dirname_end p i m = Some e -> (1 <= e <= i)%nat.
Proof.
  revert m. induction i as [|i IH]; intros m; simpl; [discriminate|].
  destruct (Path.is_slash _).
  - destruct m.
    + intros H. apply IH in H. lia.
    + intros [= <-]. lia.
  - intros H. apply IH in H. lia.
Qed.

(** Started after a run of separators, the scan ends strictly below its
    starting index. *)
Lemma dirname_end_below (p : string) (i e : nat) :
  Path.dirname_end p i true = Some e -> (e < i)%nat.
Proof.
  destruct i as [|i]; simpl; [discriminate|].
  destruct (Path.is_slash _); intros H; apply dirname_end_bound in H; lia.
Qed.

Lemma root_of_cases (p : string) :
  Filter.root_of p = "/"%string \/ Filter.root_of p = "."%string.
Proof.
  unfold Filter.root_of, Path.parse_root.
  destruct (Path.is_slash _); [left | right]; reflexivity.
Qed.

Lemma root_of_root (p : string) :
  Filter.root_of (Filter.root_of p) = Filter.root_of p.
Proof. destruct (root_of_cases p) as [-> | ->]; reflexivity. Qed.

Lemma or_else_root (r file : string) :
  r = ""%string \/ r = Filter.root_of file ->
  Filter.or_else r (Filter.root_of file) = Filter.root_of file.
Proof.
  intros [-> | ->]; [reflexivity|].
  destruct (root_of_cases file) as [-> | ->]; reflexivity.
Qed.

(** [dirname] keeps a path absolute or relative. *)
Lemma root_of_dirname (p : string) :
  Filter.root_of (Path.dirname p) = Filter.root_of p.
Proof.
  unfold Path.dirname.
  destruct (String.length p) as [|n] eqn:Hlen.
  { destruct p; [reflexivity | discriminate]. }
  destruct (Path.dirname_end p n true) as [e|] eqn:He.
  - destruct (Path.is_slash (Path.charAt p 0)) eqn:Hroot; simpl.
    + destruct (Nat.eqb e 1).
      * unfold Filter.root_of, Path.parse_root. rewrite Hroot. reflexivity.
      * apply dirname_end_bound in He.
        unfold Filter.root_of, Path.parse_root, Path.charAt in *.
        rewrite get0_substring by lia. reflexivity.
    + apply dirname_end_bound in He.
      unfold Filter.root_of, Path.parse_root, Path.charAt in *.
      rewrite get0_substring by lia. reflexivity.
  - unfold Filter.root_of, Path.parse_root.
    destruct (Path.is_slash (Path.charAt p 0)); reflexivity.
Qed.

(** One step up either reaches the root or gives a shorter path: the
    walk of [mapHas] ends. *)
Lemma dirname_shrinks (p : string) :
  Path.dirname p = Filter.root_of p
  \/ (String.length (Path.dirname p) < String.length p)%nat.
Proof.
  unfold Path.dirname.
  destruct (String.length p) as [|n] eqn:Hlen.
  { left. destruct p; [reflexivity | discriminate]. }
  destruct (Path.dirname_end p n true) as [e|] eqn:He.
  - right. apply dirname_end_below in He.
    destruct (Path.is_slash (Path.charAt p 0) && Nat.eqb e 1) eqn:Hc.
    + apply andb_true_iff in Hc as [_ He1]. apply Nat.eqb_eq in He1.
      simpl. lia.
    + rewrite length_substring0; lia.
  - left. unfold Filter.root_of, Path.parse_root.
    destruct (Path.is_slash (Path.charAt p 0)); reflexivity.
Qed.

End PathFacts.

(** ** The filter against its specification *)

Section FilterFacts.

Variable requested : list string.

Local Abbreviation memo_ok := (memo_ok requested).

Lemma ancestors_root (fuel : nat) (root : string) :
  Filter.ancestors fuel root root = [].
Proof. destruct fuel; simpl; rewrite String.eqb_refl; reflexivity. Qed.

(** Past [length path] steps the list of ancestors no longer depends on
    the fuel. *)
Lemma ancestors_enough (f1 f2 : nat) (p : string) :
  (String.length p < f1)%nat -> (String.length p < f2)%nat ->
  Filter.ancestors f1 (Filter.root_of p) p
  = Filter.ancestors f2 (Filter.root_of p) p.
Proof.
  revert f2 p. induction f1 as [|f1 IH]; intros f2 p H1 H2; [lia|].
  destruct f2 as [|f2]; [lia|]. simpl.
  destruct (String.eqb p (Filter.root_of p)); [reflexivity|].
  f_equal.
  destruct (dirname_shrinks p) as [Hr | Hlt].
  - rewrite Hr, !ancestors_root. reflexivity.
  - rewrite <- (root_of_dirname p). apply IH; lia.
Qed.

Lemma included_spec_root (p : string) :
  p = Filter.root_of p -> Filter.included_spec requested p = false.
Proof.
  intros Hp. unfold Filter.included_spec. rewrite <- Hp.
  rewrite ancestors_root. reflexivity.
Qed.

Lemma included_spec_step (p : string) :
  p <> Filter.root_of p ->
  Filter.included_spec requested p
  = bool_decide (p ∈ requested)
    || Filter.included_spec requested (Path.dirname p).
Proof.
  intros Hp. unfold Filter.included_spec. simpl.
  apply String.eqb_neq in Hp. rewrite Hp. simpl. f_equal.
  rewrite (root_of_dirname p).
  destruct (dirname_shrinks p) as [Hr | Hlt].
  - rewrite Hr.
    destruct (String.length p);
      destruct (String.length (Filter.root_of p));
      simpl; rewrite ?String.eqb_refl; reflexivity.
  - f_equal. rewrite <- (root_of_dirname p).
    change (Filter.ancestors (String.length p) (Filter.root_of (Path.dirname p))
              (Path.dirname p)
            = Filter.ancestors (S (String.length (Path.dirname p)))
                (Filter.root_of (Path.dirname p)) (Path.dirname p)).
    apply ancestors_enough; lia.
Qed.

Lemma memo_ok_set (m : gmap string bool) (file : string) (b : bool) :
  memo_ok m ->
  (file <> Filter.root_of file -> b = Filter.included_spec requested file) ->
  memo_ok (<[file := b]> m).
Proof.
  intros [Hdom Hval] Hb. split.
  - intros p Hp. destruct (decide (file = p)) as [-> | Hne].
    + rewrite lookup_insert_eq. eauto.
    + rewrite lookup_insert_ne by done. auto.
  - intros p b'. destruct (decide (file = p)) as [-> | Hne].
    + rewrite lookup_insert_eq. intros [= <-]. exact Hb.
    + rewrite lookup_insert_ne by done. apply Hval.
Qed.

Lemma mapHas_eq (fuel : nat) (m : gmap string bool) (file r : string) :
  Filter.mapHas fuel m file r
  = (let root := Filter.or_else r (Filter.root_of file) in
     res ← (if String.eqb file root then Some (m, false)
            else
              match m !! file with
              | Some b => Some (m, b)
              | None =>
                  match fuel with
                  | O => None
                  | S fuel' => Filter.mapHas fuel' m (Path.dirname file) root
                  end
              end);
     Some (<[file := res.2]> res.1, res.2)).
Proof. destruct fuel; reflexivity. Qed.

(** [mapHas] returns what the specification says and keeps the memo
    sound, whatever was memoised before. *)
Lemma mapHas_ok (fuel : nat) :
  forall (m : gmap string bool) (file r : string),
    memo_ok m ->
    r = ""%string \/ r = Filter.root_of file ->
    (String.length file < fuel)%nat \/ file = Filter.root_of file ->
    exists m',
      Filter.mapHas fuel m file r
      = Some (m', Filter.included_spec requested file)
      /\ memo_ok m'.
Proof.
  induction fuel as [|fuel IH]; intros m file r Hm Hr Hfuel;
    rewrite mapHas_eq; cbv zeta; rewrite (or_else_root r file Hr);
    destruct (String.eqb_spec file (Filter.root_of file)) as [Hroot | Hne];
    try (simpl; rewrite (included_spec_root file Hroot);
         eexists; split; [reflexivity|];
         apply memo_ok_set; [assumption | congruence]).
  - (* no fuel is needed at the root, and below it there is some *)
    destruct Hfuel as [Hlt | Hroot]; [lia | congruence].
  - destruct Hfuel as [Hlt | Hroot]; [|congruence].
    destruct (m !! file) as [b|] eqn:Hlook.
    + (* a requested path, or one memoised by an earlier probe *)
      simpl. destruct Hm as [Hdom Hval].
      rewrite <- (Hval file b Hlook Hne).
      eexists; split; [reflexivity|].
      apply memo_ok_set; [split; assumption | intros _; eauto].
    + (* one step up *)
      destruct (IH m (Path.dirname file) (Filter.root_of file) Hm)
        as (m1 & Hrun & Hm1).
      { right. symmetry. apply root_of_dirname. }
      { destruct (dirname_shrinks file) as [Hd | Hd].
        - right. rewrite root_of_dirname. exact Hd.
        - left. lia. }
      rewrite Hrun. simpl.
      assert (Hspec : Filter.included_spec requested file
                      = Filter.included_spec requested (Path.dirname file)).
      { rewrite (included_spec_step file Hne).
        rewrite bool_decide_eq_false_2; [reflexivity|].
        intros Hin. destruct Hm as [Hdom _].
        destruct (Hdom file Hin) as [b Hb]. congruence. }
      rewrite <- Hspec.
      eexists; split; [reflexivity|].
      apply memo_ok_set; [assumption | intros _; reflexivity].
Qed.

Lemma included_ok (m : gmap string bool) (file : string) :
  memo_ok m ->
  exists m',
    Filter.included m file = Some (m', Filter.included_spec requested file)
    /\ memo_ok m'.
Proof.
  intros Hm. apply mapHas_ok; [assumption | left; reflexivity | left; lia].
Qed.

Lemma probes_ok (paths : list string) :
  forall m, memo_ok m ->
    Filter.probes m paths
    = Some (List.map (Filter.included_spec requested) paths).
Proof.
  induction paths as [|p rest IH]; intros m Hm; simpl; [reflexivity|].
  destruct (included_ok m p Hm) as (m' & -> & Hm'). simpl.
  rewrite (IH m' Hm'). reflexivity.
Qed.

End FilterFacts.

Lemma initial_map_lookup (files : list string) (p : string) :
  Filter.initial_map files !! p
  = if bool_decide (p ∈ Filter.stripTrailingSlashes <$> files)
    then Some true else None.
Proof.
  unfold Filter.initial_map.
  assert (H : forall m0 : gmap string bool,
    foldl (fun m f => <[Filter.stripTrailingSlashes f := true]> m) m0 files !! p
    = if bool_decide (p ∈ Filter.stripTrailingSlashes <$> files)
      then Some true else m0 !! p).
  { induction files as [|f files IH]; intros m0.
    - reflexivity.
    - rewrite fmap_cons. cbn [foldl]. rewrite IH. destruct (decide (p = Filter.stripTrailingSlashes f)) as [-> | Hne].
      + rewrite lookup_insert_eq.
        rewrite (bool_decide_eq_true_2 (_ ∈ _ :: _)) by apply list_elem_of_here.
        destruct (bool_decide _); reflexivity.
      + rewrite lookup_insert_ne by done.
        destruct (bool_decide (p ∈ Filter.stripTrailingSlashes <$> files)) eqn:Hd.
        * apply bool_decide_eq_true in Hd.
          rewrite bool_decide_eq_true_2; [reflexivity|].
          apply list_elem_of_further; assumption.
        * apply bool_decide_eq_false in Hd.
          rewrite bool_decide_eq_false_2; [reflexivity|].
          intros Hin. apply elem_of_cons in Hin as [? | ?]; done. }
  rewrite H, lookup_empty. reflexivity.
Qed.

Lemma initial_map_ok (files : list string) :
  memo_ok (Filter.stripTrailingSlashes <$> files) (Filter.initial_map files).
Proof.
  split.
  - intros p Hp. rewrite initial_map_lookup, bool_decide_eq_true_2 by done.
    eauto.
  - intros p b. rewrite initial_map_lookup.
    destruct (bool_decide _) eqn:Hd; [|discriminate].
    intros [= <-] Hne. apply bool_decide_eq_true in Hd.
    rewrite included_spec_step by assumption.
    rewrite bool_decide_eq_true_2 by assumption. reflexivity.
Qed.

(** C8.  Whatever paths were requested and whatever sequence of paths is
    probed against one filter instance (each probe leaving its memo
    entries for the next), every probe terminates and answers what the
    inclusion rule says: true exactly when the path itself or one of its
    ancestors below the root is a requested path (trailing separators
    stripped).  A path that is its own root is never included.  With
    ["a/b"] requested, ["a/b/c/d"] is included and ["a/x"] and ["a"] are
    not. *)
Theorem C8_filter_includes_descendants_of_requested :
  (forall files paths : list string,
      Filter.probes (Filter.initial_map files) paths
      = Some (List.map
                (Filter.included_spec (Filter.stripTrailingSlashes <$> files))
                paths))
  /\ (forall (files : list string) (p : string),
        Filter.included_spec (Filter.stripTrailingSlashes <$> files) p = true
        <-> exists a,
            a ∈ Filter.ancestors (S (String.length p)) (Filter.root_of p) p
            /\ a ∈ Filter.stripTrailingSlashes <$> files)
  /\ (forall (files : list string) (p : string),
        p = Filter.root_of p ->
        Filter.probes (Filter.initial_map files) [p] = Some [false])
  /\ Filter.probes (Filter.initial_map ["a/b"%string])
       ["a/b/c/d"; "a/x"; "a"]%string
     = Some [true; false; false].
Proof.
  split; [|split; [|split]].
  - intros files paths. apply probes_ok, initial_map_ok.
  - intros files p. unfold Filter.included_spec.
    rewrite existsb_exists. split.
    + intros (a & Ha & Hd). apply bool_decide_eq_true in Hd.
      exists a. split; [apply list_elem_of_In; exact Ha | exact Hd].
    + intros (a & Ha & Hd). exists a.
      split; [apply list_elem_of_In; exact Ha | apply bool_decide_eq_true; exact Hd].
  - intros files p Hp.
    rewrite (probes_ok _ [p] _ (initial_map_ok files)). simpl.
    rewrite included_spec_root by assumption. reflexivity.
  - vm_compute. reflexivity.
Qed.

(** C8, as stated, fails when the root of the walk is requested.
    With ["."] requested, the walk upward from ["a"] or from ["./a/b"]
    ends at the root ["."], which is in the requested set, so the rule
    that walks up to and including the root includes both paths.  The
    filter answers [false] for both: it resolves the root to [false]
    without looking it up. *)
Lemma C8_requested_root_is_not_looked_up :
  Filter.ancestors_to_root 2 (Filter.root_of "a") "a" = ["a"; "."]%string
  /\ Filter.included_to_root (Filter.stripTrailingSlashes <$> ["."%string]) "a"
     = true
  /\ Filter.included_to_root (Filter.stripTrailingSlashes <$> ["."%string])
       "./a/b"
     = true
  /\ Filter.probes (Filter.initial_map ["."%string]) ["a"; "./a/b"]%string
     = Some [false; false].
Proof. vm_compute. repeat split; reflexivity. Qed.

(** The root of the walk is never looked up: with ["."] requested,
    nothing below it is included. *)
Example probe_with_dot_requested :
  Filter.probes (Filter.initial_map ["."%string]) ["a"; "./a"; "."]%string
  = Some [false; false; false].
Proof. vm_compute. reflexivity. Qed.

(** The caller's own filter and the requested paths must both accept. *)
Example filter_is_conjunction :
  snd <$> Filter.filter (Some (fun file => String.eqb file "a/b/c"))
            (Filter.initial_map ["a/b"%string]) "a/b/d"
  = Some false
  /\ snd <$> Filter.filter (Some (fun file => true))
               (Filter.initial_map ["a/b"%string]) "x/"
     = Some false
  /\ snd <$> Filter.filter (Some (fun file => true))
               (Filter.initial_map ["a/b"%string]) "a/b/d/"
     = Some true.
Proof. vm_compute. repeat split. Qed.

(** ** The append scan: buffers and reads *)

Section BufferFacts.

Implicit Types (buf : Replace.Buffer) (data : list Z).

Lemma length_alloc (n : nat) : length (Replace.alloc n) = n.
Proof. apply length_replicate. Qed.

Lemma length_blit buf (offset : nat) data :
  (offset + length data <= length buf)%nat ->
  length (Replace.blit buf offset data) = length buf.
Proof.
  intros H. unfold Replace.blit.
  rewrite !length_app, length_take, length_drop. lia.
Qed.

(** Storing bytes at [offset] leaves the bytes before it alone. *)
Lemma lookup_blit_lt buf (offset : nat) data (i : nat) :
  (i < offset)%nat -> (offset <= length buf)%nat ->
  Replace.blit buf offset data !! i = buf !! i.
Proof.
  intros Hi Hoff. unfold Replace.blit.
  rewrite lookup_app_l by (rewrite length_take; lia).
  apply lookup_take_lt; lia.
Qed.

Lemma lookup_blit_ge buf (offset : nat) data (i : nat) :
  (offset + length data <= i)%nat -> (offset <= length buf)%nat ->
  Replace.blit buf offset data !! i = buf !! i.
Proof.
  intros Hi Hoff. unfold Replace.blit.
  rewrite lookup_app_r by (rewrite length_take; lia).
  rewrite length_take.
  rewrite lookup_app_r by lia.
  rewrite lookup_drop. f_equal. lia.
Qed.

Lemma lookup_blit_data buf (offset : nat) data (i : nat) :
  (offset <= length buf)%nat -> (i < length data)%nat ->
  Replace.blit buf offset data !! (offset + i)%nat = data !! i.
Proof.
  intros Hoff Hi. unfold Replace.blit.
  rewrite lookup_app_r by (rewrite length_take; lia).
  rewrite length_take.
  rewrite lookup_app_l by lia.
  f_equal. lia.
Qed.

Lemma blit_nil buf (offset : nat) :
  Replace.blit buf offset [] = buf.
Proof.
  unfold Replace.blit. simpl. rewrite Nat.add_0_r. apply take_drop.
Qed.

(** The magic bytes stay once the buffer is filled past them. *)
Lemma gzip_magic_blit buf (offset : nat) data :
  (2 <= offset <= length buf)%nat ->
  Replace.gzip_magic (Replace.blit buf offset data) = Replace.gzip_magic buf.
Proof.
  intros H. unfold Replace.gzip_magic, Replace.byte_is.
  rewrite !lookup_blit_lt by lia. reflexivity.
Qed.

Lemma zeros_from_alloc (n : nat) : zeros_from 0 (Replace.alloc n).
Proof.
  intros i Hi. rewrite length_alloc in Hi.
  apply lookup_replicate_2. lia.
Qed.

Lemma zeros_from_blit buf (b : nat) data :
  (b + length data <= length buf)%nat ->
  zeros_from b buf ->
  zeros_from (b + length data) (Replace.blit buf b data).
Proof.
  intros Hlen Hz i Hi. rewrite length_blit in Hi by lia.
  rewrite lookup_blit_ge by lia. apply Hz. lia.
Qed.

Lemma gzip_magic_filled buf (b : nat) :
  (2 <= length buf)%nat -> zeros_from b buf ->
  Replace.gzip_magic buf = true -> (2 <= b)%nat.
Proof.
  intros Hlen Hz Hgz.
  destruct (le_lt_dec 2 b) as [|Hb]; [assumption|exfalso].
  unfold Replace.gzip_magic, Replace.byte_is in Hgz.
  rewrite (Hz 1%nat) in Hgz by lia.
  rewrite andb_comm in Hgz. discriminate.
Qed.

End BufferFacts.

Lemma entryBlockSize_same (h : Header.t) :
  Replace.entryBlockSize_sync h = Replace.entryBlockSize_async h.
Proof.
  unfold Replace.entryBlockSize_sync, Replace.entryBlockSize_async.
  destruct (Header.size h) as [n|]; [|reflexivity].
  destruct (Z.eqb_spec n 0) as [-> | _]; reflexivity.
Qed.

Lemma ceil512_nonneg (n : Z) : 0 <= n -> 0 <= Replace.ceil512 n.
Proof.
  intros Hn. unfold Replace.ceil512.
  assert (- n / 512 <= 0) by (apply Z.div_le_upper_bound; lia).
  lia.
Qed.

(** ** The two scans *)

Section ScanFacts.

Variable st_size : N.
Variable pread : Z -> nat -> Replace.read_result.
Variable decode : Replace.Buffer -> Header.t.

Local Abbreviation fs_read := (Replace.fs_read pread).
Local Abbreviation fill_sync := (Replace.fill_sync pread).
Local Abbreviation scan_sync := (Replace.scan_sync st_size pread decode).
Local Abbreviation onread := (Replace.onread st_size decode).
Local Abbreviation getPos_loop := (Replace.getPos_loop st_size pread decode).
Local Abbreviation async_yields := (async_yields st_size pread decode).
Local Abbreviation block_yields := (block_yields st_size pread decode).

Implicit Types (buf : Replace.Buffer) (e : Replace.effects)
  (c : Replace.closure).

Lemma fs_read_inr buf (offset len : nat) (pos : Z) buf' (n : nat) :
  fs_read buf offset len pos = inr (buf', n) ->
  exists data,
    pread pos len = Replace.ReadData data
    /\ buf' = Replace.blit buf offset (take len data)
    /\ n = length (take len data)
    /\ (n <= len)%nat.
Proof.
  unfold Replace.fs_read. destruct (pread pos len) as [er|data]; [discriminate|].
  intros [= <- <-]. exists data. repeat split.
  rewrite length_take. lia.
Qed.

Lemma fill_sync_eq (fuel : nat) (position : Z) buf (bufPos : nat) e :
  fill_sync fuel position buf bufPos e
  = if (bufPos <? 512)%nat then
      match fuel with
      | O => None
      | S fuel' =>
          let e := Replace.log_read e (position + Z.of_nat bufPos) (512 - bufPos) in
          match fs_read buf bufPos (512 - bufPos) (position + Z.of_nat bufPos) with
          | inl er => Some (Replace.FillThrew er, buf, e)
          | inr (buf, bytes) =>
              if (position =? 0) && Replace.gzip_magic buf then
                Some (Replace.FillThrew Replace.compressed_error, buf, e)
              else if (bytes =? 0)%nat then Some (Replace.FillBreak, buf, e)
              else fill_sync fuel' position buf (bufPos + bytes) e
          end
      end
    else Some (Replace.FillFull, buf, e).
Proof. destruct fuel; reflexivity. Qed.

Lemma scan_sync_eq (fuel : nat) (position : Z) buf e :
  scan_sync fuel position buf e
  = if position <? Z.of_N st_size then
      match fuel with
      | O => None
      | S fuel' =>
          match fill_sync 512 position buf 0 e with
          | None => None
          | Some (Replace.FillThrew er, _, e) => Some (Replace.Threw er, e)
          | Some (Replace.FillBreak, _, e) => Some (Replace.Position position, e)
          | Some (Replace.FillFull, buf, e) =>
              let h := decode buf in
              if negb (Header.cksumValid h) then Some (Replace.Position position, e)
              else
                if position + Replace.entryBlockSize_sync h + 512 >? Z.of_N st_size
                then Some (Replace.Position position, e)
                else
                  scan_sync fuel' (position + Replace.entryBlockSize_sync h + 512)
                    buf (Replace.record_mtime e h)
          end
      end
    else Some (Replace.Position position, e).
Proof. destruct fuel; reflexivity. Qed.

Lemma getPos_loop_S (fuel : nat) c e (offset len : nat) (pos : Z) :
  getPos_loop (S fuel) c e offset len pos
  = match fs_read (Replace.headBuf c) offset len pos with
    | inl er => Some (Replace.Threw er, Replace.log_read e pos len)
    | inr (buf, bytes) =>
        match onread (Replace.mk_closure (Replace.position c) (Replace.bufPos c) buf)
                (Replace.log_read e pos len) bytes with
        | (Replace.Cb r, _, e) => Some (r, e)
        | (Replace.Read offset len pos, c, e) =>
            getPos_loop fuel c e offset len pos
        end
    end.
Proof. reflexivity. Qed.

(** More fuel does not change a result. *)
Lemma getPos_loop_mono (fuel : nat) :
  forall (fuel' : nat) c e (offset len : nat) (pos : Z) r,
    getPos_loop fuel c e offset len pos = Some r ->
    (fuel <= fuel')%nat ->
    getPos_loop fuel' c e offset len pos = Some r.
Proof.
  induction fuel as [|fuel IH]; intros fuel' c e offset len pos r Hrun Hle;
    [discriminate|].
  destruct fuel' as [|fuel']; [lia|].
  rewrite getPos_loop_S in *.
  destruct (fs_read _ _ _ _) as [er | [buf bytes]]; [assumption|].
  destruct (onread _ _ _) as [[[r' | o l p] c'] e']; [assumption|].
  apply IH; [assumption | lia].
Qed.

Lemma getPos_mono (fuel fuel' : nat) (cache : option (gmap string Z)) r :
  Replace.getPos st_size pread decode fuel cache = Some r ->
  (fuel <= fuel')%nat ->
  Replace.getPos st_size pread decode fuel' cache = Some r.
Proof.
  unfold Replace.getPos. destruct (st_size =? 0)%N; [auto|].
  apply getPos_loop_mono.
Qed.

Lemma fill_sync_mono (fuel : nat) :
  forall (fuel' : nat) (position : Z) buf (bufPos : nat) e r,
    fill_sync fuel position buf bufPos e = Some r ->
    (fuel <= fuel')%nat ->
    fill_sync fuel' position buf bufPos e = Some r.
Proof.
  induction fuel as [|fuel IH]; intros fuel' position buf bufPos e r;
    rewrite (fill_sync_eq _ position), (fill_sync_eq fuel' position);
    destruct (bufPos <? 512)%nat; try discriminate; try (intros; assumption).
  intros Hrun Hle. destruct fuel' as [|fuel']; [lia|]. cbv zeta in *.
  destruct (fs_read _ _ _ _) as [er | [buf' bytes]]; [assumption|].
  destruct ((position =? 0) && Replace.gzip_magic buf'); [assumption|].
  destruct (bytes =? 0)%nat; [assumption|].
  apply IH; [assumption | lia].
Qed.

Lemma scan_sync_mono (fuel : nat) :
  forall (fuel' : nat) (position : Z) buf e r,
    scan_sync fuel position buf e = Some r ->
    (fuel <= fuel')%nat ->
    scan_sync fuel' position buf e = Some r.
Proof.
  induction fuel as [|fuel IH]; intros fuel' position buf e r;
    rewrite (scan_sync_eq _ position), (scan_sync_eq fuel' position);
    destruct (position <? Z.of_N st_size); try discriminate;
    try (intros; assumption).
  intros Hrun Hle. destruct fuel' as [|fuel']; [lia|].
  destruct (fill_sync 512 position buf 0 e) as [[[[er| |] buf'] e']|];
    try assumption.
  cbv zeta in *.
  destruct (negb _); [assumption|].
  destruct (_ >? _); [assumption|].
  apply IH; [assumption | lia].
Qed.

(** *** One block: the inner loop of [replaceSync] against the reads of
    [getPos] *)

Lemma async_yields_weaken (n n' : nat) c e (offset len : nat) (pos : Z) r :
  async_yields n c e offset len pos r -> (n <= n')%nat ->
  async_yields n' c e offset len pos r.
Proof. intros H Hle fuel Hfuel. apply H. lia. Qed.

Lemma async_step_err (position : Z) (bufPos : nat) buf e
  (offset len : nat) (pos : Z) (er : string) :
  fs_read buf offset len pos = inl er ->
  async_yields 1 (Replace.mk_closure position bufPos buf) e offset len pos
    (Replace.Threw er, Replace.log_read e pos len).
Proof.
  intros Hread [|fuel] Hfuel; [lia|].
  rewrite getPos_loop_S. simpl. rewrite Hread. reflexivity.
Qed.

Lemma async_step_cb (position : Z) (bufPos : nat) buf e
  (offset len : nat) (pos : Z) buf' (bytes : nat) o c' e' :
  fs_read buf offset len pos = inr (buf', bytes) ->
  onread (Replace.mk_closure position bufPos buf') (Replace.log_read e pos len) bytes
  = (Replace.Cb o, c', e') ->
  async_yields 1 (Replace.mk_closure position bufPos buf) e offset len pos (o, e').
Proof.
  intros Hread Hon [|fuel] Hfuel; [lia|].
  rewrite getPos_loop_S. simpl. rewrite Hread, Hon. reflexivity.
Qed.

Lemma async_step_read (n : nat) (position : Z) (bufPos : nat) buf e
  (offset len : nat) (pos : Z) buf' (bytes : nat)
  (offset' len' : nat) (pos' : Z) c' e' r :
  fs_read buf offset len pos = inr (buf', bytes) ->
  onread (Replace.mk_closure position bufPos buf') (Replace.log_read e pos len) bytes
  = (Replace.Read offset' len' pos', c', e') ->
  async_yields n c' e' offset' len' pos' r ->
  async_yields (S n) (Replace.mk_closure position bufPos buf) e offset len pos r.
Proof.
  intros Hread Hon Hrest [|fuel] Hfuel; [lia|].
  rewrite getPos_loop_S. simpl. rewrite Hread, Hon. apply Hrest. lia.
Qed.

(** While the block is still short and the read brought something,
    [onread] asks for the rest. *)
Lemma onread_more (position : Z) (bufPos : nat) buf e (bytes : nat) :
  (bufPos + bytes < 512)%nat -> bytes <> 0%nat ->
  onread (Replace.mk_closure position bufPos buf) e bytes
  = (Replace.Read (bufPos + bytes) (512 - (bufPos + bytes))
       (position + Z.of_nat (bufPos + bytes)),
     Replace.mk_closure position (bufPos + bytes) buf, e).
Proof.
  intros Hlt Hne. unfold Replace.onread. cbn [Replace.bufPos Replace.position].
  apply Nat.ltb_lt in Hlt. apply Nat.eqb_neq in Hne.
  rewrite Hlt, Hne. reflexivity.
Qed.

(** Otherwise the magic bytes are looked at, at position 0. *)
Lemma onread_magic (bufPos : nat) buf e (bytes : nat) :
  ((bufPos + bytes <? 512)%nat && negb (bytes =? 0)%nat = false) ->
  Replace.gzip_magic buf = true ->
  exists c',
    onread (Replace.mk_closure 0 bufPos buf) e bytes
    = (Replace.Cb (Replace.Threw Replace.compressed_error), c', e).
Proof.
  intros Hc Hgz. unfold Replace.onread.
  cbn [Replace.bufPos Replace.position Replace.headBuf].
  rewrite Hc, Hgz. simpl. eexists. reflexivity.
Qed.

(** A read that ends short of a block without the magic bytes gives the
    current position. *)
Lemma onread_truncated (position : Z) (bufPos : nat) buf e :
  (bufPos < 512)%nat ->
  (position =? 0) && Replace.gzip_magic buf = false ->
  exists c',
    onread (Replace.mk_closure position bufPos buf) e 0
    = (Replace.Cb (Replace.Position position), c', e).
Proof.
  intros Hlt Hgz. unfold Replace.onread.
  cbn [Replace.bufPos Replace.position Replace.headBuf].
  rewrite Nat.add_0_r. apply Nat.ltb_lt in Hlt. rewrite Hlt, Hgz.
  simpl. eexists. reflexivity.
Qed.

(** The read that completes the block: what follows depends on the
    block only. *)
Lemma onread_full (position : Z) (bufPos : nat) buf e (bytes : nat) :
  (bufPos + bytes = 512)%nat ->
  onread (Replace.mk_closure position bufPos buf) e bytes
  = onread (Replace.mk_closure position 512 buf) e 0.
Proof.
  intros Hfull. unfold Replace.onread.
  cbn [Replace.bufPos Replace.position Replace.headBuf].
  rewrite Hfull. reflexivity.
Qed.

(** Once the magic bytes are in the buffer at position 0, [getPos]
    fails, whatever the remaining reads bring. *)
Lemma async_magic_fails (k : nat) :
  forall (b : nat) buf e,
    length buf = 512%nat -> (2 <= b < 512)%nat ->
    Replace.gzip_magic buf = true -> (512 - b <= k)%nat ->
    exists er e',
      async_yields (S k) (Replace.mk_closure 0 b buf) e b (512 - b)
        (0 + Z.of_nat b) (Replace.Threw er, e').
Proof.
  induction k as [|k IH]; intros b buf e Hlen Hb Hgz Hk; [lia|].
  destruct (fs_read buf b (512 - b) (0 + Z.of_nat b)) as [er | [buf' bytes]]
    eqn:Hread.
  { exists er, (Replace.log_read e (0 + Z.of_nat b) (512 - b)).
    eapply async_yields_weaken; [apply async_step_err; exact Hread | lia]. }
  destruct (fs_read_inr _ _ _ _ _ _ Hread) as (data & _ & -> & Hbytes & Hle).
  assert (Hlen' : length (Replace.blit buf b (take (512 - b) data)) = 512%nat)
    by (rewrite length_blit; lia).
  assert (Hgz' : Replace.gzip_magic (Replace.blit buf b (take (512 - b) data)) = true)
    by (rewrite gzip_magic_blit; [assumption | lia]).
  destruct ((b + bytes <? 512)%nat && negb (bytes =? 0)%nat) eqn:Hc.
  - apply andb_true_iff in Hc as [Hlt Hne].
    apply Nat.ltb_lt in Hlt. apply negb_true_iff, Nat.eqb_neq in Hne.
    destruct (IH (b + bytes)%nat _
                (Replace.log_read e (0 + Z.of_nat b) (512 - b)) Hlen'
                ltac:(lia) Hgz' ltac:(lia)) as (er & e' & Hrest).
    exists er, e'.
    eapply async_step_read; [exact Hread | apply onread_more; assumption | exact Hrest].
  - destruct (onread_magic b _ (Replace.log_read e (0 + Z.of_nat b) (512 - b))
                bytes Hc Hgz') as (c' & Hon).
    eexists _, _.
    eapply async_yields_weaken; [eapply async_step_cb; [exact Hread | exact Hon] | lia].
Qed.

(** The inner loop of [replaceSync] and the reads of [getPos] for the
    same block.  When the loop throws, [getPos] fails too, provided the
    buffer is untouched past [bufPos] when the block is the first; when
    it breaks, [getPos] returns the position; when it fills the block,
    [getPos] goes on with the same block. *)
Lemma fill_sim (k : nat) :
  forall (p : Z) buf (b : nat) eS ex buf' eS',
    length buf = 512%nat -> (b < 512)%nat ->
    fill_sync k p buf b eS = Some (ex, buf', eS') ->
    forall eA,
      match ex with
      | Replace.FillThrew _ =>
          (p = 0 -> zeros_from b buf) ->
          exists n er eA',
            async_yields n (Replace.mk_closure p b buf) eA b (512 - b)
              (p + Z.of_nat b) (Replace.Threw er, eA')
      | Replace.FillBreak =>
          exists n eA',
            async_yields n (Replace.mk_closure p b buf) eA b (512 - b)
              (p + Z.of_nat b) (Replace.Position p, eA')
            /\ Replace.mtimeCache eA' = Replace.mtimeCache eA
      | Replace.FillFull =>
          length buf' = 512%nat
          /\ (p =? 0) && Replace.gzip_magic buf' = false
          /\ exists eA',
              Replace.mtimeCache eA' = Replace.mtimeCache eA
              /\ forall n r,
                  block_yields n p buf' eA' r ->
                  exists n',
                    async_yields n' (Replace.mk_closure p b buf) eA b (512 - b)
                      (p + Z.of_nat b) r
      end.
Proof.
  induction k as [|k IH]; intros p buf b eS ex buf' eS' Hlen Hb;
    rewrite fill_sync_eq; apply Nat.ltb_lt in Hb as Hb'; rewrite Hb';
    [discriminate|].
  cbv zeta.
  destruct (fs_read buf b (512 - b) (p + Z.of_nat b)) as [er | [buf1 bytes]]
    eqn:Hread.
  { intros [= <- <- <-] eA _. eexists 1%nat, er, _.
    apply async_step_err. exact Hread. }
  destruct (fs_read_inr _ _ _ _ _ _ Hread) as (data & _ & Hbuf1 & Hbytes & Hle).
  assert (Hlen1 : length buf1 = 512%nat)
    by (subst buf1; rewrite length_blit; lia).
  destruct ((p =? 0) && Replace.gzip_magic buf1) eqn:Hgz.
  { (* the blocking scan throws as soon as the magic bytes are in *)
    intros [= <- <- <-] eA Hz.
    apply andb_true_iff in Hgz as [Hp Hgz]. apply Z.eqb_eq in Hp. subst p.
    assert (Hfilled : (2 <= b + bytes)%nat).
    { apply (gzip_magic_filled buf1); [lia | | assumption].
      subst buf1 bytes. apply zeros_from_blit; [lia | auto]. }
    destruct ((b + bytes <? 512)%nat && negb (bytes =? 0)%nat) eqn:Hc.
    - apply andb_true_iff in Hc as [Hlt Hne].
      apply Nat.ltb_lt in Hlt. apply negb_true_iff, Nat.eqb_neq in Hne.
      destruct (async_magic_fails (512 - (b + bytes)) (b + bytes) buf1
                  (Replace.log_read eA (0 + Z.of_nat b) (512 - b))
                  Hlen1 ltac:(lia) Hgz ltac:(lia)) as (er & e' & Hrest).
      eexists _, er, e'.
      eapply async_step_read; [exact Hread | apply onread_more; assumption | exact Hrest].
    - destruct (onread_magic b buf1 (Replace.log_read eA (0 + Z.of_nat b) (512 - b))
                  bytes Hc Hgz) as (c' & Hon).
      eexists 1%nat, _, _.
      eapply async_step_cb; [exact Hread | exact Hon]. }
  destruct (Nat.eqb_spec bytes 0) as [Hzero | Hnz].
  { (* end of file inside the block *)
    intros [= <- <- <-] eA. subst bytes.
    destruct (onread_truncated p b buf1
                (Replace.log_read eA (p + Z.of_nat b) (512 - b)) Hb Hgz)
      as (c' & Hon).
    exists 1%nat, (Replace.log_read eA (p + Z.of_nat b) (512 - b)).
    split; [|reflexivity].
    eapply async_step_cb; [exact Hread | rewrite Hzero; exact Hon]. }
  destruct (lt_dec (b + bytes) 512) as [Hlt | Hge].
  - (* the block is still short *)
    intros Hrun eA.
    specialize (IH p buf1 (b + bytes)%nat _ ex buf' eS' Hlen1 Hlt Hrun
                  (Replace.log_read eA (p + Z.of_nat b) (512 - b))).
    assert (Hon := onread_more p b buf1
                     (Replace.log_read eA (p + Z.of_nat b) (512 - b)) bytes Hlt Hnz).
    destruct ex.
    + intros Hz.
      destruct IH as (n & er' & eA' & Hrest).
      { intros Hp. subst buf1 bytes. apply zeros_from_blit; [lia | auto]. }
      eexists (S n), er', eA'.
      eapply async_step_read; [exact Hread | exact Hon | exact Hrest].
    + destruct IH as (n & eA' & Hrest & Hcache).
      exists (S n), eA'. split; [|exact Hcache].
      eapply async_step_read; [exact Hread | exact Hon | exact Hrest].
    + destruct IH as (Hlen' & Hgz' & eA' & Hcache & Hcont).
      split; [assumption|]. split; [assumption|].
      exists eA'. split; [exact Hcache|]. intros n r Hblock.
      destruct (Hcont n r Hblock) as (n' & Hrest).
      exists (S n').
      eapply async_step_read; [exact Hread | exact Hon | exact Hrest].
  - (* this read completed the block *)
    assert (Hfull : (b + bytes = 512)%nat) by lia.
    rewrite fill_sync_eq.
    replace (b + bytes <? 512)%nat with false
      by (symmetry; apply Nat.ltb_ge; lia).
    intros [= <- <- <-] eA.
    split; [assumption|]. split; [assumption|].
    exists (Replace.log_read eA (p + Z.of_nat b) (512 - b)).
    split; [reflexivity|].
    intros n r Hblock. unfold block_yields in Hblock.
    rewrite <- (onread_full p b buf1 _ bytes Hfull) in Hblock.
    destruct (onread _ _ bytes) as [[[o | offset' len' pos'] c'] e'] eqn:Hon.
    + exists 1%nat. subst r. eapply async_step_cb; [exact Hread | exact Hon].
    + exists (S n). eapply async_step_read; [exact Hread | exact Hon | exact Hblock].
Qed.

(** *** The whole scan *)

(** The inner loop leaves the cache alone. *)
Lemma fill_sync_cache (k : nat) :
  forall (p : Z) buf (b : nat) e ex buf' e',
    fill_sync k p buf b e = Some (ex, buf', e') ->
    Replace.mtimeCache e' = Replace.mtimeCache e.
Proof.
  induction k as [|k IH]; intros p buf b e ex buf' e'; rewrite fill_sync_eq;
    destruct (b <? 512)%nat; try discriminate;
    try (intros [= <- <- <-]; reflexivity).
  cbv zeta.
  destruct (fs_read _ _ _ _) as [er | [buf1 bytes]];
    [intros [= <- <- <-]; reflexivity|].
  destruct (_ && _); [intros [= <- <- <-]; reflexivity|].
  destruct (bytes =? 0)%nat; [intros [= <- <- <-]; reflexivity|].
  intros Hrun. apply IH in Hrun. exact Hrun.
Qed.

Lemma record_mtime_cache e1 e2 (h : Header.t) :
  Replace.mtimeCache e1 = Replace.mtimeCache e2 ->
  Replace.mtimeCache (Replace.record_mtime e1 h)
  = Replace.mtimeCache (Replace.record_mtime e2 h).
Proof.
  intros Heq. unfold Replace.record_mtime. rewrite Heq.
  destruct (Replace.mtimeCache e2) eqn:H2, (Header.mtime h); simpl; congruence.
Qed.

Lemma onread_block (p : Z) buf e :
  (p =? 0) && Replace.gzip_magic buf = false ->
  onread (Replace.mk_closure p 512 buf) e 0
  = let h := decode buf in
    if negb (Header.cksumValid h) then
      (Replace.Cb (Replace.Position p), Replace.mk_closure p 512 buf, e)
    else if p + Replace.entryBlockSize_async h + 512 >? Z.of_N st_size then
      (Replace.Cb (Replace.Position p), Replace.mk_closure p 512 buf, e)
    else if p + Replace.entryBlockSize_async h + 512 >=? Z.of_N st_size then
      (Replace.Cb (Replace.Position (p + Replace.entryBlockSize_async h + 512)),
       Replace.mk_closure (p + Replace.entryBlockSize_async h + 512) 512 buf, e)
    else
      (Replace.Read 0 512 (p + Replace.entryBlockSize_async h + 512),
       Replace.mk_closure (p + Replace.entryBlockSize_async h + 512) 0 buf,
       Replace.record_mtime e h).
Proof.
  intros Hgz. unfold Replace.onread.
  cbn [Replace.bufPos Replace.position Replace.headBuf].
  rewrite Hgz. reflexivity.
Qed.

Lemma entryBlockSize_nonneg buf :
  Replace.sizes_nonneg decode -> 0 <= Replace.entryBlockSize_async (decode buf).
Proof.
  intros Hsz. unfold Replace.entryBlockSize_async.
  destruct (Header.size (decode buf)) as [n|] eqn:Hn.
  - apply Hsz in Hn. apply ceil512_nonneg in Hn. lia.
  - vm_compute. discriminate.
Qed.

(** The [POSITION] loop against [getPos], block by block.  An offset
    returned by the blocking scan is the offset [getPos] calls back
    with; when the blocking scan throws, [getPos] fails, given that the
    scan started on a fresh buffer and never comes back to position
    0. *)
Lemma scan_sim (n : nat) :
  forall (p : Z) buf eS oS eS',
    length buf = 512%nat ->
    p < Z.of_N st_size ->
    scan_sync n p buf eS = Some (oS, eS') ->
    forall eA,
      match oS with
      | Replace.Position a =>
          exists m eA',
            async_yields m (Replace.mk_closure p 0 buf) eA 0 512 p
              (Replace.Position a, eA')
            /\ (Replace.mtimeCache eS = Replace.mtimeCache eA ->
                exists last,
                  Replace.mtimeCache eS'
                  = Replace.mtimeCache (Replace.recorded last eA')
                  /\ (last = None \/ Z.of_N st_size <= a))
      | Replace.Threw _ =>
          Replace.sizes_nonneg decode -> 0 <= p ->
          (p = 0 -> zeros_from 0 buf) ->
          exists m er eA',
            async_yields m (Replace.mk_closure p 0 buf) eA 0 512 p
              (Replace.Threw er, eA')
      end.
Proof.
  induction n as [|n IH]; intros p buf eS oS eS' Hlen Hp;
    rewrite scan_sync_eq; apply Z.ltb_lt in Hp as Hp'; rewrite Hp';
    [discriminate|].
  destruct (fill_sync 512 p buf 0 eS) as [[[ex buf'] e1]|] eqn:Hfill;
    [|discriminate].
  intros Hrun eA.
  pose proof (fill_sync_cache _ _ _ _ _ _ _ _ Hfill) as Hcache1.
  pose proof (fill_sim 512 p buf 0 eS ex buf' e1 Hlen ltac:(lia) Hfill eA)
    as Hsim.
  cbn [Z.of_nat] in Hsim. rewrite Z.add_0_r in Hsim.
  change (512 - 0)%nat with 512%nat in Hsim.
  destruct ex.
  - injection Hrun as <- <-. intros _ _ Hz. apply Hsim, Hz.
  - injection Hrun as <- <-. destruct Hsim as (m & eA' & Hm & HcacheA).
    exists m, eA'. split; [exact Hm|].
    intros Heq. exists None. split; [simpl; congruence | left; reflexivity].
  - destruct Hsim as (Hlen' & Hgz & eA' & HcacheA & Hcont).
    pose proof (onread_block p buf' eA' Hgz) as Hblock.
    cbv zeta in Hrun, Hblock.
    rewrite entryBlockSize_same in Hrun.
    set (h := decode buf') in *.
    set (p' := p + Replace.entryBlockSize_async h + 512) in *.
    assert (Hstop : forall q,
              block_yields 0 p buf' eA' (Replace.Position q, eA') ->
              exists m eA'',
                async_yields m (Replace.mk_closure p 0 buf) eA 0 512 p
                  (Replace.Position q, eA'')
                /\ (Replace.mtimeCache eS = Replace.mtimeCache eA ->
                    exists last,
                      Replace.mtimeCache e1
                      = Replace.mtimeCache (Replace.recorded last eA'')
                      /\ (last = None \/ Z.of_N st_size <= q))).
    { intros q Hq. destruct (Hcont 0%nat _ Hq) as (m & Hm).
      exists m, eA'. split; [exact Hm|].
      intros Heq. exists None. split; [simpl; congruence | left; reflexivity]. }
    destruct (negb (Header.cksumValid h)).
    { injection Hrun as <- <-. apply Hstop.
      unfold block_yields. rewrite Hblock. reflexivity. }
    destruct (p' >? Z.of_N st_size).
    { injection Hrun as <- <-. apply Hstop.
      unfold block_yields. rewrite Hblock. reflexivity. }
    destruct (Z.geb_spec p' (Z.of_N st_size)) as [Hge | Hlt].
    { (* the entry ends where the file ends, or past it *)
      rewrite scan_sync_eq in Hrun.
      replace (p' <? Z.of_N st_size) with false in Hrun
        by (symmetry; apply Z.ltb_ge; lia).
      injection Hrun as <- <-.
      destruct (Hcont 0%nat (Replace.Position p', eA')) as (m & Hm).
      { unfold block_yields. rewrite Hblock. reflexivity. }
      exists m, eA'. split; [exact Hm|].
      intros Heq. exists (Some h). split; [|right; lia].
      apply record_mtime_cache. congruence. }
    specialize (IH p' buf' _ oS eS' Hlen' Hlt Hrun (Replace.record_mtime eA' h)).
    destruct oS as [a | er].
    + destruct IH as (m & eA'' & Hm & Hlast).
      destruct (Hcont m (Replace.Position a, eA'')) as (m' & Hm').
      { unfold block_yields. rewrite Hblock. exact Hm. }
      exists m', eA''. split; [exact Hm'|].
      intros Heq. apply Hlast, record_mtime_cache. congruence.
    + intros Hsz Hp0 Hz.
      pose proof (entryBlockSize_nonneg buf' Hsz) as Hebs. fold h in Hebs.
      destruct IH as (m & er' & eA'' & Hm); [assumption | lia | lia |].
      destruct (Hcont m (Replace.Threw er', eA'')) as (m' & Hm').
      { unfold block_yields. rewrite Hblock. exact Hm. }
      exists m', er', eA''. exact Hm'.
Qed.

(** A turn of the [POSITION] loop that advances past an entry records
    its mtime before the next turn. *)
Lemma scan_sync_records (n : nat) (p : Z) buf e buf' e' :
  fill_sync 512 p buf 0 e = Some (Replace.FillFull, buf', e') ->
  Header.cksumValid (decode buf') = true ->
  p < Z.of_N st_size ->
  p + Replace.entryBlockSize_sync (decode buf') + 512 <= Z.of_N st_size ->
  scan_sync (S n) p buf e
  = scan_sync n (p + Replace.entryBlockSize_sync (decode buf') + 512) buf'
      (Replace.record_mtime e' (decode buf')).
Proof.
  intros Hfill Hvalid Hp Hfits. rewrite scan_sync_eq.
  apply Z.ltb_lt in Hp. rewrite Hp, Hfill. cbv zeta. rewrite Hvalid. simpl.
  replace (_ >? _) with false by (symmetry; rewrite Z.gtb_ltb; apply Z.ltb_ge; lia).
  reflexivity.
Qed.

(** [onread] on a complete block whose entry it advances past: the
    mtime is recorded only when the file goes on after the entry. *)
Lemma onread_records (p : Z) buf e :
  (p =? 0) && Replace.gzip_magic buf = false ->
  Header.cksumValid (decode buf) = true ->
  p + Replace.entryBlockSize_async (decode buf) + 512 <= Z.of_N st_size ->
  onread (Replace.mk_closure p 512 buf) e 0
  = if p + Replace.entryBlockSize_async (decode buf) + 512 <? Z.of_N st_size
    then
      (Replace.Read 0 512 (p + Replace.entryBlockSize_async (decode buf) + 512),
       Replace.mk_closure (p + Replace.entryBlockSize_async (decode buf) + 512) 0 buf,
       Replace.record_mtime e (decode buf))
    else
      (Replace.Cb (Replace.Position (p + Replace.entryBlockSize_async (decode buf) + 512)),
       Replace.mk_closure (p + Replace.entryBlockSize_async (decode buf) + 512) 512 buf,
       e).
Proof.
  intros Hgz Hvalid Hfits. rewrite (onread_block p buf e Hgz). cbv zeta.
  rewrite Hvalid. simpl.
  replace (_ >? _) with false by (symmetry; rewrite Z.gtb_ltb; apply Z.ltb_ge; lia).
  destruct (Z.ltb_spec (p + Replace.entryBlockSize_async (decode buf) + 512)
              (Z.of_N st_size)) as [Hlt | Hge].
  - replace (_ >=? _) with false by (symmetry; rewrite Z.geb_leb; apply Z.leb_gt; lia).
    reflexivity.
  - replace (_ >=? _) with true by (symmetry; rewrite Z.geb_leb; apply Z.leb_le; lia).
    reflexivity.
Qed.

(** The inner loop ends within 512 turns. *)
Lemma fill_sync_total (k : nat) :
  forall (p : Z) buf (b : nat) e,
    length buf = 512%nat -> (b <= 512)%nat -> (512 - b <= k)%nat ->
    exists ex buf' e',
      fill_sync k p buf b e = Some (ex, buf', e') /\ length buf' = 512%nat.
Proof.
  induction k as [|k IH]; intros p buf b e Hlen Hb Hk; rewrite fill_sync_eq.
  - replace (b <? 512)%nat with false by (symmetry; apply Nat.ltb_ge; lia).
    eauto.
  - destruct (Nat.ltb_spec b 512) as [Hlt | Hge]; [|eauto].
    cbv zeta.
    destruct (fs_read buf b (512 - b) (p + Z.of_nat b)) as [er | [buf1 bytes]]
      eqn:Hread; [eauto|].
    destruct (fs_read_inr _ _ _ _ _ _ Hread) as (data & _ & Hbuf1 & Hbytes & Hle).
    assert (Hlen1 : length buf1 = 512%nat)
      by (subst buf1; rewrite length_blit; lia).
    destruct ((p =? 0) && Replace.gzip_magic buf1); [eauto|].
    destruct (Nat.eqb_spec bytes 0) as [Hzero | Hnz]; [eauto|].
    apply IH; [assumption | lia | lia].
Qed.

(** With sizes that are byte counts, every turn of the [POSITION] loop
    moves at least one block ahead: the blocking scan ends. *)
Lemma scan_sync_total (n : nat) :
  Replace.sizes_nonneg decode ->
  forall (p : Z) buf e,
    length buf = 512%nat ->
    Z.of_N st_size - p <= 512 * Z.of_nat n ->
    exists r, scan_sync n p buf e = Some r.
Proof.
  intros Hsz. induction n as [|n IH]; intros p buf e Hlen Hn;
    rewrite scan_sync_eq.
  - replace (p <? Z.of_N st_size) with false
      by (symmetry; apply Z.ltb_ge; lia).
    eauto.
  - destruct (p <? Z.of_N st_size); [|eauto].
    destruct (fill_sync_total 512 p buf 0 e Hlen ltac:(lia) ltac:(lia))
      as (ex & buf' & e' & -> & Hlen').
    destruct ex; [eauto | eauto |].
    cbv zeta. destruct (negb _); [eauto|].
    destruct (_ >? _); [eauto|].
    apply IH; [assumption|].
    pose proof (entryBlockSize_nonneg buf' Hsz) as Hebs.
    rewrite entryBlockSize_same. lia.
Qed.

End ScanFacts.


(** ** Compressed archives are refused at the first block *)

Section GzipFacts.

Variable rest : list Z.
Variable pread : Z -> nat -> Replace.read_result.
Variable decode : list Z -> Header.t.

Local Abbreviation content := (31 :: 139 :: rest).
Local Abbreviation holds_prefix := (holds_prefix content).

Lemma prefix_magic (buf : list Z) (b : nat) :
  holds_prefix buf b -> (2 <= b)%nat -> Replace.gzip_magic buf = true.
Proof.
  intros Hpre Hb. unfold Replace.gzip_magic, Replace.byte_is.
  rewrite (Hpre 0%nat), (Hpre 1%nat) by lia. reflexivity.
Qed.

(** One read of the first block of the file. *)
Lemma fs_read_file (buf : list Z) (b : nat) :
  Replace.reads_file content pread ->
  length buf = 512%nat -> (b < 512)%nat -> (b <= length content)%nat ->
  holds_prefix buf b ->
  exists buf1 bytes,
    Replace.fs_read pread buf b (512 - b) (0 + Z.of_nat b) = inr (buf1, bytes)
    /\ length buf1 = 512%nat
    /\ (b + bytes <= 512)%nat
    /\ (b + bytes <= length content)%nat
    /\ holds_prefix buf1 (b + bytes)
    /\ ((b < length content)%nat -> (0 < bytes)%nat)
    /\ (bytes = 0%nat -> buf1 = buf).
Proof.
  intros Hfile Hlen Hb Hbc Hpre.
  destruct (Hfile (0 + Z.of_nat b) (512 - b)%nat ltac:(lia)) as (n & Hread & Hpos).
  replace (Z.to_nat (0 + Z.of_nat b)) with b in * by lia.
  unfold Replace.fs_read. rewrite Hread.
  rewrite take_take.
  set (m := Nat.min (512 - b) n).
  assert (Hgot : length (take m (drop b content)) = Nat.min m (length content - b))
    by (rewrite length_take, length_drop; reflexivity).
  eexists _, _. split; [reflexivity|].
  rewrite Hgot. repeat split.
  - rewrite length_blit; lia.
  - lia.
  - lia.
  - intros i Hi. destruct (lt_dec i b) as [Hlt | Hge].
    + rewrite lookup_blit_lt by lia. apply Hpre, Hlt.
    + replace i with (b + (i - b))%nat at 1 by lia.
      rewrite lookup_blit_data by lia.
      rewrite lookup_take_lt by lia.
      rewrite lookup_drop. f_equal. lia.
  - intros Hlt. specialize (Hpos ltac:(lia) Hlt). lia.
  - intros Hzero.
    assert (Hnil : take m (drop b content) = []).
    { apply length_zero_iff_nil. lia. }
    rewrite Hnil. apply blit_nil.
Qed.

(** The inner loop of [replaceSync] on the first block of a gzip file. *)
Lemma fill_sync_gzip (k : nat) :
  Replace.reads_file content pread ->
  forall (buf : list Z) (b : nat) (e : Replace.effects),
    length buf = 512%nat -> (b < 512)%nat -> (b <= length content)%nat ->
    holds_prefix buf b -> (512 - b <= k)%nat ->
    Forall Replace.in_first_block (Replace.reads e) ->
    exists buf' e',
      Replace.fill_sync pread k 0 buf b e
      = Some (Replace.FillThrew Replace.compressed_error, buf', e')
      /\ Replace.mtimeCache e' = Replace.mtimeCache e
      /\ Forall Replace.in_first_block (Replace.reads e').
Proof.
  intros Hfile. induction k as [|k IH]; intros buf b e Hlen Hb Hbc Hpre Hk Htrace;
    [lia|].
  rewrite fill_sync_eq. apply Nat.ltb_lt in Hb as Hb'. rewrite Hb'. cbv zeta.
  destruct (fs_read_file buf b Hfile Hlen Hb Hbc Hpre)
    as (buf1 & bytes & -> & Hlen1 & Hle & Hlec & Hpre1 & Hpos & Hsame).
  assert (Htrace1 : Forall Replace.in_first_block
            (Replace.reads (Replace.log_read e (0 + Z.of_nat b) (512 - b)))).
  { simpl. apply Forall_app. split; [assumption|].
    apply Forall_singleton. unfold Replace.in_first_block. simpl. lia. }
  destruct (Replace.gzip_magic buf1) eqn:Hgz; simpl.
  { eexists _, _. split; [reflexivity|]. split; [reflexivity | assumption]. }
  assert (Hshort : (b + bytes < 2)%nat).
  { destruct (lt_dec (b + bytes) 2) as [|Hge]; [assumption|].
    rewrite (prefix_magic buf1 (b + bytes) Hpre1) in Hgz by lia. discriminate. }
  simpl in Hbc, Hlec, Hpos.
  destruct (Nat.eqb_spec bytes 0) as [Hzero | Hnz]; [lia|].
  destruct (IH buf1 (b + bytes)%nat
              (Replace.log_read e (0 + Z.of_nat b) (512 - b))
              Hlen1 ltac:(lia) Hlec Hpre1 ltac:(lia) Htrace1)
    as (buf' & e' & Hrun & Hcache & Htrace').
  exists buf', e'. split; [exact Hrun|]. split; [exact Hcache | exact Htrace'].
Qed.

(** The reads of [getPos] on the first block of a gzip file. *)
Lemma getPos_loop_gzip (st_size : N) (k : nat) :
  Replace.reads_file content pread ->
  forall (buf : list Z) (b : nat) (e : Replace.effects),
    length buf = 512%nat -> (b < 512)%nat -> (b <= length content)%nat ->
    holds_prefix buf b -> (512 - b <= k)%nat ->
    Forall Replace.in_first_block (Replace.reads e) ->
    exists e',
      async_yields st_size pread decode (S k) (Replace.mk_closure 0 b buf) e
        b (512 - b) (0 + Z.of_nat b)
        (Replace.Threw Replace.compressed_error, e')
      /\ Replace.mtimeCache e' = Replace.mtimeCache e
      /\ Forall Replace.in_first_block (Replace.reads e').
Proof.
  intros Hfile. induction k as [|k IH]; intros buf b e Hlen Hb Hbc Hpre Hk Htrace;
    [lia|].
  destruct (fs_read_file buf b Hfile Hlen Hb Hbc Hpre)
    as (buf1 & bytes & Hread & Hlen1 & Hle & Hlec & Hpre1 & Hpos & Hsame).
  assert (Htrace1 : Forall Replace.in_first_block
            (Replace.reads (Replace.log_read e (0 + Z.of_nat b) (512 - b)))).
  { simpl. apply Forall_app. split; [assumption|].
    apply Forall_singleton. unfold Replace.in_first_block. simpl. lia. }
  destruct ((b + bytes <? 512)%nat && negb (bytes =? 0)%nat) eqn:Hc.
  - apply andb_true_iff in Hc as [Hlt Hne].
    apply Nat.ltb_lt in Hlt. apply negb_true_iff, Nat.eqb_neq in Hne.
    destruct (IH buf1 (b + bytes)%nat
                (Replace.log_read e (0 + Z.of_nat b) (512 - b))
                Hlen1 Hlt Hlec Hpre1 ltac:(lia) Htrace1)
      as (e' & Hrest & Hcache & Htrace').
    exists e'. split; [|split; [exact Hcache | exact Htrace']].
    eapply async_step_read; [exact Hread | apply onread_more; assumption | exact Hrest].
  - assert (Hfilled : (2 <= b + bytes)%nat).
    { apply andb_false_iff in Hc as [Hfull | Hzero].
      - apply Nat.ltb_ge in Hfull. lia.
      - apply negb_false_iff, Nat.eqb_eq in Hzero.
        simpl in Hbc, Hlec, Hpos.
        destruct (lt_dec b (S (S (length rest)))); [lia | simpl; lia]. }
    destruct (onread_magic st_size decode b buf1
                (Replace.log_read e (0 + Z.of_nat b) (512 - b)) bytes Hc
                (prefix_magic buf1 _ Hpre1 Hfilled)) as (c' & Hon).
    exists (Replace.log_read e (0 + Z.of_nat b) (512 - b)).
    split; [|split; [reflexivity | exact Htrace1]].
    eapply async_yields_weaken; [eapply async_step_cb; [exact Hread | exact Hon] | lia].
Qed.

(** *** Reads that are never cut short *)

Lemma reads_fully_reads_file :
  Replace.reads_fully content pread -> Replace.reads_file content pread.
Proof.
  intros Hfull pos len Hpos. exists len. split; [apply Hfull, Hpos | lia].
Qed.

(** The first read of either scan brings the magic bytes. *)
Lemma first_read_full (buf : list Z) :
  Replace.reads_fully content pread -> length buf = 512%nat ->
  exists buf1 bytes,
    Replace.fs_read pread buf 0 512 0 = inr (buf1, bytes)
    /\ bytes = Nat.min 512 (length content)
    /\ length buf1 = 512%nat
    /\ holds_prefix buf1 bytes
    /\ Replace.gzip_magic buf1 = true.
Proof.
  intros Hfull Hlen.
  destruct (fs_read_file buf 0 (reads_fully_reads_file Hfull) Hlen
              ltac:(lia) ltac:(lia) ltac:(intros i Hi; lia))
    as (buf1 & bytes & Hread & Hlen1 & _ & _ & Hpre1 & _ & _).
  change (512 - 0)%nat with 512%nat in Hread.
  change (0 + Z.of_nat 0) with 0 in Hread.
  assert (Hbytes : bytes = Nat.min 512 (length content)).
  { unfold Replace.fs_read in Hread. rewrite (Hfull 0 512%nat) in Hread by lia.
    injection Hread as _ <-.
    rewrite ?take_idemp, ?length_take. simpl. lia. }
  exists buf1, bytes. split; [exact Hread|]. split; [exact Hbytes|].
  split; [exact Hlen1|]. split; [exact Hpre1|].
  apply (prefix_magic buf1 bytes Hpre1). rewrite Hbytes. simpl. lia.
Qed.

(** The blocking scan throws after its first read. *)
Lemma replaceSync_gzip_one_read (cache : option (gmap string Z)) :
  Replace.reads_fully content pread ->
  Replace.replaceSync_scan (N.of_nat (length content)) pread decode 1 cache
  = Some (Replace.Threw Replace.compressed_error,
          Replace.mk_effects cache [(0, 512%nat)]).
Proof.
  intros Hfull. unfold Replace.replaceSync_scan. rewrite scan_sync_eq.
  replace (0 <? Z.of_N (N.of_nat (length content))) with true
    by (symmetry; apply Z.ltb_lt; simpl; lia).
  rewrite fill_sync_eq. change (0 <? 512)%nat with true. cbv zeta.
  destruct (first_read_full (Replace.alloc 512) Hfull (length_alloc 512))
    as (buf1 & bytes & Hread & _ & _ & _ & Hgz).
  change (512 - 0)%nat with 512%nat. change (0 + Z.of_nat 0) with 0.
  rewrite Hread, Hgz. reflexivity.
Qed.

(** [getPos] fails after its first read, or after one more read at the
    end of a file shorter than a block. *)
Lemma getPos_gzip_two_reads (cache : option (gmap string Z)) :
  Replace.reads_fully content pread ->
  exists eA,
    Replace.getPos (N.of_nat (length content)) pread decode 2 cache
    = Some (Replace.Threw Replace.compressed_error, eA)
    /\ Replace.only_first_read_gets_bytes content (Replace.reads eA).
Proof.
  intros Hfull. unfold Replace.getPos.
  replace (N.eqb (N.of_nat (length content)) 0%N) with false
    by (symmetry; apply N.eqb_neq; simpl; lia).
  destruct (first_read_full (Replace.alloc 512) Hfull (length_alloc 512))
    as (buf1 & bytes & Hread & Hbytes & Hlen1 & Hpre1 & Hgz).
  set (e1 := Replace.log_read (Replace.mk_effects cache []) 0 512).
  rewrite getPos_loop_S. cbn [Replace.headBuf Replace.position Replace.bufPos].
  rewrite Hread. fold e1.
  destruct ((0 + bytes <? 512)%nat && negb (bytes =? 0)%nat) eqn:Hc.
  - (* a file shorter than a block: one more read, at its end *)
    apply andb_true_iff in Hc as [Hlt Hne].
    apply Nat.ltb_lt in Hlt. apply negb_true_iff, Nat.eqb_neq in Hne.
    rewrite (onread_more _ decode 0 0 buf1 e1 bytes Hlt Hne).
    change (0 + bytes)%nat with bytes.
    assert (Hend : bytes = length content) by lia.
    destruct (fs_read_file buf1 bytes (reads_fully_reads_file Hfull) Hlen1
                ltac:(lia) ltac:(lia) Hpre1)
      as (buf2 & bytes2 & Hread2 & Hlen2 & _ & Hle2 & Hpre2 & _ & _).
    assert (Hzero : bytes2 = 0%nat) by lia. subst bytes2.
    rewrite getPos_loop_S. cbn [Replace.headBuf Replace.position Replace.bufPos].
    rewrite Hread2.
    destruct (onread_magic (N.of_nat (length content)) decode bytes buf2
                (Replace.log_read e1 (0 + Z.of_nat bytes) (512 - bytes)) 0
                ltac:(rewrite andb_false_r; reflexivity)
                (prefix_magic buf2 (bytes + 0) Hpre2 ltac:(simpl in *; lia)))
      as (c' & ->).
    eexists. split; [reflexivity|].
    exists [(0 + Z.of_nat bytes, (512 - bytes)%nat)]. split; [reflexivity|].
    apply Forall_singleton. cbn [fst]. lia.
  - destruct (onread_magic (N.of_nat (length content)) decode 0 buf1 e1 bytes
                Hc Hgz) as (c' & ->).
    eexists. split; [reflexivity|].
    exists []. split; [reflexivity | apply Forall_nil_2].
Qed.

End GzipFacts.

(** C7.  For every file that begins with the bytes 0x1f 0x8b, read in
    pieces of any size, both scans fail with
    ["cannot append to compressed archives"]; every read they issue
    lies inside the first 512-byte block (the scan never leaves position
    0, no byte past the first block is asked for) and the mtime cache is
    left as it was.  When reads are never cut short, the first read is
    the only one that obtains any byte: [replaceSync] throws right after
    it, and [getPos] issues at most one more read, at the end of a file
    shorter than a block. *)
Theorem C7_gzip_archive_is_refused
  (rest : list Z) (pread : Z -> nat -> Replace.read_result)
  (decode : list Z -> Header.t) (cache : option (gmap string Z)) :
  Replace.reads_file (31 :: 139 :: rest) pread ->
  (exists eS,
      (forall fuel, (0 < fuel)%nat ->
         Replace.replaceSync_scan (N.of_nat (length (31 :: 139 :: rest)))
           pread decode fuel cache
         = Some (Replace.Threw Replace.compressed_error, eS))
      /\ Replace.mtimeCache eS = cache
      /\ Forall Replace.in_first_block (Replace.reads eS)
      /\ (Replace.reads_fully (31 :: 139 :: rest) pread ->
          Replace.reads eS = [(0, 512%nat)]))
  /\ (exists eA n,
         (forall fuel, (n <= fuel)%nat ->
            Replace.getPos (N.of_nat (length (31 :: 139 :: rest)))
              pread decode fuel cache
            = Some (Replace.Threw Replace.compressed_error, eA))
         /\ Replace.mtimeCache eA = cache
         /\ Forall Replace.in_first_block (Replace.reads eA)
         /\ (Replace.reads_fully (31 :: 139 :: rest) pread ->
             Replace.only_first_read_gets_bytes (31 :: 139 :: rest)
               (Replace.reads eA))).
Proof.
  intros Hfile.
  assert (Hpre0 : holds_prefix (31 :: 139 :: rest) (Replace.alloc 512) 0)
    by (intros i Hi; lia).
  split.
  - destruct (fill_sync_gzip rest pread 512 Hfile (Replace.alloc 512) 0
                (Replace.mk_effects cache []) (length_alloc 512)
                ltac:(lia) ltac:(simpl; lia) Hpre0 ltac:(lia) (Forall_nil_2 _))
      as (buf' & e' & Hfill & Hcache & Htrace).
    assert (Hrun : forall fuel, (0 < fuel)%nat ->
              Replace.replaceSync_scan (N.of_nat (length (31 :: 139 :: rest)))
                pread decode fuel cache
              = Some (Replace.Threw Replace.compressed_error, e')).
    { intros [|fuel] Hfuel; [lia|].
      unfold Replace.replaceSync_scan. rewrite scan_sync_eq.
      replace (0 <? Z.of_N (N.of_nat (length (31 :: 139 :: rest)))) with true
        by (symmetry; apply Z.ltb_lt; simpl; lia).
      rewrite Hfill. reflexivity. }
    exists e'. split; [exact Hrun|]. split; [exact Hcache|].
    split; [exact Htrace|].
    intros Hfull.
    pose proof (replaceSync_gzip_one_read rest pread decode cache Hfull) as Hone.
    rewrite (Hrun 1%nat ltac:(lia)) in Hone. injection Hone as ->. reflexivity.
  - destruct (getPos_loop_gzip rest pread decode
                (N.of_nat (length (31 :: 139 :: rest))) 512 Hfile
                (Replace.alloc 512) 0 (Replace.mk_effects cache [])
                (length_alloc 512) ltac:(lia) ltac:(simpl; lia) Hpre0
                ltac:(lia) (Forall_nil_2 _))
      as (e' & Hrun & Hcache & Htrace).
    assert (Hget : forall fuel, (513 <= fuel)%nat ->
              Replace.getPos (N.of_nat (length (31 :: 139 :: rest)))
                pread decode fuel cache
              = Some (Replace.Threw Replace.compressed_error, e')).
    { intros fuel Hfuel. unfold Replace.getPos.
      replace (N.eqb (N.of_nat (length (31 :: 139 :: rest))) 0%N) with false
        by (symmetry; apply N.eqb_neq; simpl; lia).
      apply Hrun, Hfuel. }
    exists e', 513%nat. split; [exact Hget|]. split; [exact Hcache|].
    split; [exact Htrace|].
    intros Hfull.
    destruct (getPos_gzip_two_reads rest pread decode cache Hfull)
      as (eA & Htwo & Honly).
    apply (getPos_mono _ _ _ 2 513) in Htwo; [|lia].
    rewrite (Hget 513%nat ltac:(lia)) in Htwo. injection Htwo as ->.
    exact Honly.
Qed.

(** ** The scans on sample archives *)

Lemma file_read_reads_file (content : list Z) (chunk : nat) :
  (0 < chunk)%nat -> Replace.reads_file content (Replace.file_read content chunk).
Proof.
  intros Hchunk pos len Hpos. exists (Nat.min len chunk).
  unfold Replace.file_read.
  replace (pos <? 0) with false by (symmetry; apply Z.ltb_ge; lia).
  split; [reflexivity | lia].
Qed.

Lemma octal_digits_nonneg (bs : list Z) :
  forall (acc : option Z) (n : Z),
    (forall a, acc = Some a -> 0 <= a) ->
    Ustar.octal_digits acc bs = Some n -> 0 <= n.
Proof.
  induction bs as [|b bs IH]; intros acc n Hacc; simpl.
  - apply Hacc.
  - destruct ((48 <=? b) && (b <=? 55)) eqn:Hdigit; [|apply Hacc].
    apply IH. intros a [= <-].
    apply andb_true_iff in Hdigit as [Hlo _]. apply Z.leb_le in Hlo.
    destruct acc as [a|]; simpl; [specialize (Hacc a eq_refl)|]; lia.
Qed.

Lemma ustar_sizes_nonneg : Replace.sizes_nonneg Ustar.decode.
Proof.
  intros buf n. unfold Ustar.decode, Ustar.decNumber. simpl.
  apply octal_digits_nonneg. discriminate.
Qed.

Example sync_scan_of_archive :
  Replace.outcome_of
    (Replace.replaceSync_scan 2048 (Replace.file_read Samples.archive 512)
       Ustar.decode 4 None)
  = Some (Replace.Position 1024).
Proof. vm_compute. reflexivity. Qed.

Example async_scan_of_archive :
  Replace.outcome_of
    (Replace.getPos 2048 (Replace.file_read Samples.archive 100)
       Ustar.decode 20 None)
  = Some (Replace.Position 1024).
Proof. vm_compute. reflexivity. Qed.


(** A gzip stream of 600 bytes read 7 bytes at a time. *)
Lemma C7_gzip_archive_is_refused_witness :
  Replace.reads_file Samples.gzipped (Replace.file_read Samples.gzipped 7)
  /\ (exists eS,
        (forall fuel, (0 < fuel)%nat ->
           Replace.replaceSync_scan (N.of_nat (length Samples.gzipped))
             (Replace.file_read Samples.gzipped 7) Ustar.decode fuel None
           = Some (Replace.Threw Replace.compressed_error, eS))
        /\ Replace.mtimeCache eS = None
        /\ Forall Replace.in_first_block (Replace.reads eS)
        /\ (Replace.reads_fully Samples.gzipped
              (Replace.file_read Samples.gzipped 7) ->
            Replace.reads eS = [(0, 512%nat)]))
  /\ (exists eA n,
         (forall fuel, (n <= fuel)%nat ->
            Replace.getPos (N.of_nat (length Samples.gzipped))
              (Replace.file_read Samples.gzipped 7) Ustar.decode fuel None
            = Some (Replace.Threw Replace.compressed_error, eA))
         /\ Replace.mtimeCache eA = None
         /\ Forall Replace.in_first_block (Replace.reads eA)
         /\ (Replace.reads_fully Samples.gzipped
               (Replace.file_read Samples.gzipped 7) ->
             Replace.only_first_read_gets_bytes Samples.gzipped
               (Replace.reads eA))).
Proof.
  split; [apply file_read_reads_file; lia|].
  exact (C7_gzip_archive_is_refused (replicate 598 8)
           (Replace.file_read Samples.gzipped 7) Ustar.decode None
           (file_read_reads_file Samples.gzipped 7 ltac:(lia))).
Defined.

(** With whole reads the blocking scan reads once, and [getPos] reads
    once more at the end of a short file. *)
Example gzip_reads_of_short_file :
  Replace.reads
    <$> (snd <$> Replace.replaceSync_scan 100
                   (Replace.file_read (take 100 Samples.gzipped) 512)
                   Ustar.decode 1 None)
  = Some [(0, 512%nat)]
  /\ Replace.reads
       <$> (snd <$> Replace.getPos 100
                      (Replace.file_read (take 100 Samples.gzipped) 512)
                      Ustar.decode 2 None)
     = Some [(0, 512%nat); (100, 412%nat)].
Proof. vm_compute. split; reflexivity. Qed.

(** C2.  A turn of the blocking scan that advances past an entry
    records its mtime, always.  [getPos], on the complete block of an
    entry it advances past, records the mtime only when the new
    position is still inside the file: for an entry that ends exactly
    where the file ends it calls back with the cache as it was.  On an
    archive of one header of a zero-length file and nothing else (512
    bytes), both scans return 512; [replaceSync] has recorded the
    entry, [getPos] has not. *)
Theorem C2_getPos_leaves_last_entry_out_of_cache :
  (forall (st_size : N) (pread : Z -> nat -> Replace.read_result)
          (decode : list Z -> Header.t) (n : nat) (p : Z)
          (buf buf' : list Z) (e e' : Replace.effects),
      Replace.fill_sync pread 512 p buf 0 e = Some (Replace.FillFull, buf', e') ->
      Header.cksumValid (decode buf') = true ->
      p < Z.of_N st_size ->
      p + Replace.entryBlockSize_sync (decode buf') + 512 <= Z.of_N st_size ->
      Replace.scan_sync st_size pread decode (S n) p buf e
      = Replace.scan_sync st_size pread decode n
          (p + Replace.entryBlockSize_sync (decode buf') + 512) buf'
          (Replace.record_mtime e' (decode buf')))
  /\ (forall (st_size : N) (decode : list Z -> Header.t) (p : Z)
             (buf : list Z) (e : Replace.effects),
         (p =? 0) && Replace.gzip_magic buf = false ->
         Header.cksumValid (decode buf) = true ->
         p + Replace.entryBlockSize_async (decode buf) + 512 = Z.of_N st_size ->
         Replace.onread st_size decode (Replace.mk_closure p 512 buf) e 0
         = (Replace.Cb (Replace.Position (Z.of_N st_size)),
            Replace.mk_closure (Z.of_N st_size) 512 buf, e))
  /\ Replace.outcome_of
       (Replace.replaceSync_scan 512 (Replace.file_read Samples.bare_entry 512)
          Ustar.decode 1 (Some ∅))
     = Some (Replace.Position 512)
  /\ Replace.outcome_of
       (Replace.getPos 512 (Replace.file_read Samples.bare_entry 512)
          Ustar.decode 1 (Some ∅))
     = Some (Replace.Position 512)
  /\ Replace.cached
       (Replace.replaceSync_scan 512 (Replace.file_read Samples.bare_entry 512)
          Ustar.decode 1 (Some ∅)) "a.txt"
     = Some 1000
  /\ Replace.cached
       (Replace.getPos 512 (Replace.file_read Samples.bare_entry 512)
          Ustar.decode 1 (Some ∅)) "a.txt"
     = None.
Proof.
  split; [|split].
  - intros. apply scan_sync_records; assumption.
  - intros st_size decode p buf e Hgz Hvalid Hend.
    rewrite (onread_records st_size decode p buf e Hgz Hvalid) by lia.
    rewrite Hend, Z.ltb_irrefl. reflexivity.
  - vm_compute. repeat split.
Qed.

(** ** The scans on a header that declares a negative size *)

Section BackwardFacts.

Local Abbreviation loop :=
  (Replace.getPos_loop 2048 Backward.pread Backward.decode).










End BackwardFacts.


(** ** Entries: metadata *)

Section MergeFacts.

Variable fields : list string.
Variable types : option Js.value -> option string.
Variable ToNumber_string : string -> Js.number.

Implicit Types (o props : gmap string Js.value) (k : string).

Lemma overlay_lookup o props k :
  Entry.overlay o props !! k = Entry.inherit o k (props !! k).
Proof.
  unfold Entry.overlay, Entry.inherit.
  apply (map_fold_weak_ind
           (fun r (m : gmap string Js.value) =>
              r !! k = match m !! k with
                       | Some val => Some val
                       | None => props !! k
                       end)).
  - rewrite lookup_empty. reflexivity.
  - intros i x m r Hi IH. destruct (decide (i = k)) as [-> | Hne].
    + rewrite !lookup_insert_eq. reflexivity.
    + rewrite !lookup_insert_ne by done. exact IH.
Qed.

Lemma from_header_lookup (l : list string) o :
  forall props k,
    foldl (fun props field =>
             match o !! field with
             | Some val => <[field := val]> props
             | None => props
             end) props l !! k
    = if bool_decide (k ∈ l) then Entry.inherit o k (props !! k)
      else props !! k.
Proof.
  unfold Entry.inherit.
  induction l as [|f l IH]; intros props k; [reflexivity|].
  cbn [foldl]. rewrite IH.
  destruct (decide (k = f)) as [-> | Hne].
  - rewrite (bool_decide_eq_true_2 (f ∈ f :: l)) by apply list_elem_of_here.
    destruct (o !! f) as [val|] eqn:Hf.
    + rewrite lookup_insert_eq. destruct (bool_decide _); reflexivity.
    + destruct (bool_decide _); reflexivity.
  - assert (Hsame : (match o !! f with
                     | Some val => <[f := val]> props
                     | None => props
                     end) !! k = props !! k).
    { destruct (o !! f); [rewrite lookup_insert_ne by done|]; reflexivity. }
    rewrite Hsame.
    destruct (bool_decide (k ∈ l)) eqn:Hl.
    + apply bool_decide_eq_true in Hl.
      rewrite bool_decide_eq_true_2; [reflexivity|].
      apply list_elem_of_further, Hl.
    + apply bool_decide_eq_false in Hl.
      rewrite bool_decide_eq_false_2; [reflexivity|].
      intros Hin. apply elem_of_cons in Hin as [? | ?]; done.
Qed.

Lemma to_dates_lookup_list (l : list string) :
  NoDup l ->
  forall props k,
    foldl (fun props p =>
             match props !! p with
             | Some val => <[p := Entry.date_of ToNumber_string val]> props
             | None => props
             end) props l !! k
    = if bool_decide (k ∈ l)
      then Entry.date_of ToNumber_string <$> props !! k
      else props !! k.
Proof.
  induction 1 as [|p l Hp Hl IH]; intros props k; [reflexivity|].
  cbn [foldl]. rewrite IH.
  destruct (decide (k = p)) as [-> | Hne].
  - rewrite (bool_decide_eq_false_2 (p ∈ l)) by assumption.
    rewrite (bool_decide_eq_true_2 (p ∈ p :: l)) by apply list_elem_of_here.
    destruct (props !! p) as [val|] eqn:Hval.
    + rewrite lookup_insert_eq. reflexivity.
    + rewrite Hval. reflexivity.
  - assert (Hsame : (match props !! p with
                     | Some val => <[p := Entry.date_of ToNumber_string val]> props
                     | None => props
                     end) !! k = props !! k).
    { destruct (props !! p); [rewrite lookup_insert_ne by done|]; reflexivity. }
    rewrite Hsame.
    destruct (bool_decide (k ∈ l)) eqn:Hk.
    + apply bool_decide_eq_true in Hk.
      rewrite bool_decide_eq_true_2; [reflexivity|].
      apply list_elem_of_further, Hk.
    + apply bool_decide_eq_false in Hk.
      rewrite bool_decide_eq_false_2; [reflexivity|].
      intros Hin. apply elem_of_cons in Hin as [? | ?]; done.
Qed.

Lemma date_fields_NoDup : NoDup Entry.date_fields.
Proof.
  unfold Entry.date_fields.
  repeat (apply NoDup_cons; split;
          [rewrite ?elem_of_cons, ?elem_of_nil; intros H;
           repeat destruct H as [H | H]; try discriminate; assumption|]).
  apply NoDup_nil_2.
Qed.

Lemma to_dates_lookup props k :
  Entry.to_dates ToNumber_string props !! k
  = if bool_decide (k ∈ Entry.date_fields)
    then Entry.date_of ToNumber_string <$> props !! k
    else props !! k.
Proof. apply to_dates_lookup_list, date_fields_NoDup. Qed.

Lemma merged_lookup (e : Entry.t) k :
  Entry.merged fields e !! k
  = Entry.inherit (Entry._extended e) k
      (Entry.inherit (Entry._global e) k
         (if bool_decide (k ∈ fields)
          then Entry.inherit (Entry._header e) k (Entry.props e !! k)
          else Entry.props e !! k)).
Proof.
  unfold Entry.merged. cbn [foldl].
  rewrite !overlay_lookup. unfold Entry.from_header.
  rewrite from_header_lookup. reflexivity.
Qed.

End MergeFacts.

(** C9.  [_setProps] merges the three layers it finds in [_header],
    [_global] and [_extended] with precedence extended > global >
    header: for every field, the value after the merge is the extended
    one when it is defined, else the global one when it is defined,
    else, for a field [tar.fields] lists, the header's when it is
    defined, else what [props] held before (nothing, for a new entry).
    [props] then holds the merged value, turned into a date for
    [mtime], [ctime] and [atime]. *)
Theorem C9_merge_precedence_extended_global_header
  (fields : list string) (types : option Js.value -> option string)
  (ToNumber_string : string -> Js.number) (e : Entry.t) (f : string) :
  Entry.merged fields e !! f
  = Entry.inherit (Entry._extended e) f
      (Entry.inherit (Entry._global e) f
         (if bool_decide (f ∈ fields)
          then Entry.inherit (Entry._header e) f (Entry.props e !! f)
          else Entry.props e !! f))
  /\ Entry.props (Entry._setProps fields types ToNumber_string e) !! f
     = if bool_decide (f ∈ Entry.date_fields)
       then Entry.date_of ToNumber_string <$> Entry.merged fields e !! f
       else Entry.merged fields e !! f.
Proof.
  split; [apply merged_lookup|].
  unfold Entry._setProps. cbn [Entry.props Entry.set_props Entry.set_remaining].
  apply to_dates_lookup.
Qed.

(** ** Entries: the type *)

(** C5, as stated, fails: a name without a [case] of its own is not
    reported as unknown. *)
Lemma C5_unlisted_name_is_not_unknown :
  ~ (forall name : string,
       name ∉ Entry.listed_cases ->
       Entry.classify (Some name) = "Unknown"%string).
Proof.
  intros H. specialize (H "File"%string).
  assert (Hnot : "File"%string ∉ Entry.listed_cases).
  { unfold Entry.listed_cases. rewrite !elem_of_cons, elem_of_nil.
    intros Hin. repeat destruct Hin as [Hin | Hin]; try discriminate; assumption. }
  specialize (H Hnot). vm_compute in H. discriminate.
Qed.

(** C5, amended.  The mapping from the type name to the entry type is
    total: no name ([tar.types] has no entry for the flag, or the flag
    is absent) gives [Unknown]; [OldFile] and [ContiguousFile] give
    [File]; [GNUDumpDir] gives [Directory]; every other name, whether
    the switch lists it ([Link], [SymbolicLink], [CharacterDevice],
    [BlockDevice], [Directory], [FIFO]) or not, is passed through
    unchanged by the [default] branch.  This is the type [_setProps]
    gives the entry. *)
Theorem C5_classifier_passes_other_names_through
  (fields : list string) (types : option Js.value -> option string)
  (ToNumber_string : string -> Js.number) :
  Entry.classify None = "Unknown"%string
  /\ Entry.classify (Some "OldFile"%string) = "File"%string
  /\ Entry.classify (Some "ContiguousFile"%string) = "File"%string
  /\ Entry.classify (Some "GNUDumpDir"%string) = "Directory"%string
  /\ (forall name : string,
        name ∉ ["OldFile"; "ContiguousFile"; "GNUDumpDir"]%string ->
        Entry.classify (Some name) = name)
  /\ (forall e : Entry.t,
        Entry.type (Entry._setProps fields types ToNumber_string e)
        = Some (Entry.classify
                  (types (Entry.props
                            (Entry._setProps fields types ToNumber_string e)
                          !! "type"%string)))).
Proof.
  repeat split.
  intros name Hname. rewrite !elem_of_cons, elem_of_nil in Hname.
  unfold Entry.classify.
  destruct (String.eqb_spec name "OldFile"); [tauto|].
  destruct (String.eqb_spec name "ContiguousFile"); [tauto|].
  destruct (String.eqb_spec name "GNUDumpDir"); [tauto|].
  simpl. destruct (_ || _); reflexivity.
Qed.

(** ** Entries: the stream *)

Section StreamFacts.

Variable ToNumber_string : string -> Js.number.
Variable _maxQueueLen : option nat.
Variable error_listener : bool.

Implicit Types (e : Entry.t).

Lemma delivered_app (evs : list Entry.event) (ev : Entry.event) :
  Entry.delivered (evs ++ [ev])
  = (Entry.delivered evs
     + match ev with
       | Entry.EmitData (Some c) => length c
       | _ => 0
       end)%nat.
Proof.
  induction evs as [|a evs IH]; simpl.
  - destruct ev as [| | |[c|]| |]; simpl; lia.
  - destruct a as [| | |[c|]| |]; simpl; rewrite IH; lia.
Qed.

Lemma keeps_refl e : Entry.queue_ok e -> keeps e e.
Proof. intros H. repeat split; apply H. Qed.

Lemma keeps_trans e1 e2 e3 : keeps e1 e2 -> keeps e2 e3 -> keeps e1 e3.
Proof.
  intros (_ & H1 & H2 & H3 & H4) (Hq & H1' & H2' & H3' & H4').
  repeat split; try apply Hq; congruence.
Qed.

Lemma keeps_set_reading (b : bool) e :
  Entry.queue_ok e -> keeps e (Entry.set_reading b e).
Proof. intros H. destruct e. repeat split; apply H. Qed.

Lemma keeps_set_needDrain (b : bool) e :
  Entry.queue_ok e -> keeps e (Entry.set_needDrain b e).
Proof. intros H. destruct e. repeat split; apply H. Qed.

Lemma emit_one_keeps e : Entry.queue_ok e -> keeps e (Entry.emit_one e).
Proof.
  intros [Hlen Hidx]. unfold Entry.emit_one.
  destruct (Nat.ltb_spec (Entry._index e) (Entry._queueLen e)) as [Hlt | Hge];
    [|apply keeps_refl; split; assumption].
  destruct (lookup_lt_is_Some_2 (Entry._queue e) (Entry._index e)) as [c Hc];
    [lia|].
  unfold keeps, flow, Entry.pending, Entry.undelivered, Entry.queue_ok.
  destruct e; simpl in *. rewrite Hc, delivered_app, (drop_S _ _ _ Hc).
  simpl. repeat split; lia.
Qed.

Lemma check_drained_keeps e :
  Entry.queue_ok e -> keeps e (Entry.check_drained e).
Proof.
  intros [Hlen Hidx]. unfold Entry.check_drained.
  destruct (Nat.leb_spec (Entry._queueLen e) (Entry._index e)) as [Hle | Hgt];
    [|apply keeps_refl; split; assumption].
  unfold keeps, flow, Entry.pending, Entry.undelivered, Entry.queue_ok.
  destruct e as [nd pa rd eg ed rem q i ql pr hd ex gl ty pt evs]; simpl in *.
  assert (Hnil : drop i q = []) by (apply drop_ge; lia).
  destruct nd, eg; simpl; rewrite ?delivered_app, Hnil; simpl;
    repeat split; lia.
Qed.

Lemma pluck_keeps e : Entry.queue_ok e -> keeps e (Entry.pluck _maxQueueLen e).
Proof.
  intros [Hlen Hidx]. unfold Entry.pluck.
  destruct _maxQueueLen as [mql|]; [|apply keeps_refl; split; assumption].
  destruct (_ && _); [|apply keeps_refl; split; assumption].
  unfold keeps, flow, Entry.pending, Entry.undelivered, Entry.queue_ok.
  destruct e as [nd pa rd eg ed rem q i ql pr hd ex gl ty pt evs]; simpl in *.
  rewrite drop_drop, length_drop.
  replace (Nat.min i mql + (i - Nat.min i mql))%nat with i by lia.
  repeat split; lia.
Qed.

(** A delivery attempt keeps the queue in order, and every byte of the
    queue either waiting or delivered. *)
Lemma _read_keeps e : Entry.queue_ok e -> keeps e (Entry._read _maxQueueLen e).
Proof.
  intros Hq. unfold Entry._read.
  destruct (_ || _); [apply keeps_refl, Hq|].
  pose proof (keeps_set_reading true e Hq) as H1.
  pose proof (emit_one_keeps _ (proj1 H1)) as H2.
  pose proof (check_drained_keeps _ (proj1 H2)) as H3.
  pose proof (pluck_keeps _ (proj1 H3)) as H4.
  pose proof (keeps_set_reading false _ (proj1 H4)) as H5.
  exact (keeps_trans _ _ _ (keeps_trans _ _ _ (keeps_trans _ _ _
           (keeps_trans _ _ _ H1 H2) H3) H4) H5).
Qed.

Lemma keeps_within (n : Z) e e' : within n e -> keeps e e' -> within n e'.
Proof.
  intros (_ & r & Hr & Hpos & Hsum) (Hq & Hflow & Hrem & _).
  split; [exact Hq|]. exists r. rewrite Hrem, Hflow. auto.
Qed.

Lemma emit_error_within (n : Z) (msg : string) e :
  within n e -> within n (Entry.emit (Entry.EmitError msg) e).
Proof.
  intros (Hq & r & Hr & Hpos & Hsum). unfold within, flow in *.
  unfold Entry.pending, Entry.undelivered, Entry.queue_ok in *.
  destruct e; simpl in *. rewrite delivered_app, Nat.add_0_r. eauto.
Qed.

Lemma write_within (n : Z) e (c : list Z) :
  within n e ->
  within n (Entry.state_of
              (Entry.write ToNumber_string _maxQueueLen error_listener e c)).
Proof.
  intros Hin. unfold Entry.write.
  destruct (Entry._ending e); [exact Hin|].
  destruct (_ && _); [exact Hin|].
  set (e1 := if Entry.is_zero (Entry._remaining e)
             then Entry.emit (Entry.EmitError "invalid bytes past eof") e
             else e).
  assert (Hin1 : within n e1).
  { subst e1. destruct (Entry.is_zero _); [apply emit_error_within|]; exact Hin. }
  clearbody e1. clear Hin e.
  destruct Hin1 as ([Hlen Hidx] & r & Hr & Hpos & Hsum).
  cbv zeta. rewrite Hr. cbn [Entry.ToNumber Js.gt Js.sub Entry.slice0].
  replace (r <? 0) with false by (symmetry; apply Z.ltb_ge; lia).
  set (c' := if Z.of_nat (length c) >? r then take (Z.to_nat r) c else c).
  assert (Hc' : Z.of_nat (length c') <= r).
  { subst c'. destruct (Z.of_nat (length c) >? r) eqn:Hgt.
    - rewrite length_take. lia.
    - rewrite Z.gtb_ltb in Hgt. apply Z.ltb_ge in Hgt. exact Hgt. }
  clearbody c'.
  set (e3 := Entry.set_queue _ _ _ _).
  assert (Hin3 : within n e3).
  { subst e3. unfold within, flow, Entry.pending, Entry.undelivered,
      Entry.queue_ok in *.
    destruct e1 as [nd pa rd eg ed rem q i ql pr hd ex gl ty pt evs];
      simpl in *.
    split; [rewrite length_app; simpl; lia|].
    exists (r - Z.of_nat (length c')). split; [reflexivity|].
    split; [lia|].
    rewrite drop_app_le by lia. rewrite foldr_app. simpl.
    assert (Hfold : forall (l : list (list Z)) (k : nat),
              foldr (fun c n => (length c + n)%nat) k l
              = (foldr (fun c n => (length c + n)%nat) 0%nat l + k)%nat).
    { induction l as [|x l IH]; intros k; simpl; [reflexivity|].
      rewrite IH. lia. }
    rewrite Hfold. lia. }
  pose proof (_read_keeps e3 (proj1 Hin3)) as Hread.
  pose proof (keeps_within n _ _ Hin3 Hread) as Hin4.
  destruct (_ || _); simpl; [|exact Hin4].
  apply (keeps_within n _ _ Hin4), keeps_set_needDrain, (proj1 Hin4).
Qed.

Lemma set_ending_within (n : Z) (b : bool) e :
  within n e -> within n (Entry.set_ending b e).
Proof. intros H. destruct e. exact H. Qed.

Lemma end_within (n : Z) e (c : option (list Z)) :
  within n e ->
  within n (Entry.state_of
              (Entry.end_ ToNumber_string _maxQueueLen error_listener e c)).
Proof.
  intros Hin. unfold Entry.end_.
  assert (Hw : within n
            (Entry.state_of
               match c with
               | Some c => Entry.write ToNumber_string _maxQueueLen error_listener e c
               | None => Entry.Normal true e
               end)).
  { destruct c; [apply write_within|]; exact Hin. }
  destruct (match c with Some _ => _ | None => _ end) as [b e' | msg e'];
    simpl in *; [|exact Hw].
  apply (keeps_within n (Entry.set_ending true e')).
  - apply set_ending_within, Hw.
  - apply _read_keeps. destruct e'. apply Hw.
Qed.

Lemma pause_within (n : Z) e : within n e -> within n (Entry.pause e).
Proof.
  intros (Hq & r & Hr & Hpos & Hsum). unfold within, flow, Entry.pause in *.
  unfold Entry.pending, Entry.undelivered, Entry.queue_ok in *.
  destruct e; simpl in *. rewrite delivered_app, Nat.add_0_r. eauto.
Qed.

Lemma resume_within (n : Z) e :
  within n e -> within n (Entry.resume _maxQueueLen e).2.
Proof.
  intros Hin. unfold Entry.resume. cbn [snd].
  apply (keeps_within n (Entry.set_paused false (Entry.emit Entry.EmitResume e))).
  - destruct Hin as (Hq & r & Hr & Hpos & Hsum). unfold within, flow in *.
    unfold Entry.pending, Entry.undelivered, Entry.queue_ok in *.
    destruct e; simpl in *. rewrite delivered_app, Nat.add_0_r. eauto.
  - apply _read_keeps. destruct Hin as (Hq & _). destruct e. exact Hq.
Qed.

Lemma run_within (n : Z) (ops : list Entry.call) :
  forall e, within n e ->
    within n (Entry.run ToNumber_string _maxQueueLen error_listener e ops).
Proof.
  unfold Entry.run. induction ops as [|op ops IH]; intros e Hin; [exact Hin|].
  cbn [foldl]. apply IH. destruct op; simpl.
  - apply write_within, Hin.
  - apply end_within, Hin.
  - apply pause_within, Hin.
  - apply resume_within, Hin.
Qed.

End StreamFacts.

(** C10.  For an entry whose merged size is a number [n] that is not
    negative, after any sequence of [write], [end], [pause] and
    [resume] calls (those that throw included) the remaining-bytes
    counter is a number [r] with [0 <= r], and [n - r] is exactly the
    number of bytes that entered the queue, each of them delivered in a
    [data] event or still waiting: never more than [n]. *)
Theorem C10_remaining_counter_never_negative
  (fields : list string) (types : option Js.value -> option string)
  (ToNumber_string : string -> Js.number) (_maxQueueLen : option nat)
  (error_listener : bool)
  (header : gmap string Js.value)
  (extended global : option (gmap string Js.value))
  (e0 : Entry.t) (n : Z) (ops : list Entry.call) :
  Entry.Entry fields types ToNumber_string header extended global = inr e0 ->
  Entry.props e0 !! "size"%string = Some (Js.VNumber (Js.Num n)) ->
  0 <= n ->
  exists r,
    Entry._remaining
      (Entry.run ToNumber_string _maxQueueLen error_listener e0 ops)
    = Some (Js.VNumber (Js.Num r))
    /\ 0 <= r
    /\ r
       + Z.of_nat (Entry.delivered
                     (Entry.emitted
                        (Entry.run ToNumber_string _maxQueueLen error_listener
                           e0 ops)))
       + Z.of_nat (Entry.pending
                     (Entry.run ToNumber_string _maxQueueLen error_listener
                        e0 ops))
       = n.
Proof.
  intros Hnew Hsize Hn.
  assert (Hstart : within n e0).
  { unfold Entry.Entry in Hnew.
    destruct (bool_decide _); [|discriminate]. injection Hnew as <-.
    unfold Entry._setProps in *.
    cbn [Entry.props Entry.set_props Entry.set_remaining] in Hsize.
    split; [split; [reflexivity | simpl; lia]|].
    exists n. split; [exact Hsize|]. split; [exact Hn|].
    unfold flow, Entry.pending, Entry.undelivered. simpl. lia. }
  destruct (run_within ToNumber_string _maxQueueLen error_listener n ops e0 Hstart)
    as (_ & r & Hr & Hpos & Hsum).
  exists r. unfold flow in Hsum. repeat split; [exact Hr | exact Hpos | lia].
Qed.

(** The sample entry declares four bytes and is offered seven. *)
Lemma C10_remaining_counter_never_negative_witness :
  exists r,
    Entry._remaining
      (Entry.run EntrySamples.ToNumber_string (Some 1%nat) true
         EntrySamples.entry EntrySamples.calls)
    = Some (Js.VNumber (Js.Num r))
    /\ 0 <= r
    /\ r
       + Z.of_nat (Entry.delivered
                     (Entry.emitted
                        (Entry.run EntrySamples.ToNumber_string (Some 1%nat) true
                           EntrySamples.entry EntrySamples.calls)))
       + Z.of_nat (Entry.pending
                     (Entry.run EntrySamples.ToNumber_string (Some 1%nat) true
                        EntrySamples.entry EntrySamples.calls))
       = 4.
Proof.
  apply (C10_remaining_counter_never_negative EntrySamples.fields
           EntrySamples.types EntrySamples.ToNumber_string (Some 1%nat) true
           EntrySamples.header None None EntrySamples.entry 4
           EntrySamples.calls).
  - vm_compute. reflexivity.
  - vm_compute. reflexivity.
  - lia.
Defined.

Example sample_calls_deliver_four_bytes :
  Entry.emitted
    (Entry.run EntrySamples.ToNumber_string None true
       EntrySamples.entry EntrySamples.calls)
  = [Entry.EmitData (Some [1; 2; 3]); Entry.EmitPause;
     Entry.EmitError "invalid bytes past eof"; Entry.EmitResume;
     Entry.EmitData (Some [4]); Entry.EmitData (Some []);
     Entry.EmitDrain; Entry.EmitEnd].
Proof. vm_compute. reflexivity. Qed.

(** C3, as stated, fails: on the sample entry, paused with two chunks
    queued, [resume()] delivers the first chunk and returns [false]
    although the second is still queued. *)
Lemma C3_resume_false_with_a_chunk_left :
  ~ ((Entry.resume None EntrySamples.paused_with_two_chunks).1 = true
     <-> Entry.undelivered
           (Entry.resume None EntrySamples.paused_with_two_chunks).2 <> []).
Proof.
  intros [_ H].
  assert (Hleft : Entry.undelivered
                    (Entry.resume None EntrySamples.paused_with_two_chunks).2
                  <> [])
    by (vm_compute; discriminate).
  specialize (H Hleft). vm_compute in H. discriminate.
Qed.

(** C3, amended.  On an entry whose queue is in order, [resume()]
    clears the paused flag, makes one delivery attempt ([_read]), and
    returns true if and only if more than one undelivered chunk is left
    in the queue when it returns. *)
Theorem C3_resume_true_iff_two_chunks_left
  (_maxQueueLen : option nat) (e : Entry.t) :
  Entry.queue_ok e ->
  Entry._paused (Entry.resume _maxQueueLen e).2 = false
  /\ (Entry.resume _maxQueueLen e).2
     = Entry._read _maxQueueLen
         (Entry.set_paused false (Entry.emit Entry.EmitResume e))
  /\ Entry.queue_ok (Entry.resume _maxQueueLen e).2
  /\ ((Entry.resume _maxQueueLen e).1 = true
      <-> (1 < length (Entry.undelivered (Entry.resume _maxQueueLen e).2))%nat).
Proof.
  intros Hq. unfold Entry.resume. cbn [fst snd].
  set (e1 := Entry.set_paused false (Entry.emit Entry.EmitResume e)).
  assert (Hq1 : Entry.queue_ok e1) by (subst e1; destruct e; exact Hq).
  destruct (_read_keeps _maxQueueLen e1 Hq1) as ([Hlen Hidx] & _ & _ & Hpaused & _).
  split; [rewrite Hpaused; subst e1; destruct e; reflexivity|].
  split; [reflexivity|]. split; [split; assumption|].
  unfold Entry.undelivered. rewrite length_drop, <- Hlen.
  rewrite Z.gtb_ltb, Z.ltb_lt. lia.
Qed.

Lemma C3_resume_true_iff_two_chunks_left_witness :
  Entry.queue_ok EntrySamples.paused_with_two_chunks
  /\ Entry._paused (Entry.resume None EntrySamples.paused_with_two_chunks).2
     = false
  /\ (Entry.resume None EntrySamples.paused_with_two_chunks).2
     = Entry._read None
         (Entry.set_paused false
            (Entry.emit Entry.EmitResume EntrySamples.paused_with_two_chunks))
  /\ Entry.queue_ok (Entry.resume None EntrySamples.paused_with_two_chunks).2
  /\ ((Entry.resume None EntrySamples.paused_with_two_chunks).1 = true
      <-> (1 < length (Entry.undelivered
                         (Entry.resume None
                            EntrySamples.paused_with_two_chunks).2))%nat).
Proof.
  assert (Hq : Entry.queue_ok EntrySamples.paused_with_two_chunks)
    by (split; vm_compute; [reflexivity | lia]).
  split; [exact Hq|].
  exact (C3_resume_true_iff_two_chunks_left None
           EntrySamples.paused_with_two_chunks Hq).
Defined.

(** C4.  The counter of a constructed entry is whatever [props.size]
    is after the merge, with no default: for a header without a size it
    is [undefined], not 0, and a [global] that holds a key makes the
    constructor throw before anything is merged. *)
Theorem C4_remaining_after_construction :
  (forall (fields : list string) (types : option Js.value -> option string)
          (ToNumber_string : string -> Js.number)
          (header : gmap string Js.value)
          (extended global : option (gmap string Js.value)) (e : Entry.t),
      Entry.Entry fields types ToNumber_string header extended global = inr e ->
      Entry._remaining e = Entry.props e !! "size"%string
      /\ Entry._global e = ∅)
  /\ Entry.remaining_after
       (EntrySamples.new_Entry EntrySamples.header None None)
     = inr (Some (Js.VNumber (Js.Num 4)))
  /\ Entry.remaining_after
       (EntrySamples.new_Entry EntrySamples.header_without_size None None)
     = inr None
  /\ EntrySamples.new_Entry EntrySamples.header None
       (Some EntrySamples.global_size)
     = inl "TypeError: Cannot set properties of undefined"%string.
Proof.
  split.
  - intros fields types ToNumber_string header extended global e Hnew.
    unfold Entry.Entry in Hnew.
    destruct (bool_decide _); [|discriminate]. injection Hnew as <-.
    split; reflexivity.
  - repeat split; vm_compute; reflexivity.
Qed.

(** The sample entry as constructed, and the flow control of [write]. *)
Example sample_entry_fields :
  Entry.type EntrySamples.entry = Some "File"%string
  /\ Entry.path EntrySamples.entry = Some (Js.VString "a.txt")
  /\ Entry.props EntrySamples.entry !! "mtime"%string
     = Some (Js.VDate (Js.Num 1000))
  /\ Entry._remaining EntrySamples.entry = Some (Js.VNumber (Js.Num 4)).
Proof. vm_compute. repeat split. Qed.

Example write_asks_to_wait_while_paused :
  match Entry.write EntrySamples.ToNumber_string None true
          (Entry.pause EntrySamples.entry) [1; 2] with
  | Entry.Normal ok e => ok = false /\ Entry._needDrain e = true
  | Entry.Throw _ _ => False
  end
  /\ match Entry.write EntrySamples.ToNumber_string None true
             EntrySamples.entry [1; 2] with
     | Entry.Normal ok e =>
         ok = true /\ Entry.emitted e = [Entry.EmitData (Some [1; 2])]
     | Entry.Throw _ _ => False
     end.
Proof. vm_compute. repeat split. Qed.

Example write_after_end_throws :
  match Entry.write EntrySamples.ToNumber_string None true
          (Entry.state_of
             (Entry.end_ EntrySamples.ToNumber_string None true
                EntrySamples.entry None)) [1] with
  | Entry.Throw msg _ => msg = "write() after end()"%string
  | Entry.Normal _ _ => False
  end.
Proof. vm_compute. reflexivity. Qed.

(** ** The options check of [replace] *)

Example endsWith_tbr : Replace.endsWith "backup.tbr" ".tbr" = true.
Proof. reflexivity. Qed.

Example endsWith_tar : Replace.endsWith "backup.tar" ".br" = false.
Proof. reflexivity. Qed.

(** C6.  When the destination is not configured, or the list of paths
    is empty, or the [gzip] or [brotli] option is set, or the
    destination ends in [.br] or [.tbr], [replace] throws the
    validator's [TypeError] and no file-system call has been made:
    neither implementation has been entered. *)
Theorem C6_replace_validates_before_io
  (replaceSync replaceAsync : Replace.TarOptions -> list string -> list Replace.fs_call)
  (opt : Replace.TarOptions) (entries : list string) :
  Replace.isFile opt = false
  \/ entries = []
  \/ Replace.gzip opt = true
  \/ Replace.brotli opt = true
  \/ (exists f, Replace.file opt = Some f
                /\ (Replace.endsWith f ".br" = true
                    \/ Replace.endsWith f ".tbr" = true)) ->
  exists msg,
    Replace.validate opt entries = Some msg
    /\ Replace.replace replaceSync replaceAsync opt entries = (Some msg, []).
Proof.
  intros Hbad.
  assert (Hv : exists msg, Replace.validate opt entries = Some msg).
  { unfold Replace.validate.
    destruct (Replace.isFile opt) eqn:Hfile; simpl; [|eauto].
    destruct (Replace.gzip opt) eqn:Hgz; simpl; [eauto|].
    destruct (Replace.brotli opt) eqn:Hbr; simpl; [eauto|].
    destruct (Replace.endsWith _ ".br") eqn:H1; simpl; [eauto|].
    destruct (Replace.endsWith _ ".tbr") eqn:H2; simpl; [eauto|].
    destruct entries as [|p rest]; simpl; [eauto|].
    exfalso.
    destruct Hbad as [H | [H | [H | [H | (f & Hf & H)]]]]; try discriminate.
    rewrite Hf in H1, H2. simpl in H1, H2.
    destruct H as [H | H]; congruence. }
  destruct Hv as (msg & Hv). exists msg. split; [exact Hv|].
  unfold Replace.replace, Replace.makeCommand. rewrite Hv. reflexivity.
Qed.

Lemma C6_replace_validates_before_io_witness :
  exists msg,
    Replace.validate (Replace.mk_options (Some "backup.tbr"%string) true false false)
      ["a.txt"%string]
    = Some msg
    /\ Replace.replace
         (fun _ _ => [Replace.FsOpen "backup.tbr" "r+"; Replace.FsFstat])
         (fun _ _ => [Replace.FsOpen "backup.tbr" "r+"; Replace.FsFstat])
         (Replace.mk_options (Some "backup.tbr"%string) true false false)
         ["a.txt"%string]
       = (Some msg, []).
Proof.
  apply (C6_replace_validates_before_io
           (fun _ _ => [Replace.FsOpen "backup.tbr" "r+"; Replace.FsFstat])
           (fun _ _ => [Replace.FsOpen "backup.tbr" "r+"; Replace.FsFstat])
           (Replace.mk_options (Some "backup.tbr"%string) true false false)
           ["a.txt"%string]).
  right. right. right. right. exists "backup.tbr"%string.
  split; [reflexivity | right; reflexivity].
Defined.

(** With a valid set of options the implementation chosen by [sync]
    runs. *)
Example replace_runs_when_valid :
  Replace.replace
    (fun _ _ => [Replace.FsOpen "backup.tar" "r+"; Replace.FsFstat])
    (fun _ _ => [])
    (Replace.mk_options (Some "backup.tar"%string) true false false)
    ["a.txt"%string]
  = (None, [Replace.FsOpen "backup.tar" "r+"; Replace.FsFstat]).
Proof. reflexivity. Qed.

(** ** An offset of the blocking scan is the offset of [getPos]

    Whatever the decoder declares (no assumption on sizes): when the
    blocking scan returns an offset, [getPos] calls back with the same
    offset, and the cache it leaves is the cache of the blocking scan
    but for the mtime of at most one entry, the last one, which is
    missing only when the offset is at or past the end of the file. *)
Theorem sync_offset_is_getPos_offset
  (st_size : N) (pread : Z -> nat -> Replace.read_result)
  (decode : list Z -> Header.t) (cache : option (gmap string Z))
  (fuel : nat) (a : Z) (eS : Replace.effects) :
  Replace.replaceSync_scan st_size pread decode fuel cache
  = Some (Replace.Position a, eS) ->
  exists eA n last,
    (forall fuel', (n <= fuel')%nat ->
       Replace.getPos st_size pread decode fuel' cache
       = Some (Replace.Position a, eA))
    /\ Replace.mtimeCache eS
       = Replace.mtimeCache (Replace.recorded last eA)
    /\ (last = None \/ Z.of_N st_size <= a).
Proof.
  unfold Replace.replaceSync_scan, Replace.getPos. intros Hsync.
  destruct (N.eqb_spec st_size 0) as [Hzero | Hpos].
  - rewrite scan_sync_eq in Hsync. subst st_size. simpl in Hsync.
    injection Hsync as <- <-.
    exists (Replace.mk_effects cache []), 0%nat, None.
    split; [reflexivity|]. split; [reflexivity | left; reflexivity].
  - destruct (scan_sim st_size pread decode fuel 0 (Replace.alloc 512)
                (Replace.mk_effects cache []) (Replace.Position a) eS
                (length_alloc 512) ltac:(lia) Hsync (Replace.mk_effects cache []))
      as (m & eA & Hm & Hlast).
    destruct (Hlast eq_refl) as (last & Hcache & Hwhen).
    exists eA, m, last. split; [exact Hm|]. split; assumption.
Qed.

Lemma sync_offset_is_getPos_offset_witness :
  exists eA n last,
    (forall fuel', (n <= fuel')%nat ->
       Replace.getPos 512 (Replace.file_read Samples.bare_entry 64) Ustar.decode
         fuel' (Some ∅)
       = Some (Replace.Position 512, eA))
    /\ Some (<["a.txt"%string := 1000]> (∅ : gmap string Z))
       = Replace.mtimeCache (Replace.recorded last eA)
    /\ (last = None \/ Z.of_N 512 <= 512).
Proof.
  eapply (sync_offset_is_getPos_offset 512
            (Replace.file_read Samples.bare_entry 64) Ustar.decode (Some ∅)
            1 512 (Replace.mk_effects _ _)).
  vm_compute. reflexivity.
Defined.

(** ** The filter [list] runs with *)

Section ListingFilterFacts.

Variable requested : list string.
Variable user : option (string -> bool).

(** Calls of the installed predicate keep the memo sound and answer the
    caller's filter and the inclusion rule together. *)
Lemma filtered_ok (paths : list string) :
  forall m, memo_ok requested m ->
    exists m',
      Listing.filtered user m paths
      = Some (m',
              (fun p => Listing.admits user p
                        && Filter.included_spec requested
                             (Filter.stripTrailingSlashes p)) <$> paths)
      /\ memo_ok requested m'.
Proof.
  induction paths as [|p rest IH]; intros m Hm; cbn [Listing.filtered].
  - exists m. split; [reflexivity | assumption].
  - assert (Hstep : exists m1,
              Filter.filter user m p
              = Some (m1, Listing.admits user p
                          && Filter.included_spec requested
                               (Filter.stripTrailingSlashes p))
              /\ memo_ok requested m1).
    { unfold Filter.filter, Listing.admits.
      destruct (included_ok requested m (Filter.stripTrailingSlashes p) Hm)
        as (m1 & Hinc & Hm1).
      destruct user as [f|].
      - destruct (f p).
        + exists m1. split; assumption.
        + exists m. split; [reflexivity | assumption].
      - exists m1. split; assumption. }
    destruct Hstep as (m1 & -> & Hm1). cbn [mbind option_bind fst snd].
    destruct (IH m1 Hm1) as (m' & -> & Hm'). cbn [mbind option_bind fst snd].
    exists m'. split; [reflexivity | assumption].
Qed.

End ListingFilterFacts.

(** A walk of [mapHas] only adds to the memo. *)
Lemma mapHas_grows (fuel : nat) :
  forall (m : gmap string bool) (file r : string) m' (b : bool),
    Filter.mapHas fuel m file r = Some (m', b) ->
    m' !! file = Some b
    /\ forall q, is_Some (m !! q) -> is_Some (m' !! q).
Proof.
  induction fuel as [|fuel IH]; intros m file r m' b; rewrite mapHas_eq;
    cbv zeta.
  - destruct (String.eqb file _); [|destruct (m !! file) as [v|] eqn:Hv];
      cbn [mbind option_bind fst snd]; try discriminate;
      intros [= <- <-]; (split; [apply lookup_insert_eq|]);
      intros q Hq; (destruct (decide (file = q)) as [-> | Hne];
        [rewrite lookup_insert_eq; eauto | rewrite lookup_insert_ne by done; exact Hq]).
  - destruct (String.eqb file _); [|destruct (m !! file) as [v|] eqn:Hv];
      cbn [mbind option_bind fst snd].
    1,2: intros [= <- <-]; (split; [apply lookup_insert_eq|]);
      intros q Hq; (destruct (decide (file = q)) as [-> | Hne];
        [rewrite lookup_insert_eq; eauto | rewrite lookup_insert_ne by done; exact Hq]).
    destruct (Filter.mapHas fuel m (Path.dirname file) _) as [[m1 b1]|] eqn:Hup;
      cbn [mbind option_bind fst snd]; [|discriminate].
    intros [= <- <-]. split; [apply lookup_insert_eq|].
    intros q Hq. apply IH in Hup as [_ Hdom].
    destruct (decide (file = q)) as [-> | Hne];
      [rewrite lookup_insert_eq; eauto | rewrite lookup_insert_ne by done; auto].
Qed.

(** The predicate [filesFilter] installs, called on any sequence of
    paths: each call terminates and answers the conjunction of the
    caller's own filter (when one was configured; it is given the path
    as it came) and the inclusion rule on the path with its trailing
    separators stripped.  A path the caller's filter admits is still
    excluded when neither it nor an ancestor was requested. *)
Theorem installed_filter_is_caller_filter_and_inclusion
  (user : option (string -> bool)) (files paths : list string) :
  snd <$> Listing.filtered user (Filter.initial_map files) paths
  = Some ((fun p =>
             Listing.admits user p
             && Filter.included_spec (Filter.stripTrailingSlashes <$> files)
                  (Filter.stripTrailingSlashes p)) <$> paths).
Proof.
  destruct (filtered_ok (Filter.stripTrailingSlashes <$> files) user paths
              (Filter.initial_map files) (initial_map_ok files))
    as (m' & -> & _).
  reflexivity.
Qed.

(** The walk of [mapHas] ends, whatever the map holds: every step up
    reaches the root or a shorter path. *)
Lemma mapHas_total (fuel : nat) :
  forall (m : gmap string bool) (file r : string),
    r = ""%string \/ r = Filter.root_of file ->
    (String.length file < fuel)%nat \/ file = Filter.root_of file ->
    exists m' b, Filter.mapHas fuel m file r = Some (m', b).
Proof.
  induction fuel as [|fuel IH]; intros m file r Hr Hfuel;
    rewrite mapHas_eq; cbv zeta; rewrite (or_else_root r file Hr);
    destruct (String.eqb_spec file (Filter.root_of file)) as [Hroot | Hne];
    try (simpl; eauto).
  - destruct Hfuel as [Hlt | Hroot]; [lia | congruence].
  - destruct Hfuel as [Hlt | Hroot]; [|congruence].
    destruct (m !! file) as [b|]; [simpl; eauto|].
    destruct (IH m (Path.dirname file) (Filter.root_of file))
      as (m1 & b1 & ->).
    { right. symmetry. apply root_of_dirname. }
    { destruct (dirname_shrinks file) as [Hd | Hd].
      - right. rewrite root_of_dirname. exact Hd.
      - left. lia. }
    simpl. eauto.
Qed.

(** What a probe leaves in the memo map, whatever the map held before:
    the probe terminates; the probed path is bound to the answer, every
    path bound before is still bound, and asking again answers the same
    from the map, with no walk (no fuel) and no change to the map. *)
Theorem probe_is_memoised (m : gmap string bool) (p : string) :
  exists (m' : gmap string bool) (b : bool),
    Filter.included m p = Some (m', b)
    /\ m' !! p = Some b
    /\ (forall q, is_Some (m !! q) -> is_Some (m' !! q))
    /\ Filter.mapHas 0 m' p "" = Some (m', b).
Proof.
  unfold Filter.included.
  destruct (mapHas_total (S (String.length p)) m p "")
    as (m' & b & Hrun); [left; reflexivity | left; lia|].
  exists m', b. split; [exact Hrun|].
  destruct (mapHas_grows _ _ _ _ _ _ Hrun) as [Hp Hdom].
  split; [exact Hp|]. split; [exact Hdom|].
  rewrite mapHas_eq. cbv zeta.
  destruct (String.eqb_spec p (Filter.or_else "" (Filter.root_of p)))
    as [Hroot | Hne]; cbn [mbind option_bind fst snd].
  - (* the root answers false, which is what the first probe stored *)
    assert (Hb : b = false).
    { rewrite mapHas_eq in Hrun. cbv zeta in Hrun.
      destruct (String.eqb_spec p (Filter.or_else "" (Filter.root_of p)));
        [|contradiction].
      cbn [mbind option_bind fst snd] in Hrun. congruence. }
    subst b. rewrite insert_id by exact Hp. reflexivity.
  - rewrite Hp. cbn [mbind option_bind fst snd].
    rewrite insert_id by exact Hp. reflexivity.
Qed.

(** With ["a/b/"] requested, a probe of ["a/b/c"] binds it. *)
Example probe_of_a_descendant :
  Filter.included (Filter.initial_map ["a/b/"%string]) "a/b/c"
  = Some (<["a/b/c"%string := true]> (<["a/b"%string := true]> ∅), true).
Proof. vm_compute. reflexivity. Qed.

(** With no path requested, the predicate [filesFilter] installs
    excludes every path, whatever the caller's own filter says (the
    setup of [list] installs it only for a list of files that is not
    empty). *)
Theorem filter_for_no_paths_excludes_everything
  (user : option (string -> bool)) (paths : list string) :
  snd <$> Listing.filtered user (Filter.initial_map []) paths
  = Some ((fun _ => false) <$> paths).
Proof.
  destruct (filtered_ok [] user paths (Filter.initial_map [])
              (initial_map_ok [])) as (m' & -> & _).
  cbn [fmap option_fmap option_map snd]. f_equal.
  apply list_fmap_ext. intros i p _.
  rewrite andb_comm.
  unfold Filter.included_spec.
  assert (Hnone : forall l : list string,
            existsb (fun a => bool_decide (a ∈ ([] : list string))) l = false).
  { induction l as [|a l IH]; cbn [existsb]; [reflexivity|].
    rewrite IH, bool_decide_eq_false_2; [reflexivity | apply not_elem_of_nil]. }
  rewrite Hnone. reflexivity.
Qed.

(** ** The scan of a regular file, block by block *)

Section BlockFacts.

Variable content : list Z.
Variable pread : Z -> nat -> Replace.read_result.
Variable decode : list Z -> Header.t.

Local Abbreviation st_size := (N.of_nat (length content)).
Local Abbreviation block_at := (Blocks.block_at content).
Local Abbreviation holds_block := (Blocks.holds_block content).

Lemma length_block_at (p : Z) :
  length (block_at p) = Nat.min 512 (length content - Z.to_nat p).
Proof. unfold Blocks.block_at. rewrite length_take, length_drop. reflexivity. Qed.

Lemma lookup_block_at (p : Z) (i : nat) :
  (i < 512)%nat -> block_at p !! i = content !! (Z.to_nat p + i)%nat.
Proof.
  intros Hi. unfold Blocks.block_at.
  rewrite lookup_take_lt by lia. apply lookup_drop.
Qed.

Lemma gzip_magic_length (l : list Z) :
  Replace.gzip_magic l = true -> (2 <= length l)%nat.
Proof.
  unfold Replace.gzip_magic, Replace.byte_is. intros H.
  apply andb_true_iff in H as [_ H].
  destruct (l !! 1%nat) as [x|] eqn:Hx; [|discriminate].
  apply lookup_lt_Some in Hx. lia.
Qed.

(** Once two bytes of the first block are in, the buffer shows the
    magic bytes exactly when the file starts with them. *)
Lemma holds_block_magic (buf : list Z) (b : nat) :
  holds_block 0 buf b -> (2 <= b)%nat ->
  Replace.gzip_magic buf = Replace.gzip_magic (block_at 0).
Proof.
  intros Hpre Hb. unfold Replace.gzip_magic, Replace.byte_is.
  rewrite (Hpre 0%nat), (Hpre 1%nat) by lia.
  rewrite !lookup_block_at by lia. reflexivity.
Qed.

(** One read of the inner loop on a regular file. *)
Lemma fs_read_block (p : Z) (buf : list Z) (b : nat) :
  Replace.reads_file content pread -> 0 <= p ->
  length buf = 512%nat -> (b < 512)%nat ->
  (Z.to_nat p + b <= length content)%nat ->
  holds_block p buf b ->
  exists buf1 bytes,
    Replace.fs_read pread buf b (512 - b) (p + Z.of_nat b) = inr (buf1, bytes)
    /\ length buf1 = 512%nat
    /\ (b + bytes <= 512)%nat
    /\ (Z.to_nat p + (b + bytes) <= length content)%nat
    /\ holds_block p buf1 (b + bytes)
    /\ ((Z.to_nat p + b < length content)%nat -> (0 < bytes)%nat)
    /\ (bytes = 0%nat -> buf1 = buf)
    /\ (zeros_from b buf -> zeros_from (b + bytes) buf1).
Proof.
  intros Hfile Hp Hlen Hb Hbc Hpre.
  destruct (Hfile (p + Z.of_nat b) (512 - b)%nat ltac:(lia))
    as (n & Hread & Hpos).
  replace (Z.to_nat (p + Z.of_nat b)) with (Z.to_nat p + b)%nat in * by lia.
  unfold Replace.fs_read. rewrite Hread.
  rewrite take_take.
  set (m := Nat.min (512 - b) n).
  set (P := Z.to_nat p) in *.
  assert (Hgot : length (take m (drop (P + b) content))
                 = Nat.min m (length content - (P + b)))
    by (rewrite length_take, length_drop; reflexivity).
  eexists _, _. split; [reflexivity|].
  rewrite Hgot. repeat split.
  - rewrite length_blit; lia.
  - lia.
  - lia.
  - intros i Hi. destruct (lt_dec i b) as [Hlt | Hge].
    + rewrite lookup_blit_lt by lia. apply Hpre, Hlt.
    + replace i with (b + (i - b))%nat at 1 by lia.
      rewrite lookup_blit_data by lia.
      rewrite lookup_take_lt by lia.
      rewrite lookup_drop. f_equal. lia.
  - intros Hlt. specialize (Hpos ltac:(lia) Hlt). lia.
  - intros Hzero.
    assert (Hnil : take m (drop (P + b) content) = []).
    { apply length_zero_iff_nil. lia. }
    rewrite Hnil. apply blit_nil.
  - intros Hz. rewrite <- Hgot. apply zeros_from_blit; [lia | exact Hz].
Qed.

(** The inner loop of [replaceSync] on a regular file: however the
    reads are cut, it throws when the file starts with the magic bytes,
    breaks when the file ends inside the block, and otherwise leaves the
    whole block in the buffer. *)
Lemma fill_sync_block (k : nat) :
  Replace.reads_file content pread ->
  forall (p : Z) (buf : list Z) (b : nat) e ex buf' e',
    0 <= p -> length buf = 512%nat -> (b < 512)%nat ->
    (Z.to_nat p + b <= length content)%nat ->
    holds_block p buf b ->
    (p = 0 -> zeros_from b buf) ->
    Replace.fill_sync pread k p buf b e = Some (ex, buf', e') ->
    match ex with
    | Replace.FillThrew er =>
        er = Replace.compressed_error
        /\ (p =? 0) && Replace.gzip_magic (block_at p) = true
    | Replace.FillBreak =>
        (length (block_at p) < 512)%nat
        /\ (p =? 0) && Replace.gzip_magic (block_at p) = false
    | Replace.FillFull =>
        buf' = block_at p
        /\ length (block_at p) = 512%nat
        /\ (p =? 0) && Replace.gzip_magic (block_at p) = false
    end.
Proof.
  intros Hfile.
  induction k as [|k IH]; intros p buf b e ex buf' e' Hp Hlen Hb Hbc Hpre Hz;
    rewrite fill_sync_eq; apply Nat.ltb_lt in Hb as Hb'; rewrite Hb';
    [discriminate|].
  cbv zeta.
  destruct (fs_read_block p buf b Hfile Hp Hlen Hb Hbc Hpre)
    as (buf1 & bytes & -> & Hlen1 & Hle & Hbc1 & Hpre1 & Hpos & Hsame & Hz1).
  destruct ((p =? 0) && Replace.gzip_magic buf1) eqn:Hgz.
  { intros [= <- <- <-]. split; [reflexivity|].
    apply andb_true_iff in Hgz as [Hp0 Hgz].
    rewrite Hp0. apply Z.eqb_eq in Hp0. subst p. simpl.
    assert (Hfilled : (2 <= b + bytes)%nat).
    { apply (gzip_magic_filled buf1); [lia | auto | assumption]. }
    rewrite <- (holds_block_magic buf1 (b + bytes) Hpre1 Hfilled).
    exact Hgz. }
  destruct (Nat.eqb_spec bytes 0) as [Hzero | Hnz].
  { intros [= <- <- <-].
    assert (Hend : (length content <= Z.to_nat p + b)%nat).
    { destruct (le_lt_dec (length content) (Z.to_nat p + b)) as [|Hlt];
        [assumption|]. specialize (Hpos Hlt). lia. }
    split; [rewrite length_block_at; lia|].
    destruct (Z.eqb_spec p 0) as [-> | _]; [|reflexivity]. simpl in *.
    destruct (Replace.gzip_magic (block_at 0)) eqn:Hmagic; [|reflexivity].
    apply gzip_magic_length in Hmagic as Hlong.
    rewrite length_block_at in Hlong.
    rewrite (holds_block_magic buf1 (b + bytes) Hpre1) in Hgz by lia.
    congruence. }
  destruct (lt_dec (b + bytes) 512) as [Hlt | Hge].
  - intros Hrun.
    eapply (IH p buf1 (b + bytes)%nat); eauto.
  - assert (Hfull : (b + bytes = 512)%nat) by lia.
    rewrite fill_sync_eq.
    replace (b + bytes <? 512)%nat with false
      by (symmetry; apply Nat.ltb_ge; lia).
    intros [= <- <- <-].
    assert (Hblock : buf1 = block_at p).
    { apply list_eq. intros i.
      destruct (lt_dec i 512) as [Hi | Hi].
      - rewrite lookup_block_at by assumption. apply Hpre1. lia.
      - rewrite !lookup_ge_None_2; [reflexivity | |];
          rewrite ?length_block_at; lia. }
    split; [exact Hblock|]. split; [rewrite length_block_at; lia|].
    rewrite <- Hblock. exact Hgz.
Qed.

Lemma locate_eq (fuel : nat) (position : Z) :
  Blocks.locate decode content fuel position
  = if position <? Z.of_nat (length content) then
      match fuel with
      | O => None
      | S fuel' =>
          let block := block_at position in
          if (position =? 0) && Replace.gzip_magic block then
            Some (Replace.Threw Replace.compressed_error, [])
          else if (length block <? 512)%nat then
            Some (Replace.Position position, [])
          else
            let h := decode block in
            if negb (Header.cksumValid h) then
              Some (Replace.Position position, [])
            else
              if position + Replace.entryBlockSize_sync h + 512
                 >? Z.of_nat (length content)
              then Some (Replace.Position position, [])
              else
                r ← Blocks.locate decode content fuel'
                      (position + Replace.entryBlockSize_sync h + 512);
                Some (r.1, h :: r.2)
      end
    else Some (Replace.Position position, []).
Proof. destruct fuel; reflexivity. Qed.

Lemma foldl_record_cache (passed : list Header.t) :
  forall e1 e2,
    Replace.mtimeCache e1 = Replace.mtimeCache e2 ->
    Replace.mtimeCache (foldl Replace.record_mtime e1 passed)
    = Replace.mtimeCache (foldl Replace.record_mtime e2 passed).
Proof.
  induction passed as [|h passed IH]; intros e1 e2 Heq; simpl; [exact Heq|].
  apply IH, record_mtime_cache, Heq.
Qed.

(** The [POSITION] loop of [replaceSync] on a regular file decides as
    [Blocks.locate] does, with the same fuel, and records the mtimes of
    the entries it advances past. *)
Lemma scan_sync_blocks (n : nat) :
  Replace.reads_file content pread -> Replace.sizes_nonneg decode ->
  forall (p : Z) (buf : list Z) e,
    0 <= p -> length buf = 512%nat -> (p = 0 -> zeros_from 0 buf) ->
    match Blocks.locate decode content n p with
    | Some (o, passed) =>
        exists e',
          Replace.scan_sync st_size pread decode n p buf e = Some (o, e')
          /\ Replace.mtimeCache e'
             = Replace.mtimeCache (foldl Replace.record_mtime e passed)
    | None => Replace.scan_sync st_size pread decode n p buf e = None
    end.
Proof.
  intros Hfile Hsz.
  induction n as [|n IH]; intros p buf e Hp Hlen Hz;
    rewrite locate_eq, scan_sync_eq, nat_N_Z;
    destruct (Z.ltb_spec p (Z.of_nat (length content))) as [Hlt | Hge];
    try reflexivity;
    try (exists e; split; reflexivity).
  destruct (fill_sync_total pread 512 p buf 0 e Hlen ltac:(lia) ltac:(lia))
    as (ex & buf' & e1 & Hfill & Hlen').
  rewrite Hfill.
  pose proof (fill_sync_cache _ _ _ _ _ _ _ _ _ Hfill) as Hcache.
  pose proof (fill_sync_block 512 Hfile p buf 0 e ex buf' e1 Hp Hlen
                ltac:(lia) ltac:(lia) ltac:(intros i Hi; lia) Hz Hfill)
    as Hblock.
  cbv zeta.
  destruct ex.
  - destruct Hblock as [-> ->]. exists e1. split; [reflexivity | exact Hcache].
  - destruct Hblock as [Hshort ->]. apply Nat.ltb_lt in Hshort.
    rewrite Hshort. exists e1. split; [reflexivity | exact Hcache].
  - destruct Hblock as (-> & Hwhole & ->).
    replace (length (block_at p) <? 512)%nat with false
      by (symmetry; apply Nat.ltb_ge; lia).
    set (h := decode (block_at p)).
    destruct (negb (Header.cksumValid h));
      [exists e1; split; [reflexivity | exact Hcache]|].
    destruct (_ >? _);
      [exists e1; split; [reflexivity | exact Hcache]|].
    pose proof (entryBlockSize_nonneg decode (block_at p) Hsz) as Hebs.
    rewrite <- entryBlockSize_same in Hebs. fold h in Hebs.
    specialize (IH (p + Replace.entryBlockSize_sync h + 512) (block_at p)
                  (Replace.record_mtime e1 h) ltac:(lia) Hlen' ltac:(lia)).
    destruct (Blocks.locate decode content n _) as [[o passed]|];
      cbn [mbind option_bind fst snd].
    + destruct IH as (e' & -> & Hcache').
      exists e'. split; [reflexivity|].
      rewrite Hcache'. cbn [foldl].
      apply foldl_record_cache, record_mtime_cache, Hcache.
    + exact IH.
Qed.

(** One turn of the [POSITION] loop of [replaceSync] on a regular file,
    whatever the sizes the decoder declares: it decides on the whole
    block at its position. *)
Lemma scan_sync_turn (n : nat) (p : Z) (buf : list Z) e :
  Replace.reads_file content pread ->
  0 <= p < Z.of_nat (length content) ->
  length buf = 512%nat -> (p = 0 -> zeros_from 0 buf) ->
  exists e1,
    Replace.scan_sync st_size pread decode (S n) p buf e
    = if (p =? 0) && Replace.gzip_magic (block_at p) then
        Some (Replace.Threw Replace.compressed_error, e1)
      else if (length (block_at p) <? 512)%nat then
        Some (Replace.Position p, e1)
      else if negb (Header.cksumValid (decode (block_at p))) then
        Some (Replace.Position p, e1)
      else if p + Replace.entryBlockSize_sync (decode (block_at p)) + 512
              >? Z.of_nat (length content)
      then Some (Replace.Position p, e1)
      else
        Replace.scan_sync st_size pread decode n
          (p + Replace.entryBlockSize_sync (decode (block_at p)) + 512)
          (block_at p) (Replace.record_mtime e1 (decode (block_at p))).
Proof.
  intros Hfile [Hp Hlt] Hlen Hz.
  rewrite scan_sync_eq, nat_N_Z.
  replace (p <? Z.of_nat (length content)) with true
    by (symmetry; apply Z.ltb_lt; exact Hlt).
  destruct (fill_sync_total pread 512 p buf 0 e Hlen ltac:(lia) ltac:(lia))
    as (ex & buf' & e1 & Hfill & Hlen').
  rewrite Hfill.
  pose proof (fill_sync_block 512 Hfile p buf 0 e ex buf' e1 Hp Hlen
                ltac:(lia) ltac:(lia) ltac:(intros i Hi; lia) Hz Hfill)
    as Hblock.
  exists e1. cbv zeta.
  destruct ex.
  - destruct Hblock as [-> ->]. reflexivity.
  - destruct Hblock as [Hshort ->]. apply Nat.ltb_lt in Hshort.
    rewrite Hshort. reflexivity.
  - destruct Hblock as (-> & Hwhole & ->).
    replace (length (block_at p) <? 512)%nat with false
      by (symmetry; apply Nat.ltb_ge; lia).
    reflexivity.
Qed.

End BlockFacts.

(** ** What the two scans share *)

Section ScanShape.

Variable st_size : N.
Variable pread : Z -> nat -> Replace.read_result.
Variable decode : list Z -> Header.t.

(** Whatever the blocking scan ends with, [getPos] ends alike, given
    sizes that are byte counts. *)
Lemma getPos_follows_sync (cache : option (gmap string Z)) (fuel : nat)
  (oS : Replace.outcome) (eS : Replace.effects) :
  Replace.sizes_nonneg decode ->
  Replace.replaceSync_scan st_size pread decode fuel cache = Some (oS, eS) ->
  exists oA eA n,
    (forall fuel', (n <= fuel')%nat ->
       Replace.getPos st_size pread decode fuel' cache = Some (oA, eA))
    /\ Replace.same_outcome oS oA
    /\ (forall er, oS = Replace.Threw er -> exists er', oA = Replace.Threw er')
    /\ (forall a, oS = Replace.Position a -> oA = Replace.Position a).
Proof.
  intros Hsz. unfold Replace.replaceSync_scan, Replace.getPos. intros Hsync.
  destruct (N.eqb_spec st_size 0) as [Hzero | Hpos].
  - rewrite scan_sync_eq in Hsync. subst st_size. simpl in Hsync.
    injection Hsync as <- <-.
    exists (Replace.Position 0), (Replace.mk_effects cache []), 0%nat.
    split; [reflexivity|]. split; [reflexivity|].
    split; [discriminate | auto].
  - pose proof (scan_sim st_size pread decode fuel 0 (Replace.alloc 512)
                  (Replace.mk_effects cache []) oS eS (length_alloc 512)
                  ltac:(lia) Hsync (Replace.mk_effects cache [])) as Hsim.
    destruct oS as [a | er].
    + destruct Hsim as (m & eA & Hm & _).
      exists (Replace.Position a), eA, m.
      split; [exact Hm|]. split; [reflexivity|].
      split; [discriminate | auto].
    + destruct Hsim as (m & er' & eA & Hm);
        [assumption | lia | intros _; apply zeros_from_alloc|].
      exists (Replace.Threw er'), eA, m.
      split; [exact Hm|]. split; [exact I|].
      split; [eauto | discriminate].
Qed.

(** An offset the blocking scan returns is the offset [getPos] calls
    back with, whatever the sizes the decoder declares. *)
Lemma getPos_follows_offset (cache : option (gmap string Z)) (fuel : nat)
  (a : Z) (eS : Replace.effects) :
  Replace.replaceSync_scan st_size pread decode fuel cache
  = Some (Replace.Position a, eS) ->
  exists eA n,
    forall fuel', (n <= fuel')%nat ->
      Replace.getPos st_size pread decode fuel' cache
      = Some (Replace.Position a, eA).
Proof.
  unfold Replace.replaceSync_scan, Replace.getPos. intros Hsync.
  destruct (N.eqb_spec st_size 0) as [Hzero | Hpos].
  - rewrite scan_sync_eq in Hsync. subst st_size. simpl in Hsync.
    injection Hsync as <- <-.
    exists (Replace.mk_effects cache []), 0%nat. reflexivity.
  - pose proof (scan_sim st_size pread decode fuel 0 (Replace.alloc 512)
                  (Replace.mk_effects cache []) (Replace.Position a) eS
                  (length_alloc 512) ltac:(lia) Hsync
                  (Replace.mk_effects cache [])) as Hsim.
    destruct Hsim as (m & eA & Hm & _).
    exists eA, m. exact Hm.
Qed.

End ScanShape.

(** On a regular file, whatever the length of each read, the offset
    both scans give (or their failure) is a function of the bytes of the
    file alone: the decisions taken on the whole 512-byte blocks at the
    positions visited.  The blocking scan needs exactly the fuel of that
    function and leaves in the cache the mtimes of the entries advanced
    past; [getPos] ends alike. *)
Theorem scans_decide_on_whole_blocks
  (content : list Z) (pread : Z -> nat -> Replace.read_result)
  (decode : list Z -> Header.t) (cache : option (gmap string Z))
  (fuel : nat) :
  Replace.reads_file content pread ->
  Replace.sizes_nonneg decode ->
  match Blocks.locate decode content fuel 0 with
  | Some (o, passed) =>
      (exists eS,
         Replace.replaceSync_scan (N.of_nat (length content)) pread decode
           fuel cache = Some (o, eS)
         /\ Replace.mtimeCache eS = Blocks.cached cache passed)
      /\ exists oA eA n,
          (forall fuel', (n <= fuel')%nat ->
             Replace.getPos (N.of_nat (length content)) pread decode fuel'
               cache = Some (oA, eA))
          /\ Replace.same_outcome o oA
  | None =>
      Replace.replaceSync_scan (N.of_nat (length content)) pread decode
        fuel cache = None
  end.
Proof.
  intros Hfile Hsz.
  pose proof (scan_sync_blocks content pread decode fuel Hfile Hsz 0
                (Replace.alloc 512) (Replace.mk_effects cache [])
                ltac:(lia) (length_alloc 512)
                ltac:(intros _; apply zeros_from_alloc)) as Hscan.
  destruct (Blocks.locate decode content fuel 0) as [[o passed]|];
    [|exact Hscan].
  destruct Hscan as (eS & Hsync & Hcache).
  split; [exists eS; split; assumption|].
  destruct (getPos_follows_sync _ pread decode cache fuel o eS Hsz Hsync)
    as (oA & eA & n & Hasync & Hsame & _).
  exists oA, eA, n. split; assumption.
Qed.

(** The sample archive read 100 bytes at a time. *)
Lemma scans_decide_on_whole_blocks_witness :
  Replace.reads_file Samples.archive (Replace.file_read Samples.archive 100)
  /\ Replace.sizes_nonneg Ustar.decode
  /\ match Blocks.locate Ustar.decode Samples.archive 3 0 with
     | Some (o, passed) =>
         (exists eS,
            Replace.replaceSync_scan (N.of_nat (length Samples.archive))
              (Replace.file_read Samples.archive 100) Ustar.decode 3 (Some ∅)
            = Some (o, eS)
            /\ Replace.mtimeCache eS = Blocks.cached (Some ∅) passed)
         /\ exists oA eA n,
             (forall fuel', (n <= fuel')%nat ->
                Replace.getPos (N.of_nat (length Samples.archive))
                  (Replace.file_read Samples.archive 100) Ustar.decode fuel'
                  (Some ∅) = Some (oA, eA))
             /\ Replace.same_outcome o oA
     | None =>
         Replace.replaceSync_scan (N.of_nat (length Samples.archive))
           (Replace.file_read Samples.archive 100) Ustar.decode 3 (Some ∅)
         = None
     end.
Proof.
  split; [apply file_read_reads_file; lia|].
  split; [exact ustar_sizes_nonneg|].
  apply (scans_decide_on_whole_blocks Samples.archive
           (Replace.file_read Samples.archive 100) Ustar.decode (Some ∅) 3);
    [apply file_read_reads_file; lia | exact ustar_sizes_nonneg].
Defined.

(** On the sample archive the whole-block decisions stop at the first
    of the two zero blocks, after the one entry. *)
Example locate_sample_archive :
  Blocks.locate Ustar.decode Samples.archive 3 0
  = Some (Replace.Position 1024, [Ustar.decode (take 512 Samples.archive)]).
Proof. vm_compute. reflexivity. Qed.

(** ** Where the scans can stop *)

Section OffsetFacts.

Variable st_size : N.
Variable pread : Z -> nat -> Replace.read_result.
Variable decode : list Z -> Header.t.

Lemma entryBlockSize_sync_blocks (h : Header.t) :
  (512 | Replace.entryBlockSize_sync h).
Proof. unfold Replace.entryBlockSize_sync. apply Z.divide_factor_l. Qed.

Lemma entryBlockSize_sync_nonneg (buf : list Z) :
  Replace.sizes_nonneg decode -> 0 <= Replace.entryBlockSize_sync (decode buf).
Proof.
  intros Hsz. rewrite entryBlockSize_same. apply entryBlockSize_nonneg, Hsz.
Qed.

(** The [POSITION] loop keeps its position on a block boundary and
    inside the file. *)
Lemma scan_sync_offset (n : nat) :
  forall (p : Z) (buf : list Z) e (a : Z) e',
    p <= Z.of_N st_size -> (512 | p) ->
    Replace.scan_sync st_size pread decode n p buf e
    = Some (Replace.Position a, e') ->
    a <= Z.of_N st_size /\ (512 | a)
    /\ (Replace.sizes_nonneg decode -> p <= a).
Proof.
  assert (Hstay : forall (p a : Z) (e e' : Replace.effects),
            p <= Z.of_N st_size -> (512 | p) ->
            Some (Replace.Position p, e) = Some (Replace.Position a, e') ->
            a <= Z.of_N st_size /\ (512 | a)
            /\ (Replace.sizes_nonneg decode -> p <= a)).
  { intros p a e e' Hp Hdiv [= <- <-].
    split; [assumption|]. split; [assumption|]. intros _. lia. }
  induction n as [|n IH]; intros p buf e a e' Hp Hdiv; rewrite scan_sync_eq;
    (destruct (p <? Z.of_N st_size); [|eauto]).
  { intros H. discriminate H. }
  destruct (Replace.fill_sync pread 512 p buf 0 e) as [[[ex buf'] e1]|];
    [|intros H; discriminate H].
  destruct ex; cbv beta iota zeta; [intros H; discriminate H | eauto |]. destruct (negb _); [eauto|].
  destruct (Z.gtb_spec (p + Replace.entryBlockSize_sync (decode buf') + 512)
              (Z.of_N st_size)) as [Hgt | Hle]; [eauto|].
  intros Hrun. apply IH in Hrun as (Ha & Hdiva & Hmono); [|lia|].
  - split; [assumption|]. split; [assumption|]. intros Hsz.
    specialize (Hmono Hsz).
    pose proof (entryBlockSize_sync_nonneg buf' Hsz). lia.
  - apply Z.divide_add_r; [|exists 1; lia].
    apply Z.divide_add_r; [assumption | apply entryBlockSize_sync_blocks].
Qed.

(** Where a call of [onread] leaves the position: where it was, or one
    entry further, still inside the file. *)
Lemma onread_position (c : Replace.closure) e (bytes : nat)
  (nx : Replace.next) c' e' :
  Replace.onread st_size decode c e bytes = (nx, c', e') ->
  (Replace.position c' = Replace.position c
   \/ (Replace.position c'
       = Replace.position c
         + Replace.entryBlockSize_sync (decode (Replace.headBuf c)) + 512
       /\ Replace.position c' <= Z.of_N st_size))
  /\ match nx with
     | Replace.Cb (Replace.Position a) => a = Replace.position c'
     | _ => True
     end.
Proof.
  unfold Replace.onread. cbn [Replace.position Replace.bufPos Replace.headBuf].
  rewrite <- entryBlockSize_same.
  repeat match goal with
         | |- context [if ?b then _ else _] => destruct b eqn:?
         end;
    intros [= <- <- <-]; cbn [Replace.position];
    (split; [|first [exact I | reflexivity]]); try (left; reflexivity).
  - right. split; [reflexivity|].
    match goal with
    | H : (_ >? _) = false |- _ => rewrite Z.gtb_ltb in H; apply Z.ltb_ge in H
    end. lia.
  - right. split; [reflexivity|].
    match goal with
    | H : (_ >? _) = false |- _ => rewrite Z.gtb_ltb in H; apply Z.ltb_ge in H
    end. lia.
Qed.

Lemma getPos_loop_offset (fuel : nat) :
  forall (c : Replace.closure) e (offset len : nat) (pos a : Z) e',
    Replace.position c <= Z.of_N st_size -> (512 | Replace.position c) ->
    Replace.getPos_loop st_size pread decode fuel c e offset len pos
    = Some (Replace.Position a, e') ->
    a <= Z.of_N st_size /\ (512 | a)
    /\ (Replace.sizes_nonneg decode -> Replace.position c <= a).
Proof.
  induction fuel as [|fuel IH]; intros c e offset len pos a e' Hp Hdiv;
    [discriminate|].
  rewrite getPos_loop_S.
  destruct (Replace.fs_read pread _ _ _ _) as [er | [buf bytes]];
    [discriminate|].
  destruct (Replace.onread st_size decode _ _ bytes) as [[nx c1] e1] eqn:Hon.
  apply onread_position in Hon as [Hpos Hcb].
  cbn [Replace.position Replace.headBuf] in Hpos.
  assert (Hc1 : Replace.position c1 <= Z.of_N st_size
                /\ (512 | Replace.position c1)
                /\ (Replace.sizes_nonneg decode ->
                    Replace.position c <= Replace.position c1)).
  { destruct Hpos as [-> | [-> Hle]].
    - split; [assumption|]. split; [assumption|]. intros _; lia.
    - split; [assumption|]. split.
      + apply Z.divide_add_r; [|exists 1; lia].
        apply Z.divide_add_r; [assumption | apply entryBlockSize_sync_blocks].
      + intros Hsz. pose proof (entryBlockSize_sync_nonneg buf Hsz). lia. }
  destruct Hc1 as (Hle1 & Hdiv1 & Hmono1).
  destruct nx as [[q | er] | offset' len' pos'].
  - intros [= <- <-]. subst q. split; [assumption|]. split; assumption.
  - discriminate.
  - intros Hrun. apply IH in Hrun as (Ha & Hdiva & Hmono); [|assumption..].
    split; [assumption|]. split; [assumption|]. intros Hsz.
    specialize (Hmono Hsz). specialize (Hmono1 Hsz). lia.
Qed.

End OffsetFacts.

(** Whatever the reads return and whatever the decoder makes of a block,
    an offset that either scan hands to the write stream lies on a
    512-byte boundary and not past the end of the file; with sizes that
    are byte counts it is not negative either.  The write stream
    therefore never leaves a gap after the existing bytes. *)
Theorem append_offset_is_aligned_and_inside_the_file
  (st_size : N) (pread : Z -> nat -> Replace.read_result)
  (decode : list Z -> Header.t) (cache : option (gmap string Z))
  (fuel : nat) (a : Z) (e : Replace.effects) :
  Replace.replaceSync_scan st_size pread decode fuel cache
  = Some (Replace.Position a, e)
  \/ Replace.getPos st_size pread decode fuel cache
     = Some (Replace.Position a, e) ->
  a <= Z.of_N st_size /\ (512 | a)
  /\ (Replace.sizes_nonneg decode -> 0 <= a).
Proof.
  unfold Replace.replaceSync_scan, Replace.getPos. intros [Hrun | Hrun].
  - apply scan_sync_offset in Hrun; [exact Hrun | lia | apply Z.divide_0_r].
  - destruct (st_size =? 0)%N.
    + injection Hrun as <- <-.
      split; [lia|]. split; [apply Z.divide_0_r | intros _; lia].
    + apply getPos_loop_offset in Hrun;
        [exact Hrun | simpl; lia | apply Z.divide_0_r].
Qed.

Lemma append_offset_is_aligned_and_inside_the_file_witness :
  1024 <= Z.of_N 2048 /\ (512 | 1024)
  /\ (Replace.sizes_nonneg Ustar.decode -> 0 <= 1024).
Proof.
  eapply (append_offset_is_aligned_and_inside_the_file 2048
           (Replace.file_read Samples.archive 100) Ustar.decode None 20 1024
           (Replace.mk_effects _ _)).
  right. vm_compute. reflexivity.
Defined.

Lemma entryBlockSize_sync_of_size (h : Header.t) (n : Z) :
  Header.size h = Some n ->
  Replace.entryBlockSize_sync h = 512 * Replace.ceil512 n.
Proof.
  intros Hn. unfold Replace.entryBlockSize_sync. rewrite Hn.
  destruct (Z.eqb_spec n 0) as [-> | _]; reflexivity.
Qed.

(** A regular file that does not start with the gzip magic bytes and
    holds one checksum-valid entry declaring [n >= 0] bytes, followed by
    at least one more whole block that is no valid header (the
    end-of-archive zero blocks, or anything else): both scans pass the
    entry and stop right after its last block, at
    [512 + 512 * ceil(n / 512)], whatever the length of each read and
    whatever the decoder makes of any other block. *)
Theorem append_starts_after_a_single_entry
  (content : list Z) (pread : Z -> nat -> Replace.read_result)
  (decode : list Z -> Header.t) (cache : option (gmap string Z)) (n : Z) :
  Replace.reads_file content pread ->
  Replace.gzip_magic (Blocks.block_at content 0) = false ->
  Header.cksumValid (decode (Blocks.block_at content 0)) = true ->
  Header.size (decode (Blocks.block_at content 0)) = Some n ->
  0 <= n ->
  512 + 512 * Replace.ceil512 n + 512 <= Z.of_nat (length content) ->
  Header.cksumValid
    (decode (Blocks.block_at content (512 + 512 * Replace.ceil512 n)))
  = false ->
  exists eS eA k,
    (forall fuel, (2 <= fuel)%nat ->
       Replace.replaceSync_scan (N.of_nat (length content)) pread decode
         fuel cache
       = Some (Replace.Position (512 + 512 * Replace.ceil512 n), eS))
    /\ (forall fuel, (k <= fuel)%nat ->
          Replace.getPos (N.of_nat (length content)) pread decode fuel cache
          = Some (Replace.Position (512 + 512 * Replace.ceil512 n), eA)).
Proof.
  intros Hfile Hmagic Hvalid Hsize Hn Hroom Hnext.
  set (h := decode (Blocks.block_at content 0)) in *.
  set (a := 512 + 512 * Replace.ceil512 n) in *.
  pose proof (ceil512_nonneg n Hn) as Hceil.
  assert (Hblock0 : length (Blocks.block_at content 0) = 512%nat)
    by (rewrite length_block_at; lia).
  assert (Hsync : exists eS,
             Replace.replaceSync_scan (N.of_nat (length content)) pread decode
               2 cache = Some (Replace.Position a, eS)).
  { unfold Replace.replaceSync_scan.
    destruct (scan_sync_turn content pread decode 1 0 (Replace.alloc 512)
                (Replace.mk_effects cache []) Hfile ltac:(lia)
                (length_alloc 512) ltac:(intros _; apply zeros_from_alloc))
      as (e1 & ->).
    rewrite Hmagic, andb_false_r.
    replace (length (Blocks.block_at content 0) <? 512)%nat with false
      by (symmetry; apply Nat.ltb_ge; lia).
    fold h. rewrite Hvalid. cbn [negb].
    rewrite (entryBlockSize_sync_of_size h n Hsize).
    replace (0 + 512 * Replace.ceil512 n + 512) with a by (unfold a; lia).
    replace (a >? Z.of_nat (length content)) with false
      by (symmetry; rewrite Z.gtb_ltb; apply Z.ltb_ge; lia).
    destruct (scan_sync_turn content pread decode 0 a
                (Blocks.block_at content 0) (Replace.record_mtime e1 h)
                Hfile ltac:(lia) Hblock0 ltac:(lia))
      as (e2 & ->).
    replace (a =? 0) with false by (symmetry; apply Z.eqb_neq; lia).
    cbn [andb].
    replace (length (Blocks.block_at content a) <? 512)%nat with false
      by (symmetry; apply Nat.ltb_ge; rewrite length_block_at; lia).
    rewrite Hnext. cbn [negb]. exists e2. reflexivity. }
  destruct Hsync as (eS & Hsync).
  destruct (getPos_follows_offset _ pread decode cache 2 a eS Hsync)
    as (eA & k & Hasync).
  exists eS, eA, k. split; [|exact Hasync].
  intros fuel Hfuel. unfold Replace.replaceSync_scan.
  apply (scan_sync_mono _ _ _ 2); [exact Hsync | exact Hfuel].
Qed.

(** The sample archive, read 100 bytes at a time: one entry of five
    bytes, then the two zero blocks. *)
Lemma append_starts_after_a_single_entry_witness :
  Replace.reads_file Samples.archive (Replace.file_read Samples.archive 100)
  /\ exists eS eA k,
      (forall fuel, (2 <= fuel)%nat ->
         Replace.replaceSync_scan (N.of_nat (length Samples.archive))
           (Replace.file_read Samples.archive 100) Ustar.decode fuel None
         = Some (Replace.Position (512 + 512 * Replace.ceil512 5), eS))
      /\ (forall fuel, (k <= fuel)%nat ->
            Replace.getPos (N.of_nat (length Samples.archive))
              (Replace.file_read Samples.archive 100) Ustar.decode fuel None
            = Some (Replace.Position (512 + 512 * Replace.ceil512 5), eA)).
Proof.
  split; [apply file_read_reads_file; lia|].
  apply (append_starts_after_a_single_entry Samples.archive
           (Replace.file_read Samples.archive 100) Ustar.decode None 5).
  - apply file_read_reads_file; lia.
  - vm_compute; reflexivity.
  - vm_compute; reflexivity.
  - vm_compute; reflexivity.
  - lia.
  - vm_compute; discriminate.
  - vm_compute; reflexivity.
Defined.

(** A regular file that does not start with the gzip magic bytes and
    whose first block is not a whole entry: the file is shorter than one
    block, or the block's checksum is invalid, or the entry it declares
    does not fit in the file (an earlier append was cut short).  Both
    scans stop at offset 0, so the append overwrites what is there,
    whatever the length of each read and whatever sizes the decoder
    declares. *)
Theorem append_overwrites_a_first_block_that_is_no_whole_entry
  (content : list Z) (pread : Z -> nat -> Replace.read_result)
  (decode : list Z -> Header.t) (cache : option (gmap string Z)) :
  Replace.reads_file content pread ->
  Replace.gzip_magic (Blocks.block_at content 0) = false ->
  (length content < 512)%nat
  \/ Header.cksumValid (decode (Blocks.block_at content 0)) = false
  \/ Z.of_nat (length content)
     < 512 + Replace.entryBlockSize_sync (decode (Blocks.block_at content 0)) ->
  exists eS eA k,
    (forall fuel, (1 <= fuel)%nat ->
       Replace.replaceSync_scan (N.of_nat (length content)) pread decode
         fuel cache
       = Some (Replace.Position 0, eS))
    /\ (forall fuel, (k <= fuel)%nat ->
          Replace.getPos (N.of_nat (length content)) pread decode fuel cache
          = Some (Replace.Position 0, eA)).
Proof.
  intros Hfile Hmagic Hcase.
  assert (Hsync : exists eS,
             Replace.replaceSync_scan (N.of_nat (length content)) pread decode
               1 cache = Some (Replace.Position 0, eS)).
  { unfold Replace.replaceSync_scan.
    destruct (Z.ltb_spec 0 (Z.of_nat (length content))) as [Hpos | Hempty].
    - destruct (scan_sync_turn content pread decode 0 0 (Replace.alloc 512)
                  (Replace.mk_effects cache []) Hfile ltac:(lia)
                  (length_alloc 512) ltac:(intros _; apply zeros_from_alloc))
        as (e1 & ->).
      exists e1. rewrite Hmagic, andb_false_r.
      destruct (Nat.ltb_spec (length (Blocks.block_at content 0)) 512)
        as [Hshort | Hwhole]; [reflexivity|].
      rewrite length_block_at in Hwhole.
      destruct Hcase as [Hlen | [Hinvalid | Hroom]]; [lia | |].
      + rewrite Hinvalid. reflexivity.
      + destruct (negb _); [reflexivity|].
        replace (_ >? _) with true
          by (symmetry; rewrite Z.gtb_ltb; apply Z.ltb_lt; lia).
        reflexivity.
    - exists (Replace.mk_effects cache []).
      rewrite scan_sync_eq, nat_N_Z.
      replace (0 <? Z.of_nat (length content)) with false
        by (symmetry; apply Z.ltb_ge; lia).
      reflexivity. }
  destruct Hsync as (eS & Hsync).
  destruct (getPos_follows_offset _ pread decode cache 1 0 eS Hsync)
    as (eA & k & Hasync).
  exists eS, eA, k. split; [|exact Hasync].
  intros fuel Hfuel. unfold Replace.replaceSync_scan.
  apply (scan_sync_mono _ _ _ 1); [exact Hsync | exact Hfuel].
Qed.

(** The header of the sample archive and the first 100 bytes of its
    data block: the entry does not fit. *)
Lemma append_overwrites_a_first_block_that_is_no_whole_entry_witness :
  Replace.reads_file (take 612 Samples.archive)
    (Replace.file_read (take 612 Samples.archive) 100)
  /\ exists eS eA k,
      (forall fuel, (1 <= fuel)%nat ->
         Replace.replaceSync_scan (N.of_nat (length (take 612 Samples.archive)))
           (Replace.file_read (take 612 Samples.archive) 100) Ustar.decode
           fuel None
         = Some (Replace.Position 0, eS))
      /\ (forall fuel, (k <= fuel)%nat ->
            Replace.getPos (N.of_nat (length (take 612 Samples.archive)))
              (Replace.file_read (take 612 Samples.archive) 100) Ustar.decode
              fuel None
            = Some (Replace.Position 0, eA)).
Proof.
  split; [apply file_read_reads_file; lia|].
  apply (append_overwrites_a_first_block_that_is_no_whole_entry
           (take 612 Samples.archive)
           (Replace.file_read (take 612 Samples.archive) 100) Ustar.decode
           None).
  - apply file_read_reads_file; lia.
  - vm_compute; reflexivity.
  - right. right. vm_compute. reflexivity.
Defined.

(** ** What the scans read *)

Section ReadFacts.

Variable st_size : N.
Variable pread : Z -> nat -> Replace.read_result.
Variable decode : list Z -> Header.t.

Local Abbreviation block_read := (Blocks.block_read st_size).

Lemma record_mtime_reads (e : Replace.effects) (h : Header.t) :
  Replace.reads (Replace.record_mtime e h) = Replace.reads e.
Proof.
  unfold Replace.record_mtime.
  destruct (Replace.mtimeCache e), (Header.mtime h); reflexivity.
Qed.

(** The reads of the inner loop of [replaceSync] stay inside the block
    at [position]. *)
Lemma fill_sync_reads (k : nat) :
  forall (p : Z) (buf : list Z) (b : nat) e ex buf' e',
    (b <= 512)%nat ->
    Replace.fill_sync pread k p buf b e = Some (ex, buf', e') ->
    exists new,
      Replace.reads e' = Replace.reads e ++ new
      /\ Forall (fun r : Z * nat => p <= r.1 /\ r.1 + Z.of_nat r.2 <= p + 512)
           new.
Proof.
  induction k as [|k IH]; intros p buf b e ex buf' e' Hb;
    rewrite fill_sync_eq;
    (destruct (b <? 512)%nat;
     [|intros [= <- <- <-]; exists []; rewrite app_nil_r;
       split; [reflexivity | constructor]]).
  { intros H. discriminate H. }
  cbv zeta.
  assert (Hone : Forall (fun r : Z * nat =>
                           p <= r.1 /\ r.1 + Z.of_nat r.2 <= p + 512)
                   [(p + Z.of_nat b, (512 - b)%nat)]).
  { repeat constructor; simpl; lia. }
  destruct (Replace.fs_read pread buf b (512 - b) (p + Z.of_nat b))
    as [er | [buf1 bytes]] eqn:Hread.
  { intros [= <- <- <-]. eexists. split; [reflexivity | exact Hone]. }
  destruct (fs_read_inr _ _ _ _ _ _ _ Hread) as (data & _ & _ & _ & Hle).
  destruct (_ && _);
    [intros [= <- <- <-]; eexists; split; [reflexivity | exact Hone]|].
  destruct (bytes =? 0)%nat;
    [intros [= <- <- <-]; eexists; split; [reflexivity | exact Hone]|].
  intros Hrun. apply IH in Hrun as (new & Hreads & Hall); [|lia].
  exists ((p + Z.of_nat b, (512 - b)%nat) :: new).
  split; [rewrite Hreads; simpl; rewrite <- app_assoc; reflexivity|].
  constructor; [simpl; lia | exact Hall].
Qed.

Lemma block_read_in_block (p : Z) (new : list (Z * nat)) :
  0 <= p < Z.of_N st_size -> (512 | p) ->
  Forall (fun r : Z * nat => p <= r.1 /\ r.1 + Z.of_nat r.2 <= p + 512) new ->
  Forall block_read new.
Proof.
  intros Hp Hdiv Hall. eapply Forall_impl; [exact Hall|].
  intros r [H1 H2]. exists p. repeat split; try assumption; lia.
Qed.

Lemma scan_sync_reads (n : nat) :
  Replace.sizes_nonneg decode ->
  forall (p : Z) (buf : list Z) e o e',
    0 <= p -> (512 | p) ->
    Replace.scan_sync st_size pread decode n p buf e = Some (o, e') ->
    exists new,
      Replace.reads e' = Replace.reads e ++ new /\ Forall block_read new.
Proof.
  intros Hsz.
  induction n as [|n IH]; intros p buf e o e' Hp Hdiv; rewrite scan_sync_eq;
    (destruct (Z.ltb_spec p (Z.of_N st_size)) as [Hlt | Hge];
     [|intros [= <- <-]; exists []; rewrite app_nil_r;
       split; [reflexivity | constructor]]).
  { intros H. discriminate H. }
  destruct (Replace.fill_sync pread 512 p buf 0 e) as [[[ex buf'] e1]|]
    eqn:Hfill; [|intros H; discriminate H].
  apply fill_sync_reads in Hfill as (new1 & Hreads1 & Hall1); [|lia].
  apply (block_read_in_block p) in Hall1; [|lia | assumption].
  destruct ex; cbv beta iota zeta;
    try (intros [= <- <-]; exists new1; split; assumption).
  destruct (negb _); [intros [= <- <-]; exists new1; split; assumption|].
  destruct (_ >? _); [intros [= <- <-]; exists new1; split; assumption|].
  intros Hrun. apply IH in Hrun as (new2 & Hreads2 & Hall2).
  - exists (new1 ++ new2).
    rewrite Hreads2, record_mtime_reads, Hreads1, app_assoc.
    split; [reflexivity | apply Forall_app; split; assumption].
  - pose proof (entryBlockSize_sync_nonneg decode buf' Hsz). lia.
  - apply Z.divide_add_r; [|exists 1; lia].
    apply Z.divide_add_r; [assumption | apply entryBlockSize_sync_blocks].
Qed.

(** What [onread] asks for next stays inside the block at the position
    it leaves, and [onread] itself reads nothing. *)
Lemma onread_reads (c : Replace.closure) e (bytes : nat)
  (nx : Replace.next) c' e' :
  Replace.sizes_nonneg decode ->
  0 <= Replace.position c < Z.of_N st_size -> (512 | Replace.position c) ->
  (Replace.bufPos c + bytes <= 512)%nat ->
  Replace.onread st_size decode c e bytes = (nx, c', e') ->
  Replace.reads e' = Replace.reads e
  /\ match nx with
     | Replace.Cb _ => True
     | Replace.Read offset len pos =>
         0 <= Replace.position c' < Z.of_N st_size
         /\ (512 | Replace.position c')
         /\ Replace.bufPos c' = offset
         /\ pos = Replace.position c' + Z.of_nat offset
         /\ len = (512 - offset)%nat
         /\ (offset < 512)%nat
     end.
Proof.
  intros Hsz Hp Hdiv Hb. unfold Replace.onread.
  cbn [Replace.position Replace.bufPos Replace.headBuf].
  pose proof (entryBlockSize_nonneg decode (Replace.headBuf c) Hsz) as Hebs.
  assert (Hdiv' : (512 | Replace.position c
                         + Replace.entryBlockSize_async
                             (decode (Replace.headBuf c)) + 512)).
  { apply Z.divide_add_r; [|exists 1; lia].
    apply Z.divide_add_r; [assumption|].
    rewrite <- entryBlockSize_same. apply entryBlockSize_sync_blocks. }
  destruct ((Replace.bufPos c + bytes <? 512)%nat && negb (bytes =? 0)%nat)
    eqn:Hmore.
  { intros [= <- <- <-]. split; [reflexivity|].
    apply andb_true_iff in Hmore as [Hlt _]. apply Nat.ltb_lt in Hlt.
    cbn [Replace.position Replace.bufPos]. repeat split; try assumption; lia. }
  clear Hmore.
  destruct ((Replace.position c =? 0) && Replace.gzip_magic (Replace.headBuf c));
    [intros [= <- <- <-]; split; [reflexivity | exact I]|].
  destruct (_ <? _)%nat; [intros [= <- <- <-]; split; [reflexivity | exact I]|].
  cbv zeta.
  destruct (negb _); [intros [= <- <- <-]; split; [reflexivity | exact I]|].
  destruct (_ >? _); [intros [= <- <- <-]; split; [reflexivity | exact I]|].
  destruct (Z.geb_spec (Replace.position c
                        + Replace.entryBlockSize_async
                            (decode (Replace.headBuf c)) + 512)
              (Z.of_N st_size)) as [Hge | Hlt];
    intros [= <- <- <-]; (split; [try reflexivity | try exact I]).
  - apply record_mtime_reads.
  - cbn [Replace.position Replace.bufPos].
    repeat split; try assumption; lia.
Qed.

Lemma getPos_loop_reads (fuel : nat) :
  Replace.sizes_nonneg decode ->
  forall (c : Replace.closure) e (offset : nat) o e',
    0 <= Replace.position c < Z.of_N st_size -> (512 | Replace.position c) ->
    Replace.bufPos c = offset -> (offset < 512)%nat ->
    Replace.getPos_loop st_size pread decode fuel c e offset (512 - offset)
      (Replace.position c + Z.of_nat offset)
    = Some (o, e') ->
    exists new,
      Replace.reads e' = Replace.reads e ++ new /\ Forall block_read new.
Proof.
  intros Hsz.
  induction fuel as [|fuel IH]; intros c e offset o e' Hp Hdiv Hoff Hlt;
    [intros H; discriminate H|].
  rewrite getPos_loop_S.
  assert (Hone : Forall block_read
                   [(Replace.position c + Z.of_nat offset, (512 - offset)%nat)]).
  { constructor; [|constructor]. exists (Replace.position c).
    repeat split; try assumption; simpl; lia. }
  destruct (Replace.fs_read pread _ _ _ _) as [er | [buf bytes]] eqn:Hread.
  { intros [= <- <-]. eexists. split; [reflexivity | exact Hone]. }
  destruct (fs_read_inr _ _ _ _ _ _ _ Hread) as (data & _ & _ & _ & Hle).
  destruct (Replace.onread st_size decode _ _ bytes) as [[nx c1] e1] eqn:Hon.
  apply onread_reads in Hon as [Hreads Hnext];
    [|assumption | assumption | assumption
     |cbn [Replace.bufPos]; lia].
  destruct nx as [r | offset' len' pos'].
  - intros [= <- <-]. eexists. split; [exact Hreads | exact Hone].
  - destruct Hnext as (Hp1 & Hdiv1 & Hoff1 & -> & -> & Hlt1).
    intros Hrun. apply IH in Hrun as (new & Hreads' & Hall);
      [|assumption..].
    exists ((Replace.position c + Z.of_nat offset, (512 - offset)%nat) :: new).
    rewrite Hreads', Hreads. simpl. rewrite <- app_assoc.
    split; [reflexivity|].
    constructor; [|exact Hall]. apply Forall_cons in Hone as [H _]. exact H.
Qed.

End ReadFacts.

(** With sizes that are byte counts, whatever the reads return: every
    read that the scan of [replaceSync] or [getPos] issues asks for at
    most 512 bytes and stays inside one 512-byte block that starts on a
    block boundary, at or after 0 and before the end of the file, so no
    read straddles two blocks; an empty file is not read at all.  (Which
    blocks are read is not part of this statement.) *)
Theorem scan_reads_stay_inside_one_block_of_the_file
  (st_size : N) (pread : Z -> nat -> Replace.read_result)
  (decode : list Z -> Header.t) (cache : option (gmap string Z))
  (fuel : nat) (o : Replace.outcome) (e : Replace.effects) :
  Replace.sizes_nonneg decode ->
  Replace.replaceSync_scan st_size pread decode fuel cache = Some (o, e)
  \/ Replace.getPos st_size pread decode fuel cache = Some (o, e) ->
  Forall (Blocks.block_read st_size) (Replace.reads e)
  /\ (st_size = 0%N -> Replace.reads e = []).
Proof.
  intros Hsz [Hrun | Hrun].
  - unfold Replace.replaceSync_scan in Hrun. split.
    + apply scan_sync_reads in Hrun as (new & -> & Hall);
        [exact Hall | assumption | lia | apply Z.divide_0_r].
    + intros ->. rewrite scan_sync_eq in Hrun. simpl in Hrun.
      injection Hrun as _ <-. reflexivity.
  - unfold Replace.getPos in Hrun.
    destruct (N.eqb_spec st_size 0) as [Hzero | Hpos].
    + injection Hrun as _ <-. split; [constructor | reflexivity].
    + split; [|contradiction].
      apply (getPos_loop_reads st_size pread decode fuel Hsz
               (Replace.mk_closure 0 0 (Replace.alloc 512)) _ 0%nat) in Hrun
        as (new & -> & Hall);
        [exact Hall | simpl; lia | apply Z.divide_0_r | reflexivity | lia].
Qed.

(** The sample archive read 100 bytes at a time by [getPos]. *)
Lemma scan_reads_stay_inside_one_block_of_the_file_witness :
  Replace.sizes_nonneg Ustar.decode
  /\ Forall (Blocks.block_read 2048)
       [(0, 512%nat); (100, 412%nat); (200, 312%nat); (300, 212%nat);
        (400, 112%nat); (500, 12%nat); (1024, 512%nat); (1124, 412%nat);
        (1224, 312%nat); (1324, 212%nat); (1424, 112%nat); (1524, 12%nat)].
Proof.
  split; [exact ustar_sizes_nonneg|].
  apply (scan_reads_stay_inside_one_block_of_the_file 2048
           (Replace.file_read Samples.archive 100) Ustar.decode None 20
           (Replace.Position 1024)
           (Replace.mk_effects None
              [(0, 512%nat); (100, 412%nat); (200, 312%nat); (300, 212%nat);
               (400, 112%nat); (500, 12%nat); (1024, 512%nat);
               (1124, 412%nat); (1224, 312%nat); (1324, 212%nat);
               (1424, 112%nat); (1524, 12%nat)])).
  - exact ustar_sizes_nonneg.
  - right. vm_compute. reflexivity.
Defined.

(** ** The append command around the scan *)

Section AppendFacts.

Variable open : string -> string + nat.
Variable fstat : nat -> string + N.
Variable pread : nat -> Z -> nat -> Replace.read_result.
Variable decode : list Z -> Header.t.

Local Abbreviation replaceSync := (Append.replaceSync open fstat pread decode).
Local Abbreviation replaceAsync := (Append.replaceAsync open fstat pread decode).

(** Both modes open the file the same way. *)
Lemma onopen_openSync : Append.onopen open = Append.openSync open.
Proof. reflexivity. Qed.

(** The descriptor both modes go on with, and the calls made for it. *)
Lemma openSync_cases :
  (exists fd, Append.openSync open = (inr fd, [Append.Open "r+"])
              /\ open "r+" = inr fd)
  \/ (exists er, Append.openSync open = (inl er, [Append.Open "r+"])
                 /\ open "r+" = inl er /\ er <> "ENOENT"%string)
  \/ (open "r+" = inl "ENOENT"%string
      /\ Append.openSync open
         = (open "w+", [Append.Open "r+"; Append.Open "w+"])).
Proof.
  unfold Append.openSync.
  destruct (open "r+") as [er | fd] eqn:Hopen.
  - destruct (String.eqb_spec er "ENOENT") as [-> | Hne].
    + right. right. split; reflexivity.
    + right. left. exists er. repeat split. exact Hne.
  - left. exists fd. split; reflexivity.
Qed.

(** With sizes that are byte counts both scans of a descriptor end, and
    alike. *)
Lemma scans_end_alike (size : N) (fd : nat) (cache : option (gmap string Z)) :
  Replace.sizes_nonneg decode ->
  exists oS eS oA eA n,
    (forall fuel, (n <= fuel)%nat ->
       Replace.replaceSync_scan size (pread fd) decode fuel cache
       = Some (oS, eS))
    /\ (forall fuel, (n <= fuel)%nat ->
          Replace.getPos size (pread fd) decode fuel cache = Some (oA, eA))
    /\ Replace.same_outcome oS oA.
Proof.
  intros Hsz.
  destruct (scan_sync_total size (pread fd) decode (N.to_nat size) Hsz 0
              (Replace.alloc 512) (Replace.mk_effects cache [])
              (length_alloc 512) ltac:(lia)) as ([oS eS] & Hsync).
  destruct (getPos_follows_sync size (pread fd) decode cache (N.to_nat size)
              oS eS Hsz Hsync) as (oA & eA & n & Hasync & Hsame & _).
  exists oS, eS, oA, eA, (Nat.max n (N.to_nat size)).
  split; [|split; [|exact Hsame]].
  - intros fuel Hfuel. unfold Replace.replaceSync_scan.
    apply (scan_sync_mono _ _ _ (N.to_nat size)); [exact Hsync | lia].
  - intros fuel Hfuel. apply Hasync. lia.
Qed.

End AppendFacts.

(** With sizes that are byte counts, and [open] never handing out
    descriptor 0: [replaceSync] and [replaceAsync] both leave the scan
    phase, and alike.  Either both fail (on the same failure of [open]
    or [fstat], or on a scan that fails in both), or both create the
    write stream on the same descriptor at the same offset.  They make
    the same calls on [fs], except that after a failed [open] the
    blocking mode still attempts [fs.closeSync(undefined)]. *)
Theorem replace_modes_end_alike
  (open : string -> string + nat) (fstat : nat -> string + N)
  (pread : nat -> Z -> nat -> Replace.read_result)
  (decode : list Z -> Header.t) (cache : option (gmap string Z)) :
  Replace.sizes_nonneg decode ->
  (forall flags, open flags <> inr 0%nat) ->
  exists (rS rA : Append.run) (n : nat),
    (forall fuel, (n <= fuel)%nat ->
       Append.replaceSync open fstat pread decode fuel cache = Some rS)
    /\ (forall fuel, (n <= fuel)%nat ->
          Append.replaceAsync open fstat pread decode fuel cache = Some rA)
    /\ Append.same_ending rS.1.1 rA.1.1
    /\ (rS.1.2 = rA.1.2 \/ rS.1.2 = rA.1.2 ++ [Append.Close None]).
Proof.
  intros Hsz Hfd.
  unfold Append.replaceSync, Append.replaceAsync.
  change (Append.onopen open) with (Append.openSync open).
  destruct (Append.openSync open) as [[er | fd] calls] eqn:Hopen.
  { eexists (_, _, _), (_, _, _), 0%nat.
    split; [reflexivity|]. split; [reflexivity|].
    split; [exact I | right; reflexivity]. }
  assert (Hnz : fd <> 0%nat).
  { intros ->.
    destruct (openSync_cases open)
      as [(fd' & H1 & H2) | [(er & H1 & _) | (_ & H1)]];
      rewrite Hopen in H1.
    - injection H1 as <- _. exact (Hfd _ H2).
    - discriminate H1.
    - injection H1 as H1 _. symmetry in H1. exact (Hfd _ H1). }
  apply Nat.eqb_neq in Hnz. rewrite Hnz.
  destruct (fstat fd) as [er | size].
  { eexists (_, _, _), (_, _, _), 0%nat.
    split; [reflexivity|]. split; [reflexivity|].
    split; [exact I | left; reflexivity]. }
  destruct (scans_end_alike pread decode size fd cache Hsz)
    as (oS & eS & oA & eA & n & Hsync & Hasync & Hsame).
  destruct oS as [a | erS], oA as [a' | erA]; try contradiction.
  - simpl in Hsame. subst a'.
    exists (Append.Streaming fd a, calls ++ [Append.Fstat fd], eS),
           (Append.Streaming fd a, calls ++ [Append.Fstat fd], eA), n.
    split; [intros fuel Hfuel; rewrite (Hsync fuel Hfuel); reflexivity|].
    split; [intros fuel Hfuel; rewrite (Hasync fuel Hfuel); reflexivity|].
    split; [split; reflexivity | left; reflexivity].
  - exists (Append.Failed (Some erS),
            calls ++ [Append.Fstat fd; Append.Close (Some fd)], eS),
           (Append.Failed (Some erA),
            calls ++ [Append.Fstat fd; Append.Close (Some fd)], eA), n.
    split; [intros fuel Hfuel; rewrite (Hsync fuel Hfuel); reflexivity|].
    split; [intros fuel Hfuel; rewrite (Hasync fuel Hfuel); reflexivity|].
    split; [exact I | left; reflexivity].
Qed.

(** An archive that exists, opened as descriptor 3 and read 100 bytes at
    a time. *)
Lemma replace_modes_end_alike_witness :
  Replace.sizes_nonneg Ustar.decode
  /\ (forall flags : string, (inr 3%nat : string + nat) <> inr 0%nat)
  /\ exists (rS rA : Append.run) (n : nat),
      (forall fuel, (n <= fuel)%nat ->
         Append.replaceSync (fun _ => inr 3%nat) (fun _ => inr 2048%N)
           (fun _ => Replace.file_read Samples.archive 100) Ustar.decode
           fuel None = Some rS)
      /\ (forall fuel, (n <= fuel)%nat ->
            Append.replaceAsync (fun _ => inr 3%nat) (fun _ => inr 2048%N)
              (fun _ => Replace.file_read Samples.archive 100) Ustar.decode
              fuel None = Some rA)
      /\ Append.same_ending rS.1.1 rA.1.1
      /\ (rS.1.2 = rA.1.2 \/ rS.1.2 = rA.1.2 ++ [Append.Close None]).
Proof.
  split; [exact ustar_sizes_nonneg|].
  split; [intros _; discriminate|].
  apply (replace_modes_end_alike (fun _ => inr 3%nat) (fun _ => inr 2048%N)
           (fun _ => Replace.file_read Samples.archive 100) Ustar.decode None).
  - exact ustar_sizes_nonneg.
  - intros _. discriminate.
Defined.

Section DescriptorFacts.

Variable open : string -> string + nat.
Variable fstat : nat -> string + N.
Variable pread : nat -> Z -> nat -> Replace.read_result.
Variable decode : list Z -> Header.t.

(** The descriptors obtained while opening: the one both modes go on
    with, if any. *)
Lemma opened_openSync :
  Append.opened open (Append.openSync open).2
  = match (Append.openSync open).1 with
    | inr fd => [fd]
    | inl _ => []
    end.
Proof.
  destruct (openSync_cases open)
    as [(fd & -> & H) | [(er & -> & H & _) | (H & ->)]]; simpl; rewrite H.
  - reflexivity.
  - reflexivity.
  - destruct (open "w+"); reflexivity.
Qed.

Lemma closed_openSync : Append.closed (Append.openSync open).2 = [].
Proof.
  destruct (openSync_cases open)
    as [(fd & -> & H) | [(er & -> & H & _) | (H & ->)]]; reflexivity.
Qed.

Lemma opened_app (l1 l2 : list Append.fs_call) :
  Append.opened open (l1 ++ l2)
  = Append.opened open l1 ++ Append.opened open l2.
Proof. apply omap_app. Qed.

Lemma closed_app (l1 l2 : list Append.fs_call) :
  Append.closed (l1 ++ l2) = Append.closed l1 ++ Append.closed l2.
Proof. apply omap_app. Qed.

End DescriptorFacts.

(** What becomes of the descriptor, on every way out of the scan phase.
    [replaceSync]: when it goes on to the write stream, the stream gets
    the one descriptor that was opened and nothing was closed; when it
    throws, the descriptor that was opened (if [open] succeeded) has
    been closed, once.  [replaceAsync]: the same, except that a
    descriptor 0 is rejected without being closed. *)
Theorem replace_closes_the_descriptor_unless_it_streams
  (open : string -> string + nat) (fstat : nat -> string + N)
  (pread : nat -> Z -> nat -> Replace.read_result)
  (decode : list Z -> Header.t) (cache : option (gmap string Z))
  (fuel : nat) (r : Append.ending) (calls : list Append.fs_call)
  (e : Replace.effects) :
  (Append.replaceSync open fstat pread decode fuel cache = Some (r, calls, e) ->
   match r with
   | Append.Streaming fd _ =>
       Append.opened open calls = [fd] /\ Append.closed calls = []
   | Append.Failed _ => Append.closed calls = Append.opened open calls
   end)
  /\ (Append.replaceAsync open fstat pread decode fuel cache
      = Some (r, calls, e) ->
      match r with
      | Append.Streaming fd _ =>
          Append.opened open calls = [fd] /\ Append.closed calls = []
          /\ fd <> 0%nat
      | Append.Failed _ =>
          Append.closed calls
          = filter (fun fd => fd <> 0%nat) (Append.opened open calls)
      end).
Proof.
  unfold Append.replaceSync, Append.replaceAsync.
  change (Append.onopen open) with (Append.openSync open).
  pose proof (opened_openSync open) as Hopened.
  pose proof (closed_openSync open) as Hclosed.
  destruct (Append.openSync open) as [[er | fd] calls0]; simpl in Hopened, Hclosed.
  { split; intros [= <- <- <-].
    - rewrite opened_app, closed_app, Hopened, Hclosed. reflexivity.
    - rewrite Hopened, Hclosed. reflexivity. }
  split.
  - destruct (fstat fd) as [er | size].
    { intros [= <- <- <-].
      rewrite opened_app, closed_app, Hopened, Hclosed. reflexivity. }
    destruct (Replace.replaceSync_scan _ _ _ _ _) as [[[a | er] e1]|];
      intros [= <- <- <-];
      rewrite opened_app, closed_app, Hopened, Hclosed; auto.
  - destruct (Nat.eqb_spec fd 0) as [-> | Hnz].
    { intros [= <- <- <-]. rewrite Hopened, Hclosed. reflexivity. }
    assert (Hkeep : filter (fun fd => fd <> 0%nat) [fd] = [fd]).
    { rewrite filter_cons_True by exact Hnz. reflexivity. }
    destruct (fstat fd) as [er | size].
    { intros [= <- <- <-].
      rewrite opened_app, closed_app, Hopened, Hclosed.
      change (Append.opened open [Append.Fstat fd; Append.Close (Some fd)])
        with (@nil nat).
      rewrite app_nil_r, Hkeep. reflexivity. }
    destruct (Replace.getPos _ _ _ _ _) as [[[a | er] e1]|];
      intros [= <- <- <-];
      rewrite opened_app, closed_app, Hopened, Hclosed; [auto|].
    change (Append.opened open [Append.Fstat fd; Append.Close (Some fd)])
      with (@nil nat).
    rewrite app_nil_r, Hkeep. reflexivity.
Qed.

(** A missing archive, created as descriptor 0: [replaceAsync] rejects
    it and leaves it open. *)
Example replaceAsync_rejects_descriptor_0 :
  Append.replaceAsync
    (fun flags => if String.eqb flags "r+" then inl "ENOENT"%string else inr 0%nat)
    (fun _ => inr 0%N) (fun _ => Replace.file_read [] 512) Ustar.decode 1 None
  = Some (Append.Failed None, [Append.Open "r+"; Append.Open "w+"],
          Replace.mk_effects None [])
  /\ Append.replaceSync
       (fun flags => if String.eqb flags "r+" then inl "ENOENT"%string else inr 0%nat)
       (fun _ => inr 0%N) (fun _ => Replace.file_read [] 512) Ustar.decode 1 None
     = Some (Append.Streaming 0 0,
             [Append.Open "r+"; Append.Open "w+"; Append.Fstat 0],
             Replace.mk_effects None []).
Proof. split; reflexivity. Qed.

(** The file-open contract, in both modes: the archive is opened with
    ['r+'] first; ['w+'], which creates it, is tried exactly when that
    failed with [ENOENT]; no other flags are ever used, and nothing is
    opened twice with the same flags. *)
Theorem replace_creates_the_archive_only_when_missing
  (open : string -> string + nat) (fstat : nat -> string + N)
  (pread : nat -> Z -> nat -> Replace.read_result)
  (decode : list Z -> Header.t) (cache : option (gmap string Z))
  (fuel : nat) (r : Append.run) :
  Append.replaceSync open fstat pread decode fuel cache = Some r
  \/ Append.replaceAsync open fstat pread decode fuel cache = Some r ->
  exists rest,
    r.1.2
    = Append.Open "r+"
      :: (if bool_decide (open "r+" = inl "ENOENT"%string)
          then [Append.Open "w+"] else [])
      ++ rest
    /\ Forall (fun c => forall flags, c <> Append.Open flags) rest.
Proof.
  unfold Append.replaceSync, Append.replaceAsync.
  change (Append.onopen open) with (Append.openSync open).
  assert (Hcalls : (Append.openSync open).2
                   = Append.Open "r+"
                     :: (if bool_decide (open "r+" = inl "ENOENT"%string)
                         then [Append.Open "w+"] else [])).
  { destruct (openSync_cases open)
      as [(fd & -> & H) | [(er & -> & H & Hne) | (H & ->)]]; simpl; rewrite H.
    - rewrite bool_decide_eq_false_2 by discriminate. reflexivity.
    - rewrite bool_decide_eq_false_2 by congruence. reflexivity.
    - rewrite bool_decide_eq_true_2 by reflexivity. reflexivity. }
  destruct (Append.openSync open) as [res calls0]. simpl in Hcalls. subst calls0.
  assert (Htail : forall (tail : list Append.fs_call) (x : Append.ending)
                    (e : Replace.effects) (front : list Append.fs_call),
            Forall (fun c => forall flags, c <> Append.Open flags) tail ->
            Some (x, (Append.Open "r+" :: front) ++ tail, e) = Some r ->
            exists rest,
              r.1.2 = Append.Open "r+" :: front ++ rest
              /\ Forall (fun c => forall flags, c <> Append.Open flags) rest).
  { intros tail x e front Hno [= <-]. exists tail. split; [reflexivity | exact Hno]. }
  assert (Hnone : forall (x : Append.ending) (e : Replace.effects)
                    (front : list Append.fs_call),
            Some (x, Append.Open "r+" :: front, e) = Some r ->
            exists rest,
              r.1.2 = Append.Open "r+" :: front ++ rest
              /\ Forall (fun c => forall flags, c <> Append.Open flags) rest).
  { intros x e front [= <-]. exists []. rewrite app_nil_r.
    split; [reflexivity | constructor]. }
  assert (H1 : Forall (fun c => forall flags, c <> Append.Open flags)
                 [Append.Close None])
    by (repeat constructor; discriminate).
  assert (H2 : forall fd,
            Forall (fun c => forall flags, c <> Append.Open flags)
              [Append.Fstat fd; Append.Close (Some fd)])
    by (intros fd; repeat constructor; discriminate).
  assert (H3 : forall fd,
            Forall (fun c => forall flags, c <> Append.Open flags)
              [Append.Fstat fd])
    by (intros fd; repeat constructor; discriminate).
  destruct res as [er | fd].
  { intros [Hrun | Hrun]; eauto. }
  intros [Hrun | Hrun].
  - destruct (fstat fd) as [er | size]; [eauto|].
    destruct (Replace.replaceSync_scan _ _ _ _ _) as [[[a | er] e1]|];
      [eauto | eauto | discriminate].
  - destruct (fd =? 0)%nat; [eauto|].
    destruct (fstat fd) as [er | size]; [eauto|].
    destruct (Replace.getPos _ _ _ _ _) as [[[a | er] e1]|];
      [eauto | eauto | discriminate].
Qed.

(** A missing archive: ['w+'] after ['r+']. *)
Lemma replace_creates_the_archive_only_when_missing_witness :
  exists rest,
    [Append.Open "r+"; Append.Open "w+"; Append.Fstat 3]
    = Append.Open "r+"
      :: (if bool_decide
               ((inl "ENOENT"%string : string + nat) = inl "ENOENT"%string)
          then [Append.Open "w+"] else [])
      ++ rest
    /\ Forall (fun c => forall flags, c <> Append.Open flags) rest.
Proof.
  apply (replace_creates_the_archive_only_when_missing
           (fun flags =>
              if String.eqb flags "r+" then inl "ENOENT"%string else inr 3%nat)
           (fun _ => inr 0%N) (fun _ => Replace.file_read [] 512)
           Ustar.decode None 1
           (Append.Streaming 3 0,
            [Append.Open "r+"; Append.Open "w+"; Append.Fstat 3],
            Replace.mk_effects None [])).
  left. reflexivity.
Defined.

(** ** Reading the archive to list ([listFileSync]) *)

Lemma take_drop_length {A : Type} (m : nat) (l : list A) :
  take m l ++ drop (length (take m l)) l = l.
Proof.
  rewrite length_take. destruct (le_lt_dec m (length l)) as [Hle | Hgt].
  - rewrite Nat.min_l by lia. apply take_drop.
  - rewrite Nat.min_r by lia.
    rewrite take_ge, drop_ge by lia. apply app_nil_r.
Qed.

Section ListFileFacts.

Variable readSync : Z -> N -> Replace.read_result.
Variable maxReadSize : option N.

Local Abbreviation readSize := (Listing.readSize maxReadSize).
Local Abbreviation read_loop := (Listing.read_loop readSync maxReadSize).

Lemma readSize_pos : (0 < readSize)%N.
Proof.
  unfold Listing.readSize. destruct maxReadSize as [n|]; [|reflexivity].
  destruct (N.eqb_spec n 0); [reflexivity | lia].
Qed.

Lemma read_loop_eq (fuel : nat) (size : N) (pos : Z) (r : Listing.result) :
  read_loop fuel size pos r
  = if pos <? Z.of_N size then
      match fuel with
      | O => None
      | S fuel' =>
          match readSync pos readSize with
          | Replace.ReadError er =>
              Some (Listing.finally
                      (Listing.throw er
                         (Listing.log (Listing.ReadSync pos readSize) r)))
          | Replace.ReadData data =>
              read_loop fuel' size
                (pos + Z.of_nat (length (take (N.to_nat readSize) data)))
                (Listing.parse
                   (Listing.ParserWrite (take (N.to_nat readSize) data))
                   (Listing.log (Listing.ReadSync pos readSize) r))
          end
      end
    else Some (Listing.finally (Listing.parse (Listing.ParserEnd None) r)).
Proof. destruct fuel; reflexivity. Qed.

(** More fuel does not change a result. *)
Lemma read_loop_mono (fuel : nat) :
  forall (fuel' : nat) (size : N) (pos : Z) (r r' : Listing.result),
    read_loop fuel size pos r = Some r' -> (fuel <= fuel')%nat ->
    read_loop fuel' size pos r = Some r'.
Proof.
  induction fuel as [|fuel IH]; intros fuel' size pos r r';
    rewrite (read_loop_eq _ size pos), (read_loop_eq fuel' size pos);
    (destruct (pos <? Z.of_N size); [|intros; assumption]).
  { intros H. discriminate H. }
  intros Hrun Hle. destruct fuel' as [|fuel']; [lia|].
  destruct (readSync pos readSize) as [er | data]; [assumption|].
  apply IH; [assumption | lia].
Qed.

(** The loop on a regular file whose length is the size [statSync]
    gave: it hands the rest of the file to the parser, in order, in
    chunks of at least one byte and at most [readSize], ends the parser
    and closes the descriptor. *)
Lemma read_loop_file (content : list Z) (fuel : nat) :
  Listing.reads_file content readSync ->
  forall (k : nat) (r : Listing.result),
    (k <= length content)%nat -> (length content - k <= fuel)%nat ->
    exists writes reads,
      read_loop fuel (N.of_nat (length content)) (Z.of_nat k) r
      = Some (Listing.mk_result (Listing.thrown r)
                (Listing.parser r ++ writes ++ [Listing.ParserEnd None])
                (Listing.fs r ++ reads ++ [Listing.CloseSync]))
      /\ Forall (Listing.writes_upto readSize) writes
      /\ Listing.fed writes = drop k content
      /\ Forall Listing.is_read reads.
Proof.
  intros Hfile. induction fuel as [|fuel IH]; intros k r Hk Hfuel;
    rewrite read_loop_eq, nat_N_Z.
  - replace (Z.of_nat k <? Z.of_nat (length content)) with false
      by (symmetry; apply Z.ltb_ge; lia).
    exists [], []. split; [reflexivity|]. split; [constructor|].
    split; [|constructor].
    rewrite drop_ge by lia. reflexivity.
  - destruct (Z.ltb_spec (Z.of_nat k) (Z.of_nat (length content)))
      as [Hlt | Hge].
    + destruct (Hfile (Z.of_nat k) readSize ltac:(lia)) as (n & -> & Hn).
      rewrite Nat2Z.id in *.
      specialize (Hn readSize_pos ltac:(lia)).
      rewrite take_take.
      set (m := Nat.min (N.to_nat readSize) n).
      assert (Hm : (0 < m <= N.to_nat readSize)%nat)
        by (pose proof readSize_pos; lia).
      assert (Hgot : length (take m (drop k content))
                     = Nat.min m (length content - k))
        by (rewrite length_take, length_drop; reflexivity).
      rewrite <- Nat2Z.inj_add.
      destruct (IH (k + length (take m (drop k content)))%nat
                  (Listing.parse
                     (Listing.ParserWrite (take m (drop k content)))
                     (Listing.log (Listing.ReadSync (Z.of_nat k) readSize) r))
                  ltac:(lia) ltac:(lia))
        as (writes & reads & -> & Hwrites & Hfed & Hreads).
      exists (Listing.ParserWrite (take m (drop k content)) :: writes),
             (Listing.ReadSync (Z.of_nat k) readSize :: reads).
      split; [|split; [|split]].
      * simpl. rewrite <- !app_assoc. reflexivity.
      * constructor; [simpl; lia | exact Hwrites].
      * unfold Listing.fed in *. rewrite fmap_cons. simpl.
        rewrite Hfed, <- drop_drop. apply take_drop_length.
      * constructor; [exact I | exact Hreads].
    + exists [], []. split; [reflexivity|]. split; [constructor|].
      split; [|constructor].
      rewrite drop_ge by lia. reflexivity.
Qed.

(** The loop on a file that is shorter than [statSync] said: the reads
    at the end of the file obtain nothing, the position stays, and the
    loop does not end. *)
Lemma read_loop_truncated (content : list Z) (size : N) (fuel : nat) :
  Listing.reads_file content readSync ->
  (length content < N.to_nat size)%nat ->
  forall (pos : Z) (r : Listing.result),
    0 <= pos <= Z.of_nat (length content) ->
    read_loop fuel size pos r = None.
Proof.
  intros Hfile Hshort. induction fuel as [|fuel IH]; intros pos r Hpos;
    rewrite read_loop_eq;
    (replace (pos <? Z.of_N size) with true
       by (symmetry; apply Z.ltb_lt; lia)); [reflexivity|].
  destruct (Hfile pos readSize ltac:(lia)) as (n & -> & _).
  apply IH. rewrite take_take, length_take, length_drop. lia.
Qed.

(** What the loop leaves on every way out, whatever the reads return. *)
Lemma read_loop_exits (fuel : nat) :
  forall (size : N) (pos : Z) (r r' : Listing.result),
    read_loop fuel size pos r = Some r' ->
    exists writes reads,
      Forall Listing.is_write writes
      /\ Forall Listing.is_read reads
      /\ Listing.fs r' = Listing.fs r ++ reads ++ [Listing.CloseSync]
      /\ ((Listing.thrown r' = Listing.thrown r
           /\ Listing.parser r'
              = Listing.parser r ++ writes ++ [Listing.ParserEnd None])
          \/ (exists er, Listing.thrown r' = Some er
                         /\ reads <> []
                         /\ Listing.parser r' = Listing.parser r ++ writes)).
Proof.
  induction fuel as [|fuel IH]; intros size pos r r'; rewrite read_loop_eq;
    (destruct (pos <? Z.of_N size);
     [|intros [= <-]; exists [], [];
       split; [constructor|]; split; [constructor|];
       split; [reflexivity|]; left; split; reflexivity]).
  { intros H. discriminate H. }
  destruct (readSync pos readSize) as [er | data].
  - intros [= <-].
    exists [], [Listing.ReadSync pos readSize].
    split; [constructor|]. split; [repeat constructor|].
    split; [simpl; rewrite <- app_assoc; reflexivity|].
    right. exists er. split; [reflexivity|]. split; [discriminate|].
    simpl. rewrite app_nil_r. reflexivity.
  - intros Hrun.
    apply IH in Hrun as (writes & reads & Hw & Hr & Hfs & Hparser).
    exists (Listing.ParserWrite (take (N.to_nat readSize) data) :: writes),
           (Listing.ReadSync pos readSize :: reads).
    split; [constructor; [exact I | exact Hw]|].
    split; [constructor; [exact I | exact Hr]|].
    split; [rewrite Hfs; simpl; rewrite <- !app_assoc; reflexivity|].
    destruct Hparser as [[Hth Hp] | (er & Hth & Hne & Hp)].
    + left. split; [exact Hth|].
      rewrite Hp. simpl. rewrite <- !app_assoc. reflexivity.
    + right. exists er. split; [exact Hth|]. split; [discriminate|].
      rewrite Hp. simpl. rewrite <- !app_assoc. reflexivity.
Qed.

End ListFileFacts.

(** [listFileSync] on a regular file that keeps the length [statSync]
    reported, whatever [maxReadSize] is and however the reads are cut:
    it returns without an error, and the bytes it hands to the parser,
    in the order of the calls, are exactly the bytes of the file.  The
    parser is ended exactly once, by the last call; the [write]s before
    it carry between one and [readSize] bytes each.  When the file is
    shorter than [readSize], the calls on [fs] are [statSync] and one
    [readFileSync], and the whole file goes to [p.end(chunk)] with no
    [write] before it.  Otherwise the file is opened, read with
    [readSync] only, and closed last, and the parser is ended with
    [p.end()]. *)
Theorem listFileSync_feeds_the_file_to_the_parser
  (content : list Z) (readSync : Z -> N -> Replace.read_result)
  (maxReadSize : option N) :
  Listing.reads_file content readSync ->
  exists (r : Listing.result) (writes : list Listing.parser_call)
         (last : option (list Z)),
    (forall fuel, (length content <= fuel)%nat ->
       Listing.listFileSync (inr (N.of_nat (length content))) (inr content)
         (inr tt) readSync maxReadSize fuel = Some r)
    /\ Listing.thrown r = None
    /\ Listing.fed (Listing.parser r) = content
    /\ Listing.parser r = writes ++ [Listing.ParserEnd last]
    /\ Forall (Listing.writes_upto (Listing.readSize maxReadSize)) writes
    /\ if (N.of_nat (length content) <? Listing.readSize maxReadSize)%N then
         Listing.fs r = [Listing.StatSync; Listing.ReadFileSync]
         /\ writes = [] /\ last = Some content
       else
         last = None
         /\ exists reads,
             Listing.fs r
             = Listing.StatSync :: Listing.OpenSync true
               :: reads ++ [Listing.CloseSync]
             /\ Forall Listing.is_read reads.
Proof.
  intros Hfile. unfold Listing.listFileSync.
  destruct (N.of_nat (length content) <? Listing.readSize maxReadSize)%N.
  - exists (Listing.mk_result None [Listing.ParserEnd (Some content)]
              [Listing.StatSync; Listing.ReadFileSync]), [], (Some content).
    split; [reflexivity|]. split; [reflexivity|].
    split; [unfold Listing.fed; simpl; apply app_nil_r|].
    split; [reflexivity|]. split; [constructor|].
    split; [reflexivity|]. split; reflexivity.
  - destruct (read_loop_file readSync maxReadSize content (length content)
                Hfile 0
                (Listing.mk_result None []
                   [Listing.StatSync; Listing.OpenSync true])
                ltac:(lia) ltac:(lia))
      as (writes & reads & Hrun & Hwrites & Hfed & Hreads).
    change (Z.of_nat 0) with 0 in Hrun. simpl in Hrun.
    eexists _, writes, None.
    split; [|split; [|split; [|split; [|split]]]].
    + intros fuel Hfuel.
      apply (read_loop_mono readSync maxReadSize (length content));
        [exact Hrun | exact Hfuel].
    + reflexivity.
    + cbn [Listing.parser]. unfold Listing.fed in *.
      rewrite fmap_app, concat_app, Hfed. simpl. rewrite app_nil_r.
      reflexivity.
    + reflexivity.
    + exact Hwrites.
    + split; [reflexivity|]. exists reads.
      split; [reflexivity | exact Hreads].
Qed.

Lemma listing_file_read_reads_file (content : list Z) (chunk : nat) :
  (0 < chunk)%nat -> Listing.reads_file content (Listing.file_read content chunk).
Proof.
  intros Hchunk pos len Hpos. exists (Nat.min (N.to_nat len) chunk).
  unfold Listing.file_read.
  replace (pos <? 0) with false by (symmetry; apply Z.ltb_ge; lia).
  split; [reflexivity | lia].
Qed.

(** Ten bytes, [maxReadSize] 4, each read cut to 3 bytes. *)
Lemma listFileSync_feeds_the_file_to_the_parser_witness :
  Listing.reads_file [1; 2; 3; 4; 5; 6; 7; 8; 9; 10]
    (Listing.file_read [1; 2; 3; 4; 5; 6; 7; 8; 9; 10] 3)
  /\ exists (r : Listing.result) (writes : list Listing.parser_call)
            (last : option (list Z)),
      (forall fuel, (length [1; 2; 3; 4; 5; 6; 7; 8; 9; 10] <= fuel)%nat ->
         Listing.listFileSync
           (inr (N.of_nat (length [1; 2; 3; 4; 5; 6; 7; 8; 9; 10])))
           (inr [1; 2; 3; 4; 5; 6; 7; 8; 9; 10]) (inr tt)
           (Listing.file_read [1; 2; 3; 4; 5; 6; 7; 8; 9; 10] 3) (Some 4%N)
           fuel = Some r)
      /\ Listing.thrown r = None
      /\ Listing.fed (Listing.parser r) = [1; 2; 3; 4; 5; 6; 7; 8; 9; 10]
      /\ Listing.parser r = writes ++ [Listing.ParserEnd last]
      /\ Forall (Listing.writes_upto (Listing.readSize (Some 4%N))) writes
      /\ if (N.of_nat (length [1; 2; 3; 4; 5; 6; 7; 8; 9; 10])
             <? Listing.readSize (Some 4%N))%N then
           Listing.fs r = [Listing.StatSync; Listing.ReadFileSync]
           /\ writes = [] /\ last = Some [1; 2; 3; 4; 5; 6; 7; 8; 9; 10]
         else
           last = None
           /\ exists reads,
               Listing.fs r
               = Listing.StatSync :: Listing.OpenSync true
                 :: reads ++ [Listing.CloseSync]
               /\ Forall Listing.is_read reads.
Proof.
  split; [apply listing_file_read_reads_file; lia|].
  apply (listFileSync_feeds_the_file_to_the_parser
           [1; 2; 3; 4; 5; 6; 7; 8; 9; 10]
           (Listing.file_read [1; 2; 3; 4; 5; 6; 7; 8; 9; 10] 3) (Some 4%N)).
  apply listing_file_read_reads_file. lia.
Defined.

Example listFileSync_in_chunks :
  Listing.listFileSync (inr 10%N) (inr [1; 2; 3; 4; 5; 6; 7; 8; 9; 10])
    (inr tt) (Listing.file_read [1; 2; 3; 4; 5; 6; 7; 8; 9; 10] 3)
    (Some 4%N) 4
  = Some (Listing.mk_result None
            [Listing.ParserWrite [1; 2; 3]; Listing.ParserWrite [4; 5; 6];
             Listing.ParserWrite [7; 8; 9]; Listing.ParserWrite [10];
             Listing.ParserEnd None]
            [Listing.StatSync; Listing.OpenSync true;
             Listing.ReadSync 0 4; Listing.ReadSync 3 4;
             Listing.ReadSync 6 4; Listing.ReadSync 9 4;
             Listing.CloseSync]).
Proof. vm_compute. reflexivity. Qed.

(** [listFileSync] on a regular file that is shorter than the size
    [statSync] reported (it shrank in between), when that size is at
    least [readSize]: the reads at the end of the file obtain no byte,
    [pos] stops advancing while [pos < stat.size] stays true, and the
    loop never ends: no amount of fuel gives a result. *)
Theorem listFileSync_never_returns_when_the_file_shrank
  (content : list Z) (size : N) (readFileSync : string + list Z)
  (readSync : Z -> N -> Replace.read_result) (maxReadSize : option N) :
  Listing.reads_file content readSync ->
  (length content < N.to_nat size)%nat ->
  (Listing.readSize maxReadSize <= size)%N ->
  forall fuel,
    Listing.listFileSync (inr size) readFileSync (inr tt) readSync
      maxReadSize fuel = None.
Proof.
  intros Hfile Hshort Hbig fuel. unfold Listing.listFileSync.
  replace (size <? Listing.readSize maxReadSize)%N with false
    by (symmetry; apply N.ltb_ge; exact Hbig).
  apply (read_loop_truncated readSync maxReadSize content size fuel Hfile Hshort).
  lia.
Qed.

(** Six bytes left of a file that [statSync] saw with ten. *)
Lemma listFileSync_never_returns_when_the_file_shrank_witness :
  Listing.reads_file [1; 2; 3; 4; 5; 6] (Listing.file_read [1; 2; 3; 4; 5; 6] 3)
  /\ forall fuel,
      Listing.listFileSync (inr 10%N) (inr [1; 2; 3; 4; 5; 6]) (inr tt)
        (Listing.file_read [1; 2; 3; 4; 5; 6] 3) (Some 4%N) fuel = None.
Proof.
  split; [apply listing_file_read_reads_file; lia|].
  apply (listFileSync_never_returns_when_the_file_shrank [1; 2; 3; 4; 5; 6] 10
           (inr [1; 2; 3; 4; 5; 6])
           (Listing.file_read [1; 2; 3; 4; 5; 6] 3) (Some 4%N)).
  - apply listing_file_read_reads_file. lia.
  - simpl. lia.
  - vm_compute. discriminate.
Defined.

(** Every way out of [listFileSync], whatever [fs] answers.  The
    descriptor is closed exactly when it was opened, once, by the last
    call on [fs], also when a read threw.  When nothing was thrown the
    parser was ended exactly once, by the last call on it; when
    something was thrown the parser was never ended. *)
Theorem listFileSync_closes_the_descriptor_on_every_exit
  (statSync : string + N) (readFileSync : string + list Z)
  (openSync : string + unit) (readSync : Z -> N -> Replace.read_result)
  (maxReadSize : option N) (fuel : nat) (r : Listing.result) :
  Listing.listFileSync statSync readFileSync openSync readSync maxReadSize
    fuel = Some r ->
  (exists quiet,
     Forall (fun c => c <> Listing.OpenSync true /\ c <> Listing.CloseSync)
       quiet
     /\ (Listing.fs r = quiet
         \/ exists reads,
             Forall Listing.is_read reads
             /\ Listing.fs r
                = quiet ++ Listing.OpenSync true
                  :: reads ++ [Listing.CloseSync]))
  /\ exists writes,
      Forall Listing.is_write writes
      /\ match Listing.thrown r with
         | None => exists last,
             Listing.parser r = writes ++ [Listing.ParserEnd last]
         | Some _ => Listing.parser r = writes
         end.
Proof.
  unfold Listing.listFileSync.
  destruct statSync as [er | size].
  { intros [= <-]. split.
    - exists [Listing.StatSync]. split; [|left; reflexivity].
      repeat constructor; discriminate.
    - exists []. split; [constructor | reflexivity]. }
  destruct (size <? Listing.readSize maxReadSize)%N.
  { assert (Hquiet : Forall (fun c => c <> Listing.OpenSync true
                                      /\ c <> Listing.CloseSync)
                       [Listing.StatSync; Listing.ReadFileSync])
      by (repeat constructor; discriminate).
    destruct readFileSync as [er | data]; intros [= <-]; (split;
      [exists [Listing.StatSync; Listing.ReadFileSync];
         split; [exact Hquiet | left; reflexivity]|]).
    - exists []. split; [constructor | reflexivity].
    - exists []. split; [constructor|]. exists (Some data). reflexivity. }
  destruct openSync as [er | []].
  { intros [= <-]. split.
    - exists [Listing.StatSync; Listing.OpenSync false].
      split; [|left; reflexivity]. repeat constructor; discriminate.
    - exists []. split; [constructor | reflexivity]. }
  intros Hrun.
  apply read_loop_exits in Hrun as (writes & reads & Hw & Hr & Hfs & Hparser).
  cbn [Listing.fs Listing.parser Listing.thrown] in *.
  split.
  - exists [Listing.StatSync]. split; [repeat constructor; discriminate|].
    right. exists reads. split; [exact Hr|]. rewrite Hfs. reflexivity.
  - exists writes. split; [exact Hw|].
    destruct Hparser as [[-> ->] | (er & -> & _ & ->)].
    + exists None. reflexivity.
    + reflexivity.
Qed.

(** A read that fails after one chunk: the descriptor is closed, the
    parser is left without its [end]. *)
Lemma listFileSync_closes_the_descriptor_on_every_exit_witness :
  (exists quiet,
     Forall (fun c => c <> Listing.OpenSync true /\ c <> Listing.CloseSync)
       quiet
     /\ ([Listing.StatSync; Listing.OpenSync true; Listing.ReadSync 0 4;
          Listing.ReadSync 4 4; Listing.CloseSync] = quiet
         \/ exists reads,
             Forall Listing.is_read reads
             /\ [Listing.StatSync; Listing.OpenSync true; Listing.ReadSync 0 4;
                 Listing.ReadSync 4 4; Listing.CloseSync]
                = quiet ++ Listing.OpenSync true
                  :: reads ++ [Listing.CloseSync]))
  /\ exists writes,
      Forall Listing.is_write writes
      /\ [Listing.ParserWrite [1; 2; 3; 4]] = writes.
Proof.
  apply (listFileSync_closes_the_descriptor_on_every_exit
           (inr 10%N) (inl "EISDIR"%string) (inr tt)
           (fun pos len =>
              if pos =? 0 then Replace.ReadData [1; 2; 3; 4]
              else Replace.ReadError "EIO")
           (Some 4%N) 3
           (Listing.mk_result (Some "EIO"%string)
              [Listing.ParserWrite [1; 2; 3; 4]]
              [Listing.StatSync; Listing.OpenSync true; Listing.ReadSync 0 4;
               Listing.ReadSync 4 4; Listing.CloseSync])).
  vm_compute. reflexivity.
Defined.

(** ** Adding the files ([addFilesSync], [addFilesAsync]) *)

Section AddFilesFacts.

Variable E : Type.
Variable resolve : string -> string.
Variable list_entries : string -> list E * option string.

Local Abbreviation add_one := (Append.add_one E resolve list_entries).
Local Abbreviation forEach := (Append.forEach E resolve list_entries).
Local Abbreviation for_loop := (Append.for_loop E resolve list_entries).
Local Abbreviation contribution := (Append.contribution E resolve list_entries).

Lemma add_one_calls (file : string) (calls : list (Append.pack_call E)) :
  (add_one file calls).2 = calls ++ contribution file.
Proof.
  unfold Append.add_one, Append.contribution.
  destruct (Append.is_reference file); reflexivity.
Qed.

Lemma for_loop_eq (fuel : nat) (files : list string) (i : nat)
  (calls : list (Append.pack_call E)) :
  for_loop fuel files i calls
  = if (i <? length files)%nat then
      match fuel with
      | O => None
      | S fuel' =>
          match add_one (default "undefined"%string (files !! i)) calls with
          | (Some er, calls) => Some (Some er, calls)
          | (None, calls) => for_loop fuel' files (S i) calls
          end
      end
    else Some (None, calls ++ [Append.End]).
Proof. destruct fuel; reflexivity. Qed.

(** The loop by index of [addFilesAsync] does what [forEach] does on
    the files from the index on. *)
Lemma for_loop_forEach (fuel : nat) :
  forall (files : list string) (i : nat) (calls : list (Append.pack_call E)),
    (length files - i <= fuel)%nat ->
    for_loop fuel files i calls
    = Some match forEach (drop i files) calls with
           | (Some er, calls) => (Some er, calls)
           | (None, calls) => (None, calls ++ [Append.End])
           end.
Proof.
  induction fuel as [|fuel IH]; intros files i calls Hfuel;
    rewrite for_loop_eq;
    (destruct (Nat.ltb_spec i (length files)) as [Hlt | Hge];
     [|rewrite drop_ge by lia; reflexivity]); [lia|].
  destruct (lookup_lt_is_Some_2 files i Hlt) as [file Hfile].
  rewrite (drop_S _ _ _ Hfile), Hfile. cbn [default from_option id Append.forEach].
  destruct (add_one file calls) as [[er|] calls1]; [reflexivity|].
  apply IH. lia.
Qed.

(** What [forEach] adds: the contributions of the files in order, up to
    and including the first whose listing failed. *)
Lemma forEach_calls (files : list string) :
  forall calls : list (Append.pack_call E),
    exists done,
      done `prefix_of` files
      /\ (forEach files calls).2 = calls ++ concat (contribution <$> done)
      /\ ((forEach files calls).1 = None -> done = files)
      /\ (Forall (fun file =>
                    Append.is_reference file = true ->
                    (list_entries (resolve (Append.slice1 file))).2 = None)
            files ->
          (forEach files calls).1 = None).
Proof.
  induction files as [|file rest IH]; intros calls; cbn [Append.forEach].
  - exists []. split; [reflexivity|]. split; [simpl; symmetry; apply app_nil_r|].
    split; reflexivity.
  - pose proof (add_one_calls file calls) as Hcalls.
    destruct (add_one file calls) as [[er|] calls1] eqn:Hone;
      cbn [snd] in Hcalls; subst calls1.
    + exists [file]. split; [apply prefix_cons, prefix_nil|].
      split; [simpl; rewrite app_nil_r; reflexivity|].
      split; [discriminate|].
      intros Hall. apply Forall_cons in Hall as [Hfile _].
      unfold Append.add_one in Hone.
      destruct (Append.is_reference file); [|discriminate].
      injection Hone as Her _. rewrite Hfile in Her by reflexivity.
      discriminate.
    + destruct (IH (calls ++ contribution file))
        as (done & Hpre & Hdone & Hall & Hok).
      exists (file :: done). split; [apply prefix_cons, Hpre|].
      split; [rewrite Hdone; simpl; rewrite <- app_assoc; reflexivity|].
      split; [intros Hnone; f_equal; apply Hall, Hnone|].
      intros Hforall. apply Forall_cons in Hforall as [_ Hrest].
      apply Hok, Hrest.
Qed.

(** [p.end()] is no part of what a file contributes. *)
Lemma End_not_contributed (done : list string) :
  Append.End ∉ concat (contribution <$> done).
Proof.
  induction done as [|file done IH]; cbn [fmap list_fmap concat].
  - apply not_elem_of_nil.
  - intros Hin. apply elem_of_app in Hin as [Hin | Hin]; [|exact (IH Hin)].
    unfold Append.contribution in Hin.
    destruct (Append.is_reference file).
    + apply list_elem_of_fmap in Hin as (x & Hx & _). discriminate Hx.
    + apply elem_of_cons in Hin as [Hin | Hin]; [discriminate Hin|].
      exact (not_elem_of_nil _ Hin).
Qed.

End AddFilesFacts.

(** [addFilesSync] and [addFilesAsync] make the same calls on the pack
    stream, given the same entries from the nested listings.  The files
    contribute in the order given: a plain path one [p.add(path)], a
    reference [@archive] the entries of that archive, one [p.add(entry)]
    each.  When no listing fails the contributions of all the files are
    followed by exactly one [p.end()], the last call; when a listing
    fails the calls stop after the entries it handed over and [p.end()]
    is never called. *)
Theorem addFiles_adds_in_order_and_ends_once
  (E : Type) (resolve : string -> string)
  (list_entries : string -> list E * option string) (files : list string) :
  Append.addFilesAsync E resolve list_entries (length files) files
  = Some (Append.addFilesSync E resolve list_entries files)
  /\ exists done,
      done `prefix_of` files
      /\ match Append.addFilesSync E resolve list_entries files with
         | (None, calls) =>
             done = files
             /\ calls
                = concat (Append.contribution E resolve list_entries <$> files)
                  ++ [Append.End]
         | (Some _, calls) =>
             calls
             = concat (Append.contribution E resolve list_entries <$> done)
             /\ Append.End ∉ calls
         end
  /\ (Forall (fun file =>
                Append.is_reference file = true ->
                (list_entries (resolve (Append.slice1 file))).2 = None)
        files ->
      (Append.addFilesSync E resolve list_entries files).1 = None).
Proof.
  split.
  - unfold Append.addFilesAsync, Append.addFilesSync.
    rewrite for_loop_forEach by lia. reflexivity.
  - unfold Append.addFilesSync.
    destruct (forEach_calls E resolve list_entries files [])
      as (done & Hpre & Hcalls & Hall & Hok).
    exists done. split; [exact Hpre|].
    destruct (Append.forEach E resolve list_entries files [])
      as [[er|] calls]; cbn [fst snd] in *.
    + split; [split; [exact Hcalls|]|].
      * subst calls. apply End_not_contributed.
      * intros Hforall. specialize (Hok Hforall). discriminate Hok.
    + rewrite (Hall eq_refl) in *. split; [split; [reflexivity|]|].
      * rewrite Hcalls. reflexivity.
      * intros _. reflexivity.
Qed.

(** A plain path, the two entries of a nested archive, a plain path. *)
Example addFilesSync_sample :
  Append.addFilesSync nat (fun rest => String.append "/cwd/" rest)
    (fun path => if String.eqb path "/cwd/old.tar" then ([1%nat; 2%nat], None)
                 else ([], Some "ENOENT"%string))
    ["a.txt"; "@old.tar"; "b.txt"]%string
  = (None,
     [Append.Add "a.txt"; Append.AddEntry 1%nat; Append.AddEntry 2%nat;
      Append.Add "b.txt"; Append.End]).
Proof. reflexivity. Qed.

(** ** Entries: what is delivered, and when *)

Section DeliveryFacts.

Variable ToNumber_string : string -> Js.number.
Variable _maxQueueLen : option nat.
Variable error_listener : bool.

Implicit Types (e : Entry.t).

Local Abbreviation _read := (Entry._read _maxQueueLen).
Local Abbreviation write := (Entry.write ToNumber_string _maxQueueLen error_listener).
Local Abbreviation end_ := (Entry.end_ ToNumber_string _maxQueueLen error_listener).
Local Abbreviation resume := (Entry.resume _maxQueueLen).
Local Abbreviation after := (Entry.after ToNumber_string _maxQueueLen error_listener).
Local Abbreviation run := (Entry.run ToNumber_string _maxQueueLen error_listener).

Lemma data_app (evs1 evs2 : list Entry.event) :
  Delivery.data (evs1 ++ evs2) = Delivery.data evs1 ++ Delivery.data evs2.
Proof.
  induction evs1 as [|ev evs1 IH]; [reflexivity|].
  destruct ev; simpl; rewrite IH; reflexivity.
Qed.

(** One delivery attempt, in full: unless the stream is paused, already
    delivering or ended, it delivers the oldest waiting chunk, if there
    is one, and nothing else; it emits [drain] and [end] only once
    nothing waits; it ends the stream exactly when [end()] was called
    and nothing waits any more. *)
Lemma _read_step e :
  Entry.queue_ok e ->
  exists evs,
    Entry.queue_ok (_read e)
    /\ Entry.emitted (_read e) = Entry.emitted e ++ evs
    /\ Delivery.data evs
       = (if Delivery.stalled e then []
          else Some <$> take 1 (Entry.undelivered e))
    /\ Entry.undelivered (_read e)
       = (if Delivery.stalled e then Entry.undelivered e
          else drop 1 (Entry.undelivered e))
    /\ Entry._paused (_read e) = Entry._paused e
    /\ Entry._ending (_read e) = Entry._ending e
    /\ Entry._remaining (_read e) = Entry._remaining e
    /\ (Entry._reading e = false -> Entry._reading (_read e) = false)
    /\ Entry._ended (_read e)
       = Entry._ended e
         || (negb (Delivery.stalled e) && Entry._ending e
             && (length (Entry.undelivered e) <=? 1)%nat)
    /\ (Entry._ended (_read e) = true -> Entry._ended e = false ->
        Entry._queue (_read e) = [] /\ Entry._queueLen (_read e) = 0%nat)
    /\ (if Entry._ended (_read e) && negb (Entry._ended e)
        then exists pre, evs = pre ++ [Entry.EmitEnd] /\ Entry.EmitEnd ∉ pre
        else Entry.EmitEnd ∉ evs)
    /\ (Entry._needDrain (_read e) = true -> Entry._needDrain e = true)
    /\ Forall (fun ev => forall msg, ev <> Entry.EmitError msg) evs.
Proof.
  intros [Hlen Hidx]. unfold Entry._read, Delivery.stalled.
  destruct (Entry._paused e || Entry._reading e || Entry._ended e) eqn:Hst.
  { exists []. rewrite app_nil_r, orb_false_r, andb_negb_r.
    repeat split; auto; try congruence;
      first [apply not_elem_of_nil | constructor]. }
  apply orb_false_iff in Hst as [Hst Hed].
  apply orb_false_iff in Hst as [Hpa Hrd].
  destruct e as [nd pa rd eg ed rem q i ql pr hd ex gl ty pt evs0];
    simpl in *. subst pa rd ed ql.
  unfold Entry.emit_one. entry_simpl.
  destruct (Nat.ltb_spec i (length q)) as [Hlt | Hge].
  - destruct (lookup_lt_is_Some_2 q i Hlt) as [c Hc]. rewrite Hc.
    rewrite (drop_S _ _ _ Hc).
    unfold Entry.check_drained. entry_simpl.
    destruct (Nat.leb_spec (length q) (S i)) as [Hle | Hgt].
    + (* the last chunk that waited *)
      assert (Hnil : drop (S i) q = []) by (apply drop_ge; lia).
      rewrite Hnil.
      unfold Entry.pluck. destruct _maxQueueLen as [mql|]; entry_simpl;
        destruct nd, eg; entry_simpl;
        change (0 <? 0)%nat with false; rewrite ?andb_false_r; eexists;
        (split; [split; simpl; lia|]);
        (split; [rewrite <- ?app_assoc; reflexivity|]);
        simpl; repeat split; auto; try discriminate;
        try (eexists [_]; split; [reflexivity|]);
        try (eexists [_; _]; split; [reflexivity|]);
        try solve [repeat constructor; discriminate];
        rewrite ?elem_of_cons, ?elem_of_nil; intuition discriminate.
    + (* more chunks wait *)
      assert (Hlong : (S (length (drop (S i) q)) <=? 1)%nat = false).
      { apply Nat.leb_gt. rewrite length_drop. lia. }
      unfold Entry.pluck. destruct _maxQueueLen as [mql|]; entry_simpl.
      * destruct ((mql <? length q)%nat && (0 <? S i)%nat); entry_simpl;
          eexists;
          (split; [split; rewrite ?length_drop; lia|]);
          (split; [reflexivity|]);
          cbn [Delivery.data fmap list_fmap take drop length negb andb orb];
          rewrite ?Hlong, ?andb_false_r, ?drop_0;
          repeat split; auto; try discriminate;
          try solve [repeat constructor; discriminate];
          rewrite ?elem_of_cons, ?elem_of_nil; try intuition discriminate.
        rewrite drop_drop. f_equal. lia.
      * eexists. (split; [split; simpl; lia|]).
        (split; [reflexivity|]).
        cbn [Delivery.data fmap list_fmap take drop length negb andb orb];
          rewrite ?Hlong, ?andb_false_r, ?drop_0;
          repeat split; auto; try discriminate;
          try solve [repeat constructor; discriminate];
          rewrite ?elem_of_cons, ?elem_of_nil; intuition discriminate.
  - (* nothing waits *)
    assert (Hnil : drop i q = []) by (apply drop_ge; lia).
    rewrite Hnil.
    unfold Entry.check_drained. entry_simpl.
    replace (length q <=? i)%nat with true by (symmetry; apply Nat.leb_le; lia).
    unfold Entry.pluck. destruct _maxQueueLen as [mql|]; entry_simpl;
      destruct nd, eg; entry_simpl;
      change (0 <? 0)%nat with false; rewrite ?andb_false_r; eexists;
      (split; [split; simpl; lia|]);
      (split; [rewrite <- ?app_assoc; first [reflexivity | symmetry; apply app_nil_r]|]);
      simpl; repeat split; auto; try discriminate;
      try (eexists []; split; [reflexivity|]);
      try (eexists [_]; split; [reflexivity|]);
      try solve [repeat constructor; discriminate];
      rewrite ?elem_of_cons, ?elem_of_nil; intuition discriminate.
Qed.

(** The [drain] of a delivery attempt: emitted exactly when the attempt
    finds the queue empty, or empties it, with [_needDrain] set;
    [_needDrain] stays set until then. *)
Lemma _read_drain e :
  Entry.queue_ok e ->
  exists evs,
    Entry.emitted (_read e) = Entry.emitted e ++ evs
    /\ (Entry.EmitDrain ∈ evs
        <-> Delivery.stalled e = false /\ Entry._needDrain e = true
            /\ (length (Entry.undelivered e) <= 1)%nat)
    /\ (Entry._needDrain (_read e) = true
        <-> Entry._needDrain e = true /\ Entry.EmitDrain ∉ evs).
Proof.
  intros [Hlen Hidx]. unfold Entry._read, Delivery.stalled.
  destruct (Entry._paused e || Entry._reading e || Entry._ended e) eqn:Hst.
  { exists []. rewrite app_nil_r. split; [reflexivity|].
    rewrite elem_of_nil. intuition congruence. }
  apply orb_false_iff in Hst as [Hst Hed].
  apply orb_false_iff in Hst as [Hpa Hrd].
  destruct e as [nd pa rd eg ed rem q i ql pr hd ex gl ty pt evs0];
    simpl in *. subst pa rd ed ql.
  unfold Entry.emit_one. entry_simpl.
  destruct (Nat.ltb_spec i (length q)) as [Hlt | Hge].
  - unfold Entry.check_drained. entry_simpl.
    destruct (Nat.leb_spec (length q) (S i)) as [Hle | Hgt].
    + assert (Hone : (length (drop i q) <= 1)%nat)
        by (rewrite length_drop; lia).
      unfold Entry.pluck. destruct _maxQueueLen as [mql|]; entry_simpl;
        destruct nd, eg; entry_simpl;
        change (0 <? 0)%nat with false; rewrite ?andb_false_r; eexists;
        (split; [rewrite <- ?app_assoc; reflexivity|]);
        cbn [app]; rewrite ?elem_of_cons, ?elem_of_nil;
        intuition (first [congruence | lia]).
    + assert (Hmore : ~ (length (drop i q) <= 1)%nat)
        by (rewrite length_drop; lia).
      unfold Entry.pluck. destruct _maxQueueLen as [mql|]; entry_simpl;
        [destruct ((mql <? length q)%nat && (0 <? S i)%nat); entry_simpl|];
        eexists; (split; [reflexivity|]);
        cbn [app]; rewrite ?elem_of_cons, ?elem_of_nil;
        intuition (first [congruence | lia]).
  - assert (Hone : (length (drop i q) <= 1)%nat)
      by (rewrite length_drop; lia).
    unfold Entry.check_drained. entry_simpl.
    replace (length q <=? i)%nat with true by (symmetry; apply Nat.leb_le; lia).
    unfold Entry.pluck. destruct _maxQueueLen as [mql|]; entry_simpl;
      destruct nd, eg; entry_simpl;
      change (0 <? 0)%nat with false; rewrite ?andb_false_r; eexists;
      (split; [rewrite <- ?app_assoc;
               first [reflexivity | symmetry; apply app_nil_r]|]);
      cbn [app]; rewrite ?elem_of_cons, ?elem_of_nil;
        intuition (first [congruence | lia]).
Qed.

(** The chunk [write(c)] queues: [c], or its first bytes. *)
Lemma queued_chunk_prefix (c : list Z) (rem : option Js.value) :
  exists k : nat,
    (if Js.gt (Z.of_nat (length c)) (Entry.ToNumber ToNumber_string rem)
     then Entry.slice0 c (Entry.ToNumber ToNumber_string rem) else c)
    = take k c.
Proof.
  destruct (Js.gt _ _).
  - unfold Entry.slice0. destruct (Entry.ToNumber ToNumber_string rem) as [z|].
    + destruct (z <? 0); eexists; reflexivity.
    + exists 0%nat. reflexivity.
  - exists (length c). symmetry. apply take_ge. lia.
Qed.

(** A [write(c)] that returns, in full. *)
Lemma write_step e (c : list Z) (b : bool) e' :
  Entry.queue_ok e ->
  write e c = Entry.Normal b e' ->
  exists (c' : list Z) (evs : list Entry.event),
    c' = (if Js.gt (Z.of_nat (length c))
               (Entry.ToNumber ToNumber_string (Entry._remaining e))
          then Entry.slice0 c
                 (Entry.ToNumber ToNumber_string (Entry._remaining e))
          else c)
    /\ Entry._ending e = false
    /\ Entry.queue_ok e'
    /\ Entry.emitted e' = Entry.emitted e ++ evs
    /\ Delivery.data evs
       = (if Delivery.stalled e then []
          else Some <$> take 1 (Entry.undelivered e ++ [c']))
    /\ Entry.undelivered e'
       = (if Delivery.stalled e then Entry.undelivered e ++ [c']
          else drop 1 (Entry.undelivered e ++ [c']))
    /\ (Entry.EmitEnd ∉ evs)
    /\ b = negb (Entry._paused e || (0 <? Entry._queueLen e)%nat)
    /\ (b = false -> Entry._needDrain e' = true)
    /\ Entry._paused e' = Entry._paused e
    /\ Entry._ending e' = false
    /\ Entry._ended e' = Entry._ended e
    /\ (Entry._reading e = false -> Entry._reading e' = false)
    /\ Entry._remaining e'
       = Some (Js.VNumber
                 (Js.sub (Entry.ToNumber ToNumber_string (Entry._remaining e))
                    (Z.of_nat (length c'))))
    /\ (Entry.is_zero (Entry._remaining e) = false ->
        Forall (fun ev => forall msg, ev <> Entry.EmitError msg) evs).
Proof.
  intros Hq. unfold Entry.write.
  destruct (Entry._ending e) eqn:Heg; [discriminate|].
  destruct (Entry.is_zero (Entry._remaining e) && negb error_listener);
    [discriminate|].
  set (e1 := if Entry.is_zero (Entry._remaining e)
             then Entry.emit (Entry.EmitError "invalid bytes past eof") e
             else e).
  assert (H1 : exists evs1,
             Entry.emitted e1 = Entry.emitted e ++ evs1
             /\ Delivery.data evs1 = [] /\ (Entry.EmitEnd ∉ evs1)
             /\ (Entry.is_zero (Entry._remaining e) = false -> evs1 = [])
             /\ Forall (fun ev => ev = Entry.EmitError "invalid bytes past eof")
                  evs1
             /\ Entry._queue e1 = Entry._queue e
             /\ Entry._index e1 = Entry._index e
             /\ Entry._queueLen e1 = Entry._queueLen e
             /\ Entry._remaining e1 = Entry._remaining e
             /\ Entry._paused e1 = Entry._paused e
             /\ Entry._reading e1 = Entry._reading e
             /\ Entry._ending e1 = Entry._ending e
             /\ Entry._ended e1 = Entry._ended e).
  { subst e1. destruct (Entry.is_zero _).
    - exists [Entry.EmitError "invalid bytes past eof"].
      destruct e; entry_simpl.
      repeat split; auto; try discriminate.
      rewrite elem_of_cons, elem_of_nil. intuition discriminate.
    - exists []. rewrite app_nil_r. repeat split; auto.
      apply not_elem_of_nil. }
  clearbody e1.
  destruct H1 as (evs1 & Hev1 & Hd1 & Hno1 & Hnil1 & Herr1 & Hq1 & Hi1 & Hl1
                  & Hr1 & Hp1 & Hrd1 & Hg1 & Hed1).
  cbv zeta. rewrite Hr1.
  set (c' := if Js.gt _ _ then _ else c).
  set (e2 := Entry.set_queue _ _ _ _).
  assert (Hq2 : Entry.queue_ok e2).
  { subst e2. destruct Hq as [Hlen Hidx]. destruct e1; entry_simpl.
    simpl in *. subst. rewrite length_app. simpl. split; lia. }
  assert (Hu2 : Entry.undelivered e2 = Entry.undelivered e ++ [c']).
  { subst e2. destruct Hq as [Hlen Hidx]. destruct e1, e; entry_simpl.
    simpl in *. subst. rewrite drop_app_le by lia. reflexivity. }
  assert (Hst2 : Delivery.stalled e2 = Delivery.stalled e).
  { subst e2. unfold Delivery.stalled. rewrite <- Hp1, <- Hrd1, <- Hed1.
    destruct e1; reflexivity. }
  assert (Hflags2 : Entry.emitted e2 = Entry.emitted e ++ evs1
                    /\ Entry._paused e2 = Entry._paused e
                    /\ Entry._ending e2 = false
                    /\ Entry._ended e2 = Entry._ended e
                    /\ Entry._reading e2 = Entry._reading e
                    /\ Entry._queueLen (Entry.set_remaining
                          (Some (Js.VNumber
                            (Js.sub (Entry.ToNumber ToNumber_string
                                       (Entry._remaining e))
                               (Z.of_nat (length c'))))) e1)
                       = Entry._queueLen e
                    /\ Entry._remaining e2
                       = Some (Js.VNumber
                                 (Js.sub (Entry.ToNumber ToNumber_string
                                            (Entry._remaining e))
                                    (Z.of_nat (length c'))))).
  { subst e2. rewrite <- Hev1, <- Hp1, <- Heg, <- Hg1, <- Hed1, <- Hrd1, <- Hl1.
    destruct e1; repeat split; reflexivity. }
  destruct Hflags2 as (Hev2 & Hp2 & Hg2 & Hed2 & Hrd2 & Hql & Hr2).
  rewrite Hql.
  destruct (_read_step e2 Hq2)
    as (evs & Hq3 & Hev3 & Hd3 & Hu3 & Hp3 & Hg3 & Hr3 & Hrd3 & Hed3 & _
        & Hend3 & _ & Hnoerr).
  rewrite Hst2, Hu2 in Hd3, Hu3.
  rewrite Hst2, Hg2, andb_false_r, andb_false_l, orb_false_r in Hed3.
  rewrite Hed3, andb_negb_r in Hend3.
  rewrite Hp3, Hp2.
  assert (Hcommon : forall (b0 : bool) e0,
            Entry.queue_ok e0 ->
            Entry.emitted e0 = Entry.emitted (_read e2) ->
            Entry.undelivered e0 = Entry.undelivered (_read e2) ->
            Entry._paused e0 = Entry._paused (_read e2) ->
            Entry._ending e0 = Entry._ending (_read e2) ->
            Entry._ended e0 = Entry._ended (_read e2) ->
            Entry._reading e0 = Entry._reading (_read e2) ->
            Entry._remaining e0 = Entry._remaining (_read e2) ->
            b0 = negb (Entry._paused e || (0 <? Entry._queueLen e)%nat) ->
            (b0 = false -> Entry._needDrain e0 = true) ->
            Entry.Normal b0 e0 = Entry.Normal b e' ->
            exists (c'0 : list Z) (evs0 : list Entry.event),
              c'0 = c'
              /\ false = false
              /\ Entry.queue_ok e'
              /\ Entry.emitted e' = Entry.emitted e ++ evs0
              /\ Delivery.data evs0
                 = (if Delivery.stalled e then []
                    else Some <$> take 1 (Entry.undelivered e ++ [c'0]))
              /\ Entry.undelivered e'
                 = (if Delivery.stalled e then Entry.undelivered e ++ [c'0]
                    else drop 1 (Entry.undelivered e ++ [c'0]))
              /\ (Entry.EmitEnd ∉ evs0)
              /\ b = negb (Entry._paused e || (0 <? Entry._queueLen e)%nat)
              /\ (b = false -> Entry._needDrain e' = true)
              /\ Entry._paused e' = Entry._paused e
              /\ Entry._ending e' = false
              /\ Entry._ended e' = Entry._ended e
              /\ (Entry._reading e = false -> Entry._reading e' = false)
              /\ Entry._remaining e'
                 = Some (Js.VNumber
                           (Js.sub (Entry.ToNumber ToNumber_string
                                      (Entry._remaining e))
                              (Z.of_nat (length c'0))))
              /\ (Entry.is_zero (Entry._remaining e) = false ->
                  Forall (fun ev => forall msg, ev <> Entry.EmitError msg)
                    evs0)).
  { intros b0 e0 Hq0 Hev0 Hu0 Hp0 Hg0 Hed0 Hrd0 Hr0 Hb0 Hnd0 [= <- <-].
    exists c', (evs1 ++ evs).
    split; [reflexivity|]. split; [reflexivity|]. split; [exact Hq0|].
    split; [rewrite Hev0, Hev3, Hev2, app_assoc; reflexivity|].
    split; [rewrite data_app, Hd1; exact Hd3|].
    split; [rewrite Hu0; exact Hu3|].
    split; [rewrite elem_of_app; intuition|].
    split; [exact Hb0|]. split; [exact Hnd0|].
    split; [congruence|]. split; [congruence|]. split; [congruence|].
    split; [intros Hrd; rewrite Hrd0; apply Hrd3; congruence|].
    split; [congruence|].
    intros Hz. rewrite (Hnil1 Hz). exact Hnoerr. }
  destruct (Entry._paused e || (0 <? Entry._queueLen e)%nat) eqn:Hwait.
  - apply Hcommon; try (destruct (_read e2); reflexivity).
    destruct Hq3. destruct (_read e2); split; assumption.
  - apply Hcommon; try reflexivity; [exact Hq3 | discriminate].
Qed.

Lemma _read_stalled e : Delivery.stalled e = true -> _read e = e.
Proof.
  unfold Entry._read, Delivery.stalled. intros ->. reflexivity.
Qed.

(** A delivery attempt moves a chunk from the queue to the listeners:
    it loses none and reorders none. *)
Lemma _read_history e :
  Entry.queue_ok e -> Delivery.history (_read e) = Delivery.history e.
Proof.
  intros Hq.
  destruct (_read_step e Hq) as (evs & _ & Hev & Hd & Hu & _).
  unfold Delivery.history. rewrite Hev, data_app, Hd, Hu.
  destruct (Delivery.stalled e); [rewrite app_nil_r; reflexivity|].
  rewrite <- app_assoc, <- fmap_app, take_drop. reflexivity.
Qed.

Lemma write_throws e (c : list Z) (msg : string) e' :
  write e c = Entry.Throw msg e' -> e' = e.
Proof.
  unfold Entry.write.
  destruct (Entry._ending e); [intros [= _ <-]; reflexivity|].
  destruct (_ && _); [intros [= _ <-]; reflexivity|].
  cbv zeta. destruct (_ || _); discriminate.
Qed.

Lemma write_returns e (c : list Z) :
  Entry._ending e = false -> Entry.is_zero (Entry._remaining e) = false ->
  exists b e', write e c = Entry.Normal b e'.
Proof.
  intros Hg Hz. unfold Entry.write. rewrite Hg, Hz. cbv zeta. simpl.
  destruct (_ || _); eauto.
Qed.

Lemma write_history e (c : list Z) (b : bool) e' :
  Entry.queue_ok e ->
  write e c = Entry.Normal b e' ->
  exists k : nat,
    Delivery.history e' = Delivery.history e ++ [Some (take k c)]
    /\ (Z.of_nat (length c) <= match Entry.ToNumber ToNumber_string
                                      (Entry._remaining e) with
                               | Js.Num r => r
                               | Js.NaN => -1
                               end ->
        take k c = c).
Proof.
  intros Hq Hrun.
  destruct (write_step e c b e' Hq Hrun)
    as (c' & evs & Hc' & _ & _ & Hev & Hd & Hu & _).
  destruct (queued_chunk_prefix c (Entry._remaining e)) as [k Hk].
  rewrite <- Hc' in Hk.
  exists k. rewrite <- Hk. split.
  - unfold Delivery.history. rewrite Hev, data_app, Hd, Hu.
    destruct (Delivery.stalled e).
    + rewrite app_nil_r, fmap_app, app_assoc. reflexivity.
    + rewrite <- !app_assoc, <- fmap_app, take_drop, fmap_app. reflexivity.
  - intros Hfits. rewrite Hc'.
    destruct (Entry.ToNumber ToNumber_string (Entry._remaining e)) as [r|];
      simpl; [|lia].
    replace (Z.of_nat (length c) >? r) with false
      by (symmetry; rewrite Z.gtb_ltb; apply Z.ltb_ge; lia).
    reflexivity.
Qed.

Lemma settled_stalled e :
  Delivery.settled e -> Entry._ended e = false ->
  Delivery.stalled e = Entry._paused e.
Proof.
  intros (_ & Hrd & _) Hed. unfold Delivery.stalled.
  rewrite Hrd, Hed, !orb_false_r. reflexivity.
Qed.

(** *** Ending once *)

Lemma ends_once_emit (ev : Entry.event) e :
  Delivery.ends_once e ->
  (if Entry._ended e then Delivery.quiet ev = true else ev <> Entry.EmitEnd) ->
  Delivery.ends_once (Entry.emit ev e).
Proof.
  unfold Delivery.ends_once. destruct e; entry_simpl. simpl.
  destruct _ended.
  - intros (before & rest & -> & Hno & Hquiet) Hev.
    exists before, (rest ++ [ev]). rewrite <- app_assoc. simpl.
    split; [reflexivity|]. split; [exact Hno|].
    rewrite forallb_app, Hquiet. simpl. rewrite Hev. reflexivity.
  - intros Hno Hev. rewrite elem_of_app, elem_of_cons, elem_of_nil.
    intuition congruence.
Qed.

Lemma _read_ends_once e :
  Delivery.settled e -> Delivery.ends_once e ->
  Delivery.settled (_read e) /\ Delivery.ends_once (_read e).
Proof.
  intros Hs Ho.
  destruct (Delivery.stalled e) eqn:Hst;
    [rewrite (_read_stalled e Hst); split; assumption|].
  assert (Hed : Entry._ended e = false).
  { unfold Delivery.stalled in Hst. apply orb_false_iff in Hst as [_ H].
    exact H. }
  destruct Hs as (Hq & Hrd & _).
  destruct (_read_step e Hq)
    as (evs & Hq' & Hev & _ & _ & _ & Hg' & _ & Hrd' & Hed' & Hempty & Hend
        & _).
  rewrite Hst, Hed in Hed'. simpl in Hed'.
  split.
  - split; [exact Hq'|]. split; [apply Hrd', Hrd|].
    intros Hended. split; [|apply Hempty; assumption].
    rewrite Hg'. rewrite Hended in Hed'. symmetry in Hed'.
    apply andb_true_iff in Hed' as [H _]. exact H.
  - unfold Delivery.ends_once in *. rewrite Hed in Ho, Hend.
    rewrite Hev. destruct (Entry._ended (_read e)); simpl in Hend.
    + destruct Hend as (pre & -> & Hno).
      exists (Entry.emitted e ++ pre), []. rewrite <- app_assoc.
      split; [reflexivity|]. split; [|reflexivity].
      rewrite elem_of_app. intuition.
    + rewrite elem_of_app. intuition.
Qed.

Lemma set_flag_ends_once e e' :
  Entry._ended e' = Entry._ended e -> Entry.emitted e' = Entry.emitted e ->
  Delivery.ends_once e -> Delivery.ends_once e'.
Proof. unfold Delivery.ends_once. intros -> ->. auto. Qed.

Lemma write_ends_once e (c : list Z) :
  Delivery.settled e -> Delivery.ends_once e ->
  Delivery.settled (Entry.state_of (write e c))
  /\ Delivery.ends_once (Entry.state_of (write e c)).
Proof.
  intros Hs Ho. destruct (write e c) as [b e' | msg e'] eqn:Hrun; simpl.
  - destruct Hs as (Hq & Hrd & Hended).
    destruct (write_step e c b e' Hq Hrun)
      as (c' & evs & _ & Hg & Hq' & Hev & _ & _ & Hno & _ & _ & _ & Hg' & Hed'
          & Hrd' & _).
    assert (Hed : Entry._ended e = false).
    { destruct (Entry._ended e); [|reflexivity].
      destruct (Hended eq_refl) as [H _]. congruence. }
    split.
    + split; [exact Hq'|]. split; [apply Hrd', Hrd|]. congruence.
    + unfold Delivery.ends_once in *. rewrite Hed', Hed in *.
      rewrite Hev, elem_of_app. intuition.
  - apply write_throws in Hrun. subst e'. split; assumption.
Qed.

Lemma after_ends_once e (op : Entry.call) :
  Delivery.settled e -> Delivery.ends_once e ->
  Delivery.settled (after e op) /\ Delivery.ends_once (after e op).
Proof.
  intros Hs Ho. destruct op as [c | c | |]; cbn [Entry.after].
  - apply write_ends_once; assumption.
  - unfold Entry.end_.
    assert (H1 : Delivery.settled
                   (Entry.state_of
                      match c with
                      | Some c => write e c
                      | None => Entry.Normal true e
                      end)
                 /\ Delivery.ends_once
                      (Entry.state_of
                         match c with
                         | Some c => write e c
                         | None => Entry.Normal true e
                         end)).
    { destruct c; [apply write_ends_once; assumption | split; assumption]. }
    destruct (match c with Some _ => _ | None => _ end) as [b e1 | msg e1];
      simpl in *; [|exact H1].
    destruct H1 as [(Hq & Hrd & Hended) Ho1].
    apply _read_ends_once.
    + split; [destruct e1; exact Hq|]. split; [destruct e1; exact Hrd|].
      intros Hed. split; [destruct e1; reflexivity|].
      destruct e1; apply Hended, Hed.
    + apply (set_flag_ends_once e1); [destruct e1; reflexivity.. | exact Ho1].
  - unfold Entry.pause. destruct Hs as (Hq & Hrd & Hended). split.
    + split; [destruct e; exact Hq|]. split; [destruct e; exact Hrd|].
      destruct e; exact Hended.
    + apply (ends_once_emit Entry.EmitPause) in Ho;
        [|destruct (Entry._ended e); [reflexivity | discriminate]].
      revert Ho. apply set_flag_ends_once; destruct e; reflexivity.
  - unfold Entry.resume. cbn [snd]. destruct Hs as (Hq & Hrd & Hended).
    apply _read_ends_once.
    + split; [destruct e; exact Hq|]. split; [destruct e; exact Hrd|].
      destruct e; exact Hended.
    + apply (ends_once_emit Entry.EmitResume) in Ho;
        [|destruct (Entry._ended e); [reflexivity | discriminate]].
      revert Ho. apply set_flag_ends_once; destruct e; reflexivity.
Qed.

(** *** While the stream is paused *)

Lemma paused_after e (op : Entry.call) :
  Entry._paused e = true -> Delivery.not_resume op = true ->
  exists evs,
    Entry.emitted (after e op) = Entry.emitted e ++ evs
    /\ Forall (fun ev => ev = Entry.EmitPause \/ exists msg, ev = Entry.EmitError msg)
         evs
    /\ Entry._paused (after e op) = true.
Proof.
  intros Hp Hop.
  assert (Hwrite : forall c,
            exists evs,
              Entry.emitted (Entry.state_of (write e c)) = Entry.emitted e ++ evs
              /\ Forall (fun ev => ev = Entry.EmitPause
                                   \/ exists msg, ev = Entry.EmitError msg) evs
              /\ Entry._paused (Entry.state_of (write e c)) = true).
  { intros c. unfold Entry.write.
    destruct (Entry._ending e);
      [exists []; rewrite app_nil_r; repeat split; [constructor | exact Hp]|].
    destruct (_ && _);
      [exists []; rewrite app_nil_r; repeat split; [constructor | exact Hp]|].
    cbv zeta. rewrite _read_stalled.
    2:{ unfold Delivery.stalled.
        destruct (Entry.is_zero _); destruct e; entry_simpl; simpl in *;
          subst; reflexivity. }
    destruct (Entry.is_zero (Entry._remaining e)).
    - exists [Entry.EmitError "invalid bytes past eof"].
      destruct e; entry_simpl; simpl in *; subst; simpl.
      split; [reflexivity|]. split; [|reflexivity].
      constructor; [right; eexists; reflexivity | constructor].
    - exists []. rewrite app_nil_r.
      destruct e; entry_simpl; simpl in *; subst; simpl.
      split; [reflexivity|]. split; [constructor | reflexivity]. }
  destruct op as [c | c | |]; cbn [Entry.after]; try discriminate.
  - apply Hwrite.
  - unfold Entry.end_.
    assert (H1 : exists evs,
              Entry.emitted
                (Entry.state_of
                   match c with
                   | Some c => write e c
                   | None => Entry.Normal true e
                   end) = Entry.emitted e ++ evs
              /\ Forall (fun ev => ev = Entry.EmitPause
                                   \/ exists msg, ev = Entry.EmitError msg) evs
              /\ Entry._paused
                   (Entry.state_of
                      match c with
                      | Some c => write e c
                      | None => Entry.Normal true e
                      end) = true).
    { destruct c; [apply Hwrite|].
      exists []. rewrite app_nil_r. repeat split; [constructor | exact Hp]. }
    destruct (match c with Some _ => _ | None => _ end) as [b e1 | msg e1];
      simpl in *; [|exact H1].
    rewrite _read_stalled.
    2:{ unfold Delivery.stalled. destruct H1 as (_ & _ & _ & H1).
        destruct e1; entry_simpl; simpl in *; subst; reflexivity. }
    destruct H1 as (evs & Hev & Hall & Hp1).
    exists evs. destruct e1; entry_simpl. auto.
  - exists [Entry.EmitPause]. unfold Entry.pause. destruct e; entry_simpl.
    split; [reflexivity|]. split; [|reflexivity].
    constructor; [left; reflexivity | constructor].
Qed.

(** *** Sequences of calls *)

Lemma run_cons e (op : Entry.call) (ops : list Entry.call) :
  run e (op :: ops) = run (after e op) ops.
Proof. reflexivity. Qed.

Lemma run_ends_once (ops : list Entry.call) :
  forall e, Delivery.settled e -> Delivery.ends_once e ->
    Delivery.settled (run e ops) /\ Delivery.ends_once (run e ops).
Proof.
  induction ops as [|op ops IH]; intros e Hs Ho; [split; assumption|].
  rewrite run_cons.
  destruct (after_ends_once e op Hs Ho) as [Hs' Ho']. apply IH; assumption.
Qed.

Lemma run_paused (ops : list Entry.call) :
  forall e, Entry._paused e = true ->
    forallb Delivery.not_resume ops = true ->
    exists evs,
      Entry.emitted (run e ops) = Entry.emitted e ++ evs
      /\ Forall (fun ev => ev = Entry.EmitPause
                           \/ exists msg, ev = Entry.EmitError msg) evs
      /\ Entry._paused (run e ops) = true.
Proof.
  induction ops as [|op ops IH]; intros e Hp Hops.
  - exists []. rewrite app_nil_r. repeat split; [constructor | exact Hp].
  - cbn [forallb] in Hops. apply andb_true_iff in Hops as [Hop Hops].
    rewrite run_cons.
    destruct (paused_after e op Hp Hop) as (evs1 & Hev1 & Hall1 & Hp1).
    destruct (IH _ Hp1 Hops) as (evs2 & Hev2 & Hall2 & Hp2).
    exists (evs1 ++ evs2). rewrite Hev2, Hev1, app_assoc.
    split; [reflexivity|]. split; [apply Forall_app; split; assumption|].
    exact Hp2.
Qed.

(** Within the declared size every chunk written enters the flow
    whole, after those written before it. *)
Lemma run_history (ops : list Entry.call) :
  forall e (r : Z),
    Entry.queue_ok e -> Entry._ending e = false ->
    Entry._remaining e = Some (Js.VNumber (Js.Num r)) ->
    forallb Delivery.not_end ops = true ->
    Forall (fun c => c <> []) (Delivery.written ops) ->
    Z.of_nat (length (concat (Delivery.written ops))) <= r ->
    Delivery.history (run e ops)
    = Delivery.history e ++ (Some <$> Delivery.written ops)
    /\ Entry._remaining (run e ops)
       = Some (Js.VNumber
                 (Js.Num (r - Z.of_nat (length (concat (Delivery.written ops))))))
    /\ exists evs,
        Entry.emitted (run e ops) = Entry.emitted e ++ evs
        /\ Forall (fun ev => forall msg, ev <> Entry.EmitError msg) evs.
Proof.
  induction ops as [|op ops IH]; intros e r Hq Hg Hr Hops Hne Hfit.
  - simpl. rewrite app_nil_r, Z.sub_0_r. split; [reflexivity|].
    split; [exact Hr|]. exists []. rewrite app_nil_r.
    split; [reflexivity | constructor].
  - cbn [forallb] in Hops. apply andb_true_iff in Hops as [Hop Hops].
    rewrite run_cons.
    destruct op as [c | c | |]; [| discriminate Hop | |]; cbn [Entry.after].
    + (* write(c) *)
      change (Delivery.written (Entry.CallWrite c :: ops))
        with (c :: Delivery.written ops) in *.
      apply Forall_cons in Hne as [Hc Hne].
      cbn [concat] in Hfit. rewrite length_app in Hfit.
      assert (Hlen : (0 < length c)%nat) by (destruct c; [congruence | simpl; lia]).
      assert (Hz : Entry.is_zero (Entry._remaining e) = false).
      { rewrite Hr. simpl. apply Z.eqb_neq. lia. }
      destruct (write_returns e c Hg Hz) as (b & e' & Hrun).
      destruct (write_step e c b e' Hq Hrun)
        as (c' & evs & Hc' & _ & Hq' & Hev & _ & _ & _ & _ & _ & _ & Hg' & _
            & _ & Hr' & Hnoerr).
      destruct (write_history e c b e' Hq Hrun) as (k & Hhist & Hwhole).
      rewrite Hr in Hc', Hr', Hwhole. cbn [Entry.ToNumber Js.gt Js.sub] in *.
      rewrite Hwhole in Hhist by lia.
      replace (Z.of_nat (length c) >? r) with false in Hc'
        by (symmetry; rewrite Z.gtb_ltb; apply Z.ltb_ge; lia).
      subst c'.
      rewrite Hrun. cbn [Entry.state_of].
      destruct (IH e' (r - Z.of_nat (length c)) Hq' Hg' Hr' Hops Hne
                  ltac:(lia)) as (Hh & Hrem & evs2 & Hev2 & Hall2).
      split; [rewrite Hh, Hhist, <- app_assoc; reflexivity|].
      split; [rewrite Hrem; do 3 f_equal; cbn [concat];
              rewrite length_app; lia|].
      exists (evs ++ evs2). rewrite Hev2, Hev, app_assoc.
      split; [reflexivity|]. apply Forall_app. split; [auto | exact Hall2].
    + (* pause() *)
      change (Delivery.written (Entry.CallPause :: ops))
        with (Delivery.written ops) in *.
      destruct (IH (Entry.pause e) r) as (Hh & Hrem & evs2 & Hev2 & Hall2);
        try assumption;
        try (unfold Entry.pause; destruct e; assumption).
      split; [rewrite Hh; f_equal; unfold Delivery.history, Entry.pause;
              destruct e; entry_simpl; rewrite data_app, app_nil_r;
              reflexivity|].
      split; [exact Hrem|].
      exists (Entry.EmitPause :: evs2). rewrite Hev2.
      split; [unfold Entry.pause; destruct e; entry_simpl;
              rewrite <- app_assoc; reflexivity|].
      constructor; [discriminate | exact Hall2].
    + (* resume() *)
      change (Delivery.written (Entry.CallResume :: ops))
        with (Delivery.written ops) in *.
      unfold Entry.resume. cbn [snd].
      set (x := Entry.set_paused false (Entry.emit Entry.EmitResume e)).
      assert (Hqx : Entry.queue_ok x) by (destruct e; exact Hq).
      destruct (_read_step x Hqx)
        as (evs & Hq' & Hev & _ & _ & _ & Hg' & Hr' & _ & _ & _ & _ & _
            & Hnoerr).
      destruct (IH (_read x) r) as (Hh & Hrem & evs2 & Hev2 & Hall2);
        try assumption;
        try (rewrite Hg' || rewrite Hr'; destruct e; assumption).
      split; [rewrite Hh, (_read_history x Hqx); f_equal; subst x;
              unfold Delivery.history; destruct e; entry_simpl;
              rewrite data_app, app_nil_r; reflexivity|].
      split; [exact Hrem|].
      exists (Entry.EmitResume :: evs ++ evs2). rewrite Hev2, Hev.
      split; [subst x; destruct e; entry_simpl; rewrite <- !app_assoc;
              reflexivity|].
      constructor; [discriminate|]. apply Forall_app. split; assumption.
Qed.

(** *** After [end()] *)

Lemma after_ending e (op : Entry.call) :
  Entry.queue_ok e -> Entry._ending e = true ->
  Entry.queue_ok (after e op)
  /\ Entry._ending (after e op) = true
  /\ Delivery.history (after e op) = Delivery.history e.
Proof.
  intros Hq Hg.
  assert (Hwrite : forall c, write e c = Entry.Throw "write() after end()" e).
  { intros c. unfold Entry.write. rewrite Hg. reflexivity. }
  assert (Hread : forall x,
            Entry.queue_ok x -> Entry._ending x = true ->
            Delivery.history x = Delivery.history e ->
            Entry.queue_ok (_read x)
            /\ Entry._ending (_read x) = true
            /\ Delivery.history (_read x) = Delivery.history e).
  { intros x Hqx Hgx Hhx.
    destruct (_read_step x Hqx) as (evs & Hq' & _ & _ & _ & _ & Hg' & _).
    split; [exact Hq'|]. split; [congruence|].
    rewrite (_read_history x Hqx). exact Hhx. }
  destruct op as [c | [c|] | |]; cbn [Entry.after].
  - rewrite Hwrite. auto.
  - unfold Entry.end_. rewrite Hwrite. auto.
  - unfold Entry.end_. cbn [Entry.state_of].
    apply Hread; destruct e; auto.
  - unfold Entry.pause. split; [destruct e; exact Hq|].
    split; [destruct e; exact Hg|].
    unfold Delivery.history. destruct e; entry_simpl.
    rewrite data_app, app_nil_r. reflexivity.
  - unfold Entry.resume. cbn [snd].
    apply Hread; [destruct e; exact Hq | destruct e; exact Hg|].
    unfold Delivery.history. destruct e; entry_simpl.
    rewrite data_app, app_nil_r. reflexivity.
Qed.

Lemma run_ending (ops : list Entry.call) :
  forall e, Entry.queue_ok e -> Entry._ending e = true ->
    Entry.queue_ok (run e ops)
    /\ Entry._ending (run e ops) = true
    /\ Delivery.history (run e ops) = Delivery.history e.
Proof.
  induction ops as [|op ops IH]; intros e Hq Hg; [auto|].
  rewrite run_cons.
  destruct (after_ending e op Hq Hg) as (Hq' & Hg' & Hh').
  destruct (IH _ Hq' Hg') as (Hq'' & Hg'' & Hh'').
  split; [exact Hq''|]. split; [exact Hg'' | congruence].
Qed.

End DeliveryFacts.

(** *** Compaction *)

Section CompactionFacts.

Variable ToNumber_string : string -> Js.number.
Variable error_listener : bool.
Variable m : nat.

Implicit Types (e : Entry.t).

Local Abbreviation _read := (Entry._read (Some m)).
Local Abbreviation write := (Entry.write ToNumber_string (Some m) error_listener).
Local Abbreviation after := (Entry.after ToNumber_string (Some m) error_listener).
Local Abbreviation run := (Entry.run ToNumber_string (Some m) error_listener).

(** With [_maxQueueLen] at least 1, a delivery attempt leaves at most
    [_maxQueueLen] delivered chunks in the queue. *)
Lemma _read_index e :
  (1 <= m)%nat -> Entry.queue_ok e -> (Entry._index e <= m)%nat ->
  Entry.queue_ok (_read e) /\ (Entry._index (_read e) <= m)%nat.
Proof.
  intros Hm [Hlen Hidx] Hi. unfold Entry._read.
  destruct (Entry._paused e || Entry._reading e || Entry._ended e);
    [split; [split|]; assumption|].
  destruct e as [nd pa rd eg ed rem q i ql pr hd ex gl ty pt evs0];
    simpl in *. subst ql.
  unfold Entry.emit_one. entry_simpl.
  destruct (Nat.ltb_spec i (length q)) as [Hlt | Hge].
  - unfold Entry.check_drained. entry_simpl.
    destruct (Nat.leb_spec (length q) (S i)) as [Hle | Hgt].
    + unfold Entry.pluck; entry_simpl;
        destruct nd, eg; entry_simpl;
        change (0 <? 0)%nat with false; rewrite ?andb_false_r;
        simpl; repeat split; lia.
    + unfold Entry.pluck; entry_simpl.
      destruct (Nat.ltb_spec m (length q)) as [Hbig | Hsmall];
        change (0 <? S i)%nat with true; cbn [andb]; entry_simpl;
        rewrite ?length_drop; repeat split; lia.
  - unfold Entry.check_drained. entry_simpl.
    replace (length q <=? i)%nat with true by (symmetry; apply Nat.leb_le; lia).
    unfold Entry.pluck; entry_simpl;
      destruct nd, eg; entry_simpl;
      change (0 <? 0)%nat with false; rewrite ?andb_false_r;
      simpl; repeat split; lia.
Qed.

Lemma after_index e (op : Entry.call) :
  (1 <= m)%nat -> Entry.queue_ok e -> (Entry._index e <= m)%nat ->
  Entry.queue_ok (after e op) /\ (Entry._index (after e op) <= m)%nat.
Proof.
  intros Hm Hq Hi.
  assert (Hwrite : forall c,
            Entry.queue_ok (Entry.state_of (write e c))
            /\ (Entry._index (Entry.state_of (write e c)) <= m)%nat).
  { intros c. unfold Entry.write.
    destruct (Entry._ending e); [auto|].
    destruct (_ && _); [auto|].
    cbv zeta.
    set (e2 := Entry.set_queue _ _ _ _).
    assert (H2 : Entry.queue_ok e2 /\ (Entry._index e2 <= m)%nat).
    { subst e2. destruct Hq as [Hlen Hidx].
      destruct (Entry.is_zero _); destruct e; entry_simpl; simpl in *;
        rewrite length_app; simpl; repeat split; lia. }
    destruct H2 as [Hq2 Hi2].
    destruct (_read_index e2 Hm Hq2 Hi2) as [Hq3 Hi3].
    destruct (_ || _); simpl; [|auto].
    destruct (_read e2); auto. }
  destruct op as [c | c | |]; cbn [Entry.after].
  - apply Hwrite.
  - unfold Entry.end_.
    assert (H1 : Entry.queue_ok
                   (Entry.state_of
                      match c with
                      | Some c => write e c
                      | None => Entry.Normal true e
                      end)
                 /\ (Entry._index
                       (Entry.state_of
                          match c with
                          | Some c => write e c
                          | None => Entry.Normal true e
                          end) <= m)%nat).
    { destruct c; [apply Hwrite | auto]. }
    destruct (match c with Some _ => _ | None => _ end) as [b e1 | msg e1];
      simpl in *; [|exact H1].
    apply _read_index; [exact Hm | destruct e1; apply H1..].
  - unfold Entry.pause. destruct e; auto.
  - unfold Entry.resume. cbn [snd].
    apply _read_index; [exact Hm | destruct e; assumption..].
Qed.

Lemma run_index (ops : list Entry.call) :
  (1 <= m)%nat ->
  forall e, Entry.queue_ok e -> (Entry._index e <= m)%nat ->
    Entry.queue_ok (run e ops) /\ (Entry._index (run e ops) <= m)%nat.
Proof.
  intros Hm. induction ops as [|op ops IH]; intros e Hq Hi; [auto|].
  destruct (after_index e op Hm Hq Hi) as [Hq' Hi'].
  exact (IH _ Hq' Hi').
Qed.

End CompactionFacts.

(** One delivery attempt ([_read]) on a stream whose queue is in order.
    While the stream is paused, already delivering or ended it delivers
    nothing and keeps the queue.  Otherwise it delivers exactly one
    chunk, the oldest that waits, when one waits, and none when the
    queue is empty: the other chunks keep waiting, in order.  It ends
    the stream exactly when [end()] was called and at most one chunk
    was waiting. *)
Theorem delivery_attempt_hands_over_the_oldest_chunk_or_nothing
  (_maxQueueLen : option nat) (e : Entry.t) :
  Entry.queue_ok e ->
  Delivery.data (Entry.emitted (Entry._read _maxQueueLen e))
  = Delivery.data (Entry.emitted e)
    ++ (if Delivery.stalled e then []
        else Some <$> take 1 (Entry.undelivered e))
  /\ Entry.undelivered (Entry._read _maxQueueLen e)
     = (if Delivery.stalled e then Entry.undelivered e
        else drop 1 (Entry.undelivered e))
  /\ Entry._ended (Entry._read _maxQueueLen e)
     = Entry._ended e
       || (negb (Delivery.stalled e) && Entry._ending e
           && (length (Entry.undelivered e) <=? 1)%nat).
Proof.
  intros Hq.
  destruct (_read_step _maxQueueLen e Hq)
    as (evs & _ & Hev & Hd & Hu & _ & _ & _ & _ & Hed & _).
  rewrite Hev, data_app, Hd. auto.
Qed.

(** The sample entry with two chunks queued, no longer paused. *)
Lemma delivery_attempt_hands_over_the_oldest_chunk_or_nothing_witness :
  Entry.queue_ok (Entry.set_paused false EntrySamples.paused_with_two_chunks)
  /\ Delivery.data
       (Entry.emitted
          (Entry._read None
             (Entry.set_paused false EntrySamples.paused_with_two_chunks)))
     = Delivery.data
         (Entry.emitted
            (Entry.set_paused false EntrySamples.paused_with_two_chunks))
       ++ (if Delivery.stalled
                (Entry.set_paused false EntrySamples.paused_with_two_chunks)
           then []
           else Some <$> take 1
                  (Entry.undelivered
                     (Entry.set_paused false
                        EntrySamples.paused_with_two_chunks))).
Proof.
  split; [split; vm_compute; [reflexivity | lia]|].
  apply (delivery_attempt_hands_over_the_oldest_chunk_or_nothing None
           (Entry.set_paused false EntrySamples.paused_with_two_chunks)).
  split; vm_compute; [reflexivity | lia].
Defined.

(** What [write(c)] returns, on a stream between two calls.  The chunk
    that enters the flow is [c] or, past the declared size, its first
    bytes; it is queued behind every chunk that still waits.  [write]
    returns [true] exactly when the stream is not paused and no earlier
    chunk was queued; the chunk has then been delivered before [write]
    returns and nothing is left waiting.  When it returns [false],
    [_needDrain] is set. *)
Theorem write_returns_true_exactly_when_the_chunk_went_through
  (ToNumber_string : string -> Js.number) (_maxQueueLen : option nat)
  (error_listener : bool) (e : Entry.t) (c : list Z) (b : bool)
  (e' : Entry.t) :
  Delivery.settled e ->
  Entry.write ToNumber_string _maxQueueLen error_listener e c
  = Entry.Normal b e' ->
  exists k : nat,
    Delivery.history e' = Delivery.history e ++ [Some (take k c)]
    /\ b = negb (Entry._paused e) && (Entry._queueLen e =? 0)%nat
    /\ (b = true ->
        Entry.undelivered e' = []
        /\ Delivery.data (Entry.emitted e')
           = Delivery.data (Entry.emitted e) ++ [Some (take k c)])
    /\ (b = false -> Entry._needDrain e' = true).
Proof.
  intros Hs Hrun. pose proof Hs as (Hq & Hrd & Hended).
  destruct (write_step ToNumber_string _maxQueueLen error_listener e c b e'
              Hq Hrun)
    as (c' & evs & Hc' & Hg & _ & Hev & Hd & Hu & _ & Hb & Hnd & _).
  destruct (write_history ToNumber_string _maxQueueLen error_listener e c b e'
              Hq Hrun) as (k & Hhist & _).
  assert (Hed : Entry._ended e = false).
  { destruct (Entry._ended e); [|reflexivity].
    destruct (Hended eq_refl) as [H _]. congruence. }
  rewrite (settled_stalled e Hs Hed) in Hd, Hu.
  exists k. split; [exact Hhist|].
  split.
  { rewrite Hb. destruct (Entry._paused e); [reflexivity|]. simpl.
    destruct (Entry._queueLen e); reflexivity. }
  split; [|exact Hnd].
  intros ->. symmetry in Hb. apply negb_true_iff, orb_false_iff in Hb as [Hp Hl].
  rewrite Hp in Hd, Hu.
  assert (Hempty : Entry.undelivered e = []).
  { destruct Hq as [Hlen Hidx]. unfold Entry.undelivered.
    apply Nat.ltb_ge in Hl. apply drop_ge. lia. }
  rewrite Hempty in Hd, Hu. simpl in Hd, Hu.
  split; [exact Hu|].
  unfold Delivery.history in Hhist. rewrite Hu, Hempty in Hhist.
  simpl in Hhist. rewrite !app_nil_r in Hhist. exact Hhist.
Qed.

(** The sample entry, which flows and holds nothing, written two
    bytes. *)
Lemma write_returns_true_exactly_when_the_chunk_went_through_witness :
  Delivery.settled EntrySamples.entry
  /\ exists k : nat,
      Delivery.history
        (Entry.state_of
           (Entry.write EntrySamples.ToNumber_string None true
              EntrySamples.entry [1; 2]))
      = Delivery.history EntrySamples.entry ++ [Some (take k [1; 2])]
      /\ true
         = negb (Entry._paused EntrySamples.entry)
           && (Entry._queueLen EntrySamples.entry =? 0)%nat
      /\ (true = true ->
          Entry.undelivered
            (Entry.state_of
               (Entry.write EntrySamples.ToNumber_string None true
                  EntrySamples.entry [1; 2])) = []
          /\ Delivery.data
               (Entry.emitted
                  (Entry.state_of
                     (Entry.write EntrySamples.ToNumber_string None true
                        EntrySamples.entry [1; 2])))
             = Delivery.data (Entry.emitted EntrySamples.entry)
               ++ [Some (take k [1; 2])])
      /\ (true = false ->
          Entry._needDrain
            (Entry.state_of
               (Entry.write EntrySamples.ToNumber_string None true
                  EntrySamples.entry [1; 2])) = true).
Proof.
  assert (Hs : Delivery.settled EntrySamples.entry).
  { split; [split; vm_compute; [reflexivity | lia]|].
    split; [vm_compute; reflexivity | vm_compute; intros H; discriminate H]. }
  split; [exact Hs|].
  apply (write_returns_true_exactly_when_the_chunk_went_through
           EntrySamples.ToNumber_string None true EntrySamples.entry [1; 2]
           true _ Hs).
  vm_compute. reflexivity.
Defined.

(** No chunk is lost, cut or reordered within the declared size.  On a
    stream that has not been asked to end and has [r] bytes left of its
    declared size, after any sequence of [write], [pause] and [resume]
    calls whose chunks are not empty and hold [r] bytes at most in all:
    the chunks delivered in [data] events, followed by the chunks still
    queued, are exactly the chunks that were delivered or queued before
    followed by the chunks written, whole and in the order of the calls;
    the counter went down by their bytes; and no ['error'] was
    emitted. *)
Theorem stream_keeps_every_chunk_in_order
  (ToNumber_string : string -> Js.number) (_maxQueueLen : option nat)
  (error_listener : bool) (e : Entry.t) (r : Z) (ops : list Entry.call) :
  Entry.queue_ok e ->
  Entry._ending e = false ->
  Entry._remaining e = Some (Js.VNumber (Js.Num r)) ->
  forallb Delivery.not_end ops = true ->
  Forall (fun c => c <> []) (Delivery.written ops) ->
  Z.of_nat (length (concat (Delivery.written ops))) <= r ->
  Delivery.history
    (Entry.run ToNumber_string _maxQueueLen error_listener e ops)
  = Delivery.history e ++ (Some <$> Delivery.written ops)
  /\ Entry._remaining
       (Entry.run ToNumber_string _maxQueueLen error_listener e ops)
     = Some (Js.VNumber
               (Js.Num (r - Z.of_nat (length (concat (Delivery.written ops))))))
  /\ exists evs,
      Entry.emitted
        (Entry.run ToNumber_string _maxQueueLen error_listener e ops)
      = Entry.emitted e ++ evs
      /\ Forall (fun ev => forall msg, ev <> Entry.EmitError msg) evs.
Proof. apply run_history. Qed.

(** The sample entry, of four bytes: one byte written, then two while
    paused, then one after [resume()]. *)
Lemma stream_keeps_every_chunk_in_order_witness :
  Delivery.history
    (Entry.run EntrySamples.ToNumber_string (Some 1%nat) false
       EntrySamples.entry
       [Entry.CallWrite [1]; Entry.CallPause; Entry.CallWrite [2; 3];
        Entry.CallResume; Entry.CallWrite [4]])
  = Delivery.history EntrySamples.entry
    ++ (Some <$> Delivery.written
                   [Entry.CallWrite [1]; Entry.CallPause;
                    Entry.CallWrite [2; 3]; Entry.CallResume;
                    Entry.CallWrite [4]])
  /\ Entry._remaining
       (Entry.run EntrySamples.ToNumber_string (Some 1%nat) false
          EntrySamples.entry
          [Entry.CallWrite [1]; Entry.CallPause; Entry.CallWrite [2; 3];
           Entry.CallResume; Entry.CallWrite [4]])
     = Some (Js.VNumber
               (Js.Num
                  (4 - Z.of_nat
                         (length
                            (concat
                               (Delivery.written
                                  [Entry.CallWrite [1]; Entry.CallPause;
                                   Entry.CallWrite [2; 3]; Entry.CallResume;
                                   Entry.CallWrite [4]]))))))
  /\ exists evs,
      Entry.emitted
        (Entry.run EntrySamples.ToNumber_string (Some 1%nat) false
           EntrySamples.entry
           [Entry.CallWrite [1]; Entry.CallPause; Entry.CallWrite [2; 3];
            Entry.CallResume; Entry.CallWrite [4]])
      = Entry.emitted EntrySamples.entry ++ evs
      /\ Forall (fun ev => forall msg, ev <> Entry.EmitError msg) evs.
Proof.
  apply (stream_keeps_every_chunk_in_order EntrySamples.ToNumber_string
           (Some 1%nat) false EntrySamples.entry 4).
  - split; vm_compute; [reflexivity | lia].
  - reflexivity.
  - vm_compute. reflexivity.
  - reflexivity.
  - repeat constructor; discriminate.
  - vm_compute. discriminate.
Defined.

(** An entry as the constructor leaves it, after any sequence of
    [write], [end], [pause] and [resume] calls (those that throw
    included).  The stream is ended only if [end()] was called and
    nothing is left in the queue.  Until it is ended it has emitted no
    [end]; once it is ended it has emitted exactly one [end], and the
    only events after it report [pause()] and [resume()] calls: every
    [data], [drain] and [error] came before. *)
Theorem stream_ends_once_after_all_its_data
  (fields : list string) (types : option Js.value -> option string)
  (ToNumber_string : string -> Js.number) (_maxQueueLen : option nat)
  (error_listener : bool) (header : gmap string Js.value)
  (extended global : option (gmap string Js.value))
  (e0 : Entry.t) (ops : list Entry.call) :
  Entry.Entry fields types ToNumber_string header extended global = inr e0 ->
  Delivery.settled
    (Entry.run ToNumber_string _maxQueueLen error_listener e0 ops)
  /\ Delivery.ends_once
       (Entry.run ToNumber_string _maxQueueLen error_listener e0 ops).
Proof.
  intros Hnew. unfold Entry.Entry in Hnew.
  destruct (bool_decide _); [|discriminate]. injection Hnew as <-.
  apply run_ends_once.
  - unfold Delivery.settled, Entry._setProps, Entry.fresh. entry_simpl.
    split; [split; [reflexivity | apply Nat.le_refl]|].
    split; [reflexivity | intros H; discriminate H].
  - unfold Delivery.ends_once, Entry._setProps, Entry.fresh. entry_simpl.
    apply not_elem_of_nil.
Qed.

(** The sample entry and the sample calls, which end it. *)
Lemma stream_ends_once_after_all_its_data_witness :
  Delivery.settled
    (Entry.run EntrySamples.ToNumber_string None true EntrySamples.entry
       (EntrySamples.calls ++ [Entry.CallResume; Entry.CallPause]))
  /\ Delivery.ends_once
       (Entry.run EntrySamples.ToNumber_string None true EntrySamples.entry
          (EntrySamples.calls ++ [Entry.CallResume; Entry.CallPause])).
Proof.
  apply (stream_ends_once_after_all_its_data EntrySamples.fields
           EntrySamples.types EntrySamples.ToNumber_string None true
           EntrySamples.header None None EntrySamples.entry).
  vm_compute. reflexivity.
Defined.

(** A paused stream holds everything back.  From a paused stream, any
    sequence of [write], [end] and [pause] calls leaves it paused, and
    the only events emitted are [pause] and the [error] of a write past
    the declared size: no [data], no [drain] and no [end], whatever was
    written and even after [end()]. *)
Theorem paused_stream_holds_everything_back
  (ToNumber_string : string -> Js.number) (_maxQueueLen : option nat)
  (error_listener : bool) (e : Entry.t) (ops : list Entry.call) :
  Entry._paused e = true ->
  forallb Delivery.not_resume ops = true ->
  exists evs,
    Entry.emitted (Entry.run ToNumber_string _maxQueueLen error_listener e ops)
    = Entry.emitted e ++ evs
    /\ Forall (fun ev => ev = Entry.EmitPause
                         \/ exists msg, ev = Entry.EmitError msg) evs
    /\ Entry._paused
         (Entry.run ToNumber_string _maxQueueLen error_listener e ops)
       = true.
Proof. apply run_paused. Qed.

Lemma paused_stream_holds_everything_back_witness :
  exists evs,
    Entry.emitted
      (Entry.run EntrySamples.ToNumber_string None true
         EntrySamples.paused_with_two_chunks
         [Entry.CallWrite [3]; Entry.CallEnd None])
    = Entry.emitted EntrySamples.paused_with_two_chunks ++ evs
    /\ Forall (fun ev => ev = Entry.EmitPause
                         \/ exists msg, ev = Entry.EmitError msg) evs
    /\ Entry._paused
         (Entry.run EntrySamples.ToNumber_string None true
            EntrySamples.paused_with_two_chunks
            [Entry.CallWrite [3]; Entry.CallEnd None])
       = true.
Proof.
  apply (paused_stream_holds_everything_back EntrySamples.ToNumber_string
           None true EntrySamples.paused_with_two_chunks
           [Entry.CallWrite [3]; Entry.CallEnd None]);
    vm_compute; reflexivity.
Defined.

(** [end()] does not flush the queue.  On a stream between two calls
    that has not ended, [end()] sets [_ending] and makes one delivery
    attempt: it delivers at most one chunk, and it ends the stream
    (before it returns) exactly when the stream is not paused and at
    most one chunk was waiting.  With more chunks waiting the stream
    stays open until later [resume()] calls have delivered them, one
    per call. *)
Theorem end_ends_the_stream_only_when_at_most_one_chunk_waits
  (ToNumber_string : string -> Js.number) (_maxQueueLen : option nat)
  (error_listener : bool) (e : Entry.t) :
  Delivery.settled e ->
  Entry._ended e = false ->
  Entry._ended
    (Entry.state_of
       (Entry.end_ ToNumber_string _maxQueueLen error_listener e None))
  = negb (Entry._paused e) && (length (Entry.undelivered e) <=? 1)%nat
  /\ Entry.undelivered
       (Entry.state_of
          (Entry.end_ ToNumber_string _maxQueueLen error_listener e None))
     = (if Entry._paused e then Entry.undelivered e
        else drop 1 (Entry.undelivered e))
  /\ Entry._ending
       (Entry.state_of
          (Entry.end_ ToNumber_string _maxQueueLen error_listener e None))
     = true.
Proof.
  intros Hs Hed. pose proof Hs as (Hq & Hrd & _).
  unfold Entry.end_. cbn [Entry.state_of].
  set (x := Entry.set_ending true e).
  assert (Hqx : Entry.queue_ok x) by (destruct e; exact Hq).
  assert (Hstx : Delivery.stalled x = Entry._paused e).
  { rewrite <- (settled_stalled e Hs Hed). destruct e; reflexivity. }
  assert (Hux : Entry.undelivered x = Entry.undelivered e)
    by (destruct e; reflexivity).
  assert (Hgx : Entry._ending x = true) by (destruct e; reflexivity).
  assert (Hedx : Entry._ended x = Entry._ended e) by (destruct e; reflexivity).
  destruct (_read_step _maxQueueLen x Hqx)
    as (evs & _ & _ & _ & Hu & _ & Hg & _ & _ & Hed' & _).
  rewrite Hstx, Hux in Hu, Hed'. rewrite Hgx in Hg, Hed'.
  rewrite Hedx, Hed in Hed'. simpl in Hed'. rewrite andb_true_r in Hed'.
  split; [exact Hed'|]. split; [exact Hu | exact Hg].
Qed.

(** The sample entry with two chunks queued, no longer paused: [end()]
    delivers one chunk and leaves the stream open. *)
Lemma end_ends_the_stream_only_when_at_most_one_chunk_waits_witness :
  Delivery.settled (Entry.set_paused false EntrySamples.paused_with_two_chunks)
  /\ Entry._ended
       (Entry.state_of
          (Entry.end_ EntrySamples.ToNumber_string None true
             (Entry.set_paused false EntrySamples.paused_with_two_chunks)
             None))
     = negb (Entry._paused
               (Entry.set_paused false EntrySamples.paused_with_two_chunks))
       && (length
             (Entry.undelivered
                (Entry.set_paused false EntrySamples.paused_with_two_chunks))
           <=? 1)%nat.
Proof.
  assert (Hs : Delivery.settled
                 (Entry.set_paused false EntrySamples.paused_with_two_chunks)).
  { split; [split; vm_compute; [reflexivity | lia]|].
    split; [vm_compute; reflexivity | vm_compute; intros H; discriminate H]. }
  split; [exact Hs|].
  apply (end_ends_the_stream_only_when_at_most_one_chunk_waits
           EntrySamples.ToNumber_string None true
           (Entry.set_paused false EntrySamples.paused_with_two_chunks) Hs).
  vm_compute. reflexivity.
Defined.

(** Two chunks written while paused, then [end()] and one [resume()]:
    one chunk is delivered, the other still waits, and no [end] is
    emitted. *)
Example end_then_one_resume_leaves_a_chunk :
  let e := Entry.run EntrySamples.ToNumber_string None true
             EntrySamples.paused_with_two_chunks
             [Entry.CallEnd None; Entry.CallResume] in
  Delivery.data (Entry.emitted e) = [Some [1]]
  /\ Entry.undelivered e = [[2]]
  /\ Entry._ended e = false.
Proof. vm_compute. repeat split. Qed.

(** The [drain] signal.  A delivery attempt on a stream whose queue is
    in order emits [drain] exactly when it is not held back (paused,
    already delivering, ended), [_needDrain] is set (a [write] returned
    [false] since the last [drain]) and at most one chunk was waiting,
    so that the attempt leaves the queue empty; it emits it once and
    clears [_needDrain].  Otherwise [_needDrain] is left as it was. *)
Theorem drain_is_emitted_when_the_queue_runs_empty
  (_maxQueueLen : option nat) (e : Entry.t) :
  Entry.queue_ok e ->
  exists evs,
    Entry.emitted (Entry._read _maxQueueLen e) = Entry.emitted e ++ evs
    /\ (Entry.EmitDrain ∈ evs
        <-> Delivery.stalled e = false /\ Entry._needDrain e = true
            /\ (length (Entry.undelivered e) <= 1)%nat)
    /\ (Entry._needDrain (Entry._read _maxQueueLen e) = true
        <-> Entry._needDrain e = true /\ Entry.EmitDrain ∉ evs).
Proof. apply _read_drain. Qed.

(** The sample entry written one byte while paused, then no longer
    paused: the attempt delivers the byte and emits [drain]. *)
Lemma drain_is_emitted_when_the_queue_runs_empty_witness :
  Entry.queue_ok
    (Entry.set_paused false
       (Entry.run EntrySamples.ToNumber_string None true EntrySamples.entry
          [Entry.CallPause; Entry.CallWrite [1%Z]]))
  /\ exists evs,
      Entry.emitted
        (Entry._read None
           (Entry.set_paused false
              (Entry.run EntrySamples.ToNumber_string None true
                 EntrySamples.entry [Entry.CallPause; Entry.CallWrite [1%Z]])))
      = Entry.emitted
          (Entry.set_paused false
             (Entry.run EntrySamples.ToNumber_string None true
                EntrySamples.entry [Entry.CallPause; Entry.CallWrite [1%Z]]))
        ++ evs
      /\ (Entry.EmitDrain ∈ evs
          <-> Delivery.stalled
                (Entry.set_paused false
                   (Entry.run EntrySamples.ToNumber_string None true
                      EntrySamples.entry
                      [Entry.CallPause; Entry.CallWrite [1%Z]])) = false
              /\ Entry._needDrain
                   (Entry.set_paused false
                      (Entry.run EntrySamples.ToNumber_string None true
                         EntrySamples.entry
                         [Entry.CallPause; Entry.CallWrite [1%Z]])) = true
              /\ (length
                    (Entry.undelivered
                       (Entry.set_paused false
                          (Entry.run EntrySamples.ToNumber_string None true
                             EntrySamples.entry
                             [Entry.CallPause; Entry.CallWrite [1%Z]])))
                  <= 1)%nat)
      /\ (Entry._needDrain
            (Entry._read None
               (Entry.set_paused false
                  (Entry.run EntrySamples.ToNumber_string None true
                     EntrySamples.entry
                     [Entry.CallPause; Entry.CallWrite [1%Z]]))) = true
          <-> Entry._needDrain
                (Entry.set_paused false
                   (Entry.run EntrySamples.ToNumber_string None true
                      EntrySamples.entry
                      [Entry.CallPause; Entry.CallWrite [1%Z]])) = true
              /\ Entry.EmitDrain ∉ evs).
Proof.
  assert (Hq : Entry.queue_ok
                 (Entry.set_paused false
                    (Entry.run EntrySamples.ToNumber_string None true
                       EntrySamples.entry
                       [Entry.CallPause; Entry.CallWrite [1%Z]]))).
  { split; vm_compute; [reflexivity | lia]. }
  split; [exact Hq|].
  exact (drain_is_emitted_when_the_queue_runs_empty None _ Hq).
Defined.

Example drain_after_a_write_that_waited :
  Entry.emitted
    (Entry.run EntrySamples.ToNumber_string None true EntrySamples.entry
       [Entry.CallPause; Entry.CallWrite [1]; Entry.CallResume])
  = [Entry.EmitPause; Entry.EmitResume; Entry.EmitData (Some [1]);
     Entry.EmitDrain].
Proof. vm_compute. reflexivity. Qed.

(** Nothing enters the stream after [end()].  Once [_ending] is set, it
    stays set through any sequence of [write], [end], [pause] and
    [resume] calls; every [write(c)] throws ["write() after end()"] and
    leaves the entry as it was; and the chunks of the stream (those
    delivered, then those still queued) stay the ones it held when
    [end()] was called: later calls only deliver them. *)
Theorem no_chunk_enters_after_end
  (ToNumber_string : string -> Js.number) (_maxQueueLen : option nat)
  (error_listener : bool) (e : Entry.t) (ops : list Entry.call)
  (c : list Z) :
  Entry.queue_ok e ->
  Entry._ending e = true ->
  Entry.write ToNumber_string _maxQueueLen error_listener
    (Entry.run ToNumber_string _maxQueueLen error_listener e ops) c
  = Entry.Throw "write() after end()"
      (Entry.run ToNumber_string _maxQueueLen error_listener e ops)
  /\ Delivery.history
       (Entry.run ToNumber_string _maxQueueLen error_listener e ops)
     = Delivery.history e.
Proof.
  intros Hq Hg.
  destruct (run_ending ToNumber_string _maxQueueLen error_listener ops e Hq Hg)
    as (_ & Hg' & Hh).
  split; [|exact Hh].
  unfold Entry.write. rewrite Hg'. reflexivity.
Qed.

(** The sample entry with two chunks queued, asked to end. *)
Lemma no_chunk_enters_after_end_witness :
  Entry.write EntrySamples.ToNumber_string None true
    (Entry.run EntrySamples.ToNumber_string None true
       (Entry.set_ending true EntrySamples.paused_with_two_chunks)
       [Entry.CallResume; Entry.CallWrite [9]; Entry.CallResume]) [7]
  = Entry.Throw "write() after end()"
      (Entry.run EntrySamples.ToNumber_string None true
         (Entry.set_ending true EntrySamples.paused_with_two_chunks)
         [Entry.CallResume; Entry.CallWrite [9]; Entry.CallResume])
  /\ Delivery.history
       (Entry.run EntrySamples.ToNumber_string None true
          (Entry.set_ending true EntrySamples.paused_with_two_chunks)
          [Entry.CallResume; Entry.CallWrite [9]; Entry.CallResume])
     = Delivery.history
         (Entry.set_ending true EntrySamples.paused_with_two_chunks).
Proof.
  apply (no_chunk_enters_after_end EntrySamples.ToNumber_string None true
           (Entry.set_ending true EntrySamples.paused_with_two_chunks)
           [Entry.CallResume; Entry.CallWrite [9]; Entry.CallResume] [7]).
  - split; vm_compute; [reflexivity | lia].
  - vm_compute. reflexivity.
Defined.

(** What the compaction of the queue bounds.  With [_maxQueueLen] set
    to [m >= 1], on an entry that holds at most [m] delivered chunks in
    its queue, after any sequence of [write], [end], [pause] and
    [resume] calls the queue still holds at most [m] chunks that were
    already delivered ([_index <= m]), and its bookkeeping is in order.
    The chunks not yet delivered are never evicted, so the queue itself
    is not bounded. *)
Theorem delivered_chunks_kept_in_the_queue_are_bounded
  (ToNumber_string : string -> Js.number) (error_listener : bool) (m : nat)
  (e : Entry.t) (ops : list Entry.call) :
  (1 <= m)%nat ->
  Entry.queue_ok e ->
  (Entry._index e <= m)%nat ->
  Entry.queue_ok (Entry.run ToNumber_string (Some m) error_listener e ops)
  /\ (Entry._index (Entry.run ToNumber_string (Some m) error_listener e ops)
      <= m)%nat.
Proof. intros Hm Hq Hi. apply run_index; assumption. Qed.

(** Three chunks written while paused, then two [resume()]s, with
    [_maxQueueLen = 1]. *)
Lemma delivered_chunks_kept_in_the_queue_are_bounded_witness :
  Entry.queue_ok
    (Entry.run EntrySamples.ToNumber_string (Some 1%nat) true
       EntrySamples.entry
       [Entry.CallPause; Entry.CallWrite [1%Z]; Entry.CallWrite [2%Z];
        Entry.CallWrite [3%Z]; Entry.CallResume; Entry.CallResume])
  /\ (Entry._index
        (Entry.run EntrySamples.ToNumber_string (Some 1%nat) true
           EntrySamples.entry
           [Entry.CallPause; Entry.CallWrite [1%Z]; Entry.CallWrite [2%Z];
            Entry.CallWrite [3%Z]; Entry.CallResume; Entry.CallResume])
      <= 1)%nat.
Proof.
  apply (delivered_chunks_kept_in_the_queue_are_bounded
           EntrySamples.ToNumber_string true 1 EntrySamples.entry).
  - lia.
  - split; vm_compute; [reflexivity | lia].
  - vm_compute. lia.
Defined.

(** The source sets [_maxQueueLen] nowhere: with it [undefined] the
    same calls leave both delivered chunks in the queue. *)
Example without_maxQueueLen_delivered_chunks_stay :
  let e := Entry.run EntrySamples.ToNumber_string None true
             EntrySamples.entry
             [Entry.CallPause; Entry.CallWrite [1]; Entry.CallWrite [2];
              Entry.CallWrite [3]; Entry.CallResume; Entry.CallResume] in
  Entry._index e = 2%nat /\ Entry._queue e = [[1]; [2]; [3]].
Proof. vm_compute. split; reflexivity. Qed.

